(** * Perf-event counters of a thread (src/Common/ThreadProfileEvents.cpp)

    The translation unit is embedded as programs over a small free monad:
    every access to thread-local storage, to a [PerfEventsCounters] object,
    to one of the two process-wide atomic flags, every libc or system call,
    every log line and every [ProfileEvents::Counters::increment] is one
    atomic action.  The same program text is then given
    - a sequential semantics ([run]), used for the per-thread properties, and
    - an interleaving semantics ([sched]), used for the log-once flags. *)

From Stdlib Require Import ZArith Lia Ascii String.
From stdpp Require Import base option list gmap.

Local Open Scope Z_scope.

(** ** Constants of <linux/perf_event.h> (kernel ABI) *)

Definition PERF_TYPE_HARDWARE : Z := 0.
Definition PERF_TYPE_SOFTWARE : Z := 1.

Definition PERF_COUNT_HW_CPU_CYCLES : Z := 0.
Definition PERF_COUNT_HW_INSTRUCTIONS : Z := 1.
Definition PERF_COUNT_HW_CACHE_REFERENCES : Z := 2.
Definition PERF_COUNT_HW_CACHE_MISSES : Z := 3.
Definition PERF_COUNT_HW_BRANCH_INSTRUCTIONS : Z := 4.
Definition PERF_COUNT_HW_BRANCH_MISSES : Z := 5.
Definition PERF_COUNT_HW_BUS_CYCLES : Z := 6.
Definition PERF_COUNT_HW_STALLED_CYCLES_FRONTEND : Z := 7.
Definition PERF_COUNT_HW_STALLED_CYCLES_BACKEND : Z := 8.
Definition PERF_COUNT_HW_REF_CPU_CYCLES : Z := 9.

Definition PERF_COUNT_SW_TASK_CLOCK : Z := 1.
Definition PERF_COUNT_SW_PAGE_FAULTS : Z := 2.
Definition PERF_COUNT_SW_CONTEXT_SWITCHES : Z := 3.
Definition PERF_COUNT_SW_CPU_MIGRATIONS : Z := 4.
Definition PERF_COUNT_SW_PAGE_FAULTS_MIN : Z := 5.
Definition PERF_COUNT_SW_PAGE_FAULTS_MAJ : Z := 6.
Definition PERF_COUNT_SW_ALIGNMENT_FAULTS : Z := 7.
Definition PERF_COUNT_SW_EMULATION_FAULTS : Z := 8.

(** The three ioctl requests the file issues. *)
Inductive ioctl_request :=
| PERF_EVENT_IOC_ENABLE
| PERF_EVENT_IOC_DISABLE
| PERF_EVENT_IOC_RESET.

(** The only capability the file asks about. *)
Inductive capability := CAP_SYS_ADMIN.

(** The fields of [perf_event_attr] the file sets; every other field keeps
    the zero of [perf_event_attr()], and [size] is the ABI size of the
    struct. *)
Record perf_event_attr := {
  pe_type : Z;
  pe_config : Z;
  pe_disabled : bool;
  pe_exclude_kernel : bool }.

(** ** Metric identifiers (keys of [ProfileEvents::Counters]) *)

Module ProfileEvents.
Inductive Event :=
  | PERF_COUNT_HW_CPU_CYCLES
  | PERF_COUNT_HW_INSTRUCTIONS
  | PERF_COUNT_HW_CACHE_REFERENCES
  | PERF_COUNT_HW_CACHE_MISSES
  | PERF_COUNT_HW_BRANCH_INSTRUCTIONS
  | PERF_COUNT_HW_BRANCH_MISSES
  | PERF_COUNT_HW_BUS_CYCLES
  | PERF_COUNT_HW_STALLED_CYCLES_FRONTEND
  | PERF_COUNT_HW_STALLED_CYCLES_BACKEND
  | PERF_COUNT_HW_REF_CPU_CYCLES
  | PERF_COUNT_SW_TASK_CLOCK
  | PERF_COUNT_SW_PAGE_FAULTS
  | PERF_COUNT_SW_CONTEXT_SWITCHES
  | PERF_COUNT_SW_CPU_MIGRATIONS
  | PERF_COUNT_SW_PAGE_FAULTS_MIN
  | PERF_COUNT_SW_PAGE_FAULTS_MAJ
  | PERF_COUNT_SW_ALIGNMENT_FAULTS
  | PERF_COUNT_SW_EMULATION_FAULTS
  | PERF_CUSTOM_INSTRUCTIONS_PER_CPU_CYCLE_SCALED
  | PERF_CUSTOM_INSTRUCTIONS_PER_CPU_CYCLE.
End ProfileEvents.

(** ** The event catalog *)

Record PerfEventInfo := {
  event_type : Z;
  event_config : Z;
  profile_event : ProfileEvents.Event }.

Definition softwareEvent (event_config : Z) (profile_event : ProfileEvents.Event)
  : PerfEventInfo :=
  {| event_type := PERF_TYPE_SOFTWARE;
     event_config := event_config;
     profile_event := profile_event |}.

Definition hardwareEvent (event_config : Z) (profile_event : ProfileEvents.Event)
  : PerfEventInfo :=
  {| event_type := PERF_TYPE_HARDWARE;
     event_config := event_config;
     profile_event := profile_event |}.

(** [PerfEventsCounters::raw_events_info], in the order of the source. *)
Definition raw_events_info : list PerfEventInfo :=
  [ hardwareEvent PERF_COUNT_HW_CPU_CYCLES ProfileEvents.PERF_COUNT_HW_CPU_CYCLES;
    hardwareEvent PERF_COUNT_HW_INSTRUCTIONS ProfileEvents.PERF_COUNT_HW_INSTRUCTIONS;
    hardwareEvent PERF_COUNT_HW_CACHE_REFERENCES ProfileEvents.PERF_COUNT_HW_CACHE_REFERENCES;
    hardwareEvent PERF_COUNT_HW_CACHE_MISSES ProfileEvents.PERF_COUNT_HW_CACHE_MISSES;
    hardwareEvent PERF_COUNT_HW_BRANCH_INSTRUCTIONS ProfileEvents.PERF_COUNT_HW_BRANCH_INSTRUCTIONS;
    hardwareEvent PERF_COUNT_HW_BRANCH_MISSES ProfileEvents.PERF_COUNT_HW_BRANCH_MISSES;
    hardwareEvent PERF_COUNT_HW_BUS_CYCLES ProfileEvents.PERF_COUNT_HW_BUS_CYCLES;
    hardwareEvent PERF_COUNT_HW_STALLED_CYCLES_FRONTEND ProfileEvents.PERF_COUNT_HW_STALLED_CYCLES_FRONTEND;
    hardwareEvent PERF_COUNT_HW_STALLED_CYCLES_BACKEND ProfileEvents.PERF_COUNT_HW_STALLED_CYCLES_BACKEND;
    hardwareEvent PERF_COUNT_HW_REF_CPU_CYCLES ProfileEvents.PERF_COUNT_HW_REF_CPU_CYCLES;
    softwareEvent PERF_COUNT_SW_TASK_CLOCK ProfileEvents.PERF_COUNT_SW_TASK_CLOCK;
    softwareEvent PERF_COUNT_SW_PAGE_FAULTS ProfileEvents.PERF_COUNT_SW_PAGE_FAULTS;
    softwareEvent PERF_COUNT_SW_CONTEXT_SWITCHES ProfileEvents.PERF_COUNT_SW_CONTEXT_SWITCHES;
    softwareEvent PERF_COUNT_SW_CPU_MIGRATIONS ProfileEvents.PERF_COUNT_SW_CPU_MIGRATIONS;
    softwareEvent PERF_COUNT_SW_PAGE_FAULTS_MIN ProfileEvents.PERF_COUNT_SW_PAGE_FAULTS_MIN;
    softwareEvent PERF_COUNT_SW_PAGE_FAULTS_MAJ ProfileEvents.PERF_COUNT_SW_PAGE_FAULTS_MAJ;
    softwareEvent PERF_COUNT_SW_ALIGNMENT_FAULTS ProfileEvents.PERF_COUNT_SW_ALIGNMENT_FAULTS;
    softwareEvent PERF_COUNT_SW_EMULATION_FAULTS ProfileEvents.PERF_COUNT_SW_EMULATION_FAULTS ].

(** ** Machine integers *)

(** A [UInt64] read from the kernel. *)
Definition to_UInt64 (v : Z) : Z := v mod 2 ^ 64.

(** [static_cast<Int32>] of an [Int64]. *)
Definition to_Int32 (v : Z) : Z := (v + 2 ^ 31) mod 2 ^ 32 - 2 ^ 31.

(** An [int]: what [ioctl], [close] and [errno] yield, and the
    [static_cast<int>] of the [long] that [syscall] returns. *)
Definition to_int (v : Z) : Z := to_Int32 v.

(** The [long] that [strtol] returns, an [Int64]. *)
Definition to_Int64 (v : Z) : Z := (v + 2 ^ 63) mod 2 ^ 64 - 2 ^ 63.

(** ** Observable effects *)

(** The address of a [PerfEventsCounters] object, and of a
    [ProfileEvents::Counters] object. *)
Abbreviation addr := nat.

Inductive Priority := PRIO_WARNING | PRIO_INFORMATION.

(** [Logger::get(name)]. *)
Inductive Logger := LoggerPerfEventsCounters | LoggerPerfDescriptorsHolder.

(** The log lines of the file, with the values streamed into them. *)
Inductive message :=
| MsgCantFindPerfEventInfo (event_type event_config : Z)
| MsgPerfEventsUnsupported
| MsgNotEnoughPermissions
| MsgPerfEventUnsupported (event_type event_config : Z)
| MsgOnlyOneInstance
| MsgCantReadEventValue (fd : Z)
| MsgCantDisable (fd : Z)
| MsgCantReset (fd : Z)
| MsgCantClose (fd : Z) (errno : Z).

(** What the process does to the outside world, with what it got back. *)
Inductive event :=
| EvFopen (ok : bool)
| EvFgets (size : nat) (res : option string)
| EvFclose
| EvStrtol (str : string) (value : Z)
| EvHasLinuxCapability (cap : capability) (res : bool)
| EvPerfEventOpen (attr : perf_event_attr) (pid cpu group_fd flags : Z) (fd : Z)
| EvIoctl (fd : Z) (req : ioctl_request) (res : Z)
| EvRead (fd : Z) (res : option Z)
| EvClose (fd : Z) (res : Z)
| EvLog (prio : Priority) (logger : Logger) (msg : message)
| EvIncrement (sink : addr) (ev : ProfileEvents.Event) (amount : Z).

(** The environment: what libc and the kernel answer, given everything the
    process has done so far. *)
Record OS := {
  os_fopen : list event → bool;
  os_fgets : list event → nat → option string;
  os_strtol : list event → string → Z;
  os_errno : list event → Z;
  os_hasLinuxCapability : list event → capability → bool;
  os_perf_event_open : list event → perf_event_attr → Z → Z → Z → Z → Z;
  os_ioctl : list event → Z → ioctl_request → Z;
  os_read : list event → Z → option Z;
  os_close : list event → Z → Z }.

(** ** State *)

(** The [thread_local] variables of [PerfEventsCounters]. *)
Record ThreadLocal := {
  descriptors : list Z;
  thread_events_descriptors_opened : bool;
  current_thread_counters : option addr }.

(** What all threads share: the two [std::atomic<bool>], the
    [raw_event_values] of every live [PerfEventsCounters] object, and the
    history of effects. *)
Record Shared := {
  perf_unavailability_logged : bool;
  particular_events_unavailability_logged : bool;
  raw_event_values : gmap addr (list Z);
  trace : list event }.

Inductive atomic_flag := PerfUnavailabilityLogged | ParticularEventsUnavailabilityLogged.

Definition State : Type := ThreadLocal * Shared.

Definition set_descriptors (ds : list Z) (tl : ThreadLocal) : ThreadLocal :=
  {| descriptors := ds;
     thread_events_descriptors_opened := thread_events_descriptors_opened tl;
     current_thread_counters := current_thread_counters tl |}.

Definition set_opened (b : bool) (tl : ThreadLocal) : ThreadLocal :=
  {| descriptors := descriptors tl;
     thread_events_descriptors_opened := b;
     current_thread_counters := current_thread_counters tl |}.

Definition set_current (p : option addr) (tl : ThreadLocal) : ThreadLocal :=
  {| descriptors := descriptors tl;
     thread_events_descriptors_opened := thread_events_descriptors_opened tl;
     current_thread_counters := p |}.

Definition get_flag (f : atomic_flag) (sh : Shared) : bool :=
  match f with
  | PerfUnavailabilityLogged => perf_unavailability_logged sh
  | ParticularEventsUnavailabilityLogged => particular_events_unavailability_logged sh
  end.

Definition set_flag (f : atomic_flag) (b : bool) (sh : Shared) : Shared :=
  match f with
  | PerfUnavailabilityLogged =>
      {| perf_unavailability_logged := b;
         particular_events_unavailability_logged := particular_events_unavailability_logged sh;
         raw_event_values := raw_event_values sh;
         trace := trace sh |}
  | ParticularEventsUnavailabilityLogged =>
      {| perf_unavailability_logged := perf_unavailability_logged sh;
         particular_events_unavailability_logged := b;
         raw_event_values := raw_event_values sh;
         trace := trace sh |}
  end.

Definition set_raw_event_values (m : gmap addr (list Z)) (sh : Shared) : Shared :=
  {| perf_unavailability_logged := perf_unavailability_logged sh;
     particular_events_unavailability_logged := particular_events_unavailability_logged sh;
     raw_event_values := m;
     trace := trace sh |}.

(** Effects are appended: the head of the trace is the oldest one. *)
Definition emits (new : list event) (sh : Shared) : Shared :=
  {| perf_unavailability_logged := perf_unavailability_logged sh;
     particular_events_unavailability_logged := particular_events_unavailability_logged sh;
     raw_event_values := raw_event_values sh;
     trace := trace sh ++ new |}.

Definition emit (e : event) (sh : Shared) : Shared := emits [e] sh.

(** ** Programs *)

(** One atomic step of a thread, indexed by the type of its answer. *)
Inductive action : Type → Type :=
(* thread-local storage *)
| GetOpened : action bool
| SetOpened (b : bool) : action unit
| GetCurrent : action (option addr)
| SetCurrent (p : option addr) : action unit
| GetDescriptor (i : nat) : action Z
| SetDescriptor (i : nat) (fd : Z) : action unit
(* counters.raw_event_values[i] *)
| LoadRawValue (counters : addr) (i : nat) : action Z
| StoreRawValue (counters : addr) (i : nat) (v : Z) : action unit
(* std::atomic<bool>::compare_exchange_strong; answers whether it stored *)
| CompareExchangeStrong (f : atomic_flag) (expected desired : bool) : action bool
(* libc and the kernel *)
| Fopen : action bool
| Fgets (size : nat) : action (option string)
| Fclose : action unit
| Strtol (str : string) : action Z
| Errno : action Z
| HasLinuxCapability (cap : capability) : action bool
| PerfEventOpen (attr : perf_event_attr) (pid cpu group_fd flags : Z) : action Z
| Ioctl (fd : Z) (req : ioctl_request) : action Z
| Read (fd : Z) : action (option Z)
| Close (fd : Z) : action Z
(* collaborators *)
| Log (prio : Priority) (logger : Logger) (msg : message) : action unit
| Increment (sink : addr) (ev : ProfileEvents.Event) (amount : Z) : action unit
(* undefined behaviour: an index past the end of an array, a division by zero *)
| Undefined : action Empty_set.

Inductive prog (A : Type) : Type :=
| Ret (a : A)
| Vis {R : Type} (e : action R) (k : R → prog A).
Arguments Ret {A} a.
Arguments Vis {A R} e k.

Fixpoint bind {A B} (m : prog A) (f : A → prog B) : prog B :=
  match m with
  | Ret a => f a
  | Vis e k => Vis e (λ r, bind (k r) f)
  end.

Declare Scope prog_scope.
Delimit Scope prog_scope with prog.
Bind Scope prog_scope with prog.
Notation "x ← m ; k" := (bind m (λ x, k))
  (at level 20, m at level 100, k at level 200, only parsing) : prog_scope.
Notation "' x ← m ; k" := (bind m (λ x, k))
  (at level 20, x pattern, m at level 100, k at level 200, only parsing) : prog_scope.
Notation "m ;; k" := (bind m (λ _, k))
  (at level 100, k at level 200, only parsing, right associativity) : prog_scope.
Local Open Scope prog_scope.

Definition act {R} (e : action R) : prog R := Vis e Ret.

Definition undefined {A} : prog A :=
  Vis Undefined (λ r : Empty_set, match r with end).

(** [a[i]] on a constant array. *)
Definition index {A} (a : list A) (i : nat) : prog A :=
  match a !! i with
  | Some x => Ret x
  | None => undefined
  end.

(** [for (size_t i = lo; i < lo + n; ++i) body(i);] *)
Fixpoint for_range (lo n : nat) (body : nat → prog unit) : prog unit :=
  match n with
  | O => Ret tt
  | S n' => body lo;; for_range (S lo) n' body
  end.

(** The same loop when the body may [return] a value from the function. *)
Fixpoint for_range_return {A} (lo n : nat) (body : nat → prog (option A))
  : prog (option A) :=
  match n with
  | O => Ret None
  | S n' =>
      r ← body lo;
      match r with
      | Some a => Ret (Some a)
      | None => for_range_return (S lo) n' body
      end
  end.

(** Unsigned 64-bit division. *)
Definition udiv (a b : Z) : prog Z :=
  if b =? 0 then undefined else Ret (a / b).

(** ** Sequential semantics *)

Section Semantics.
Variable os : OS.

Definition syscall {R} (r : R) (e : event) (st : State) : option (R * State) :=
  Some (r, (st.1, emit e st.2)).

Definition handle {R} (a : action R) (st : State) : option (R * State) :=
  let tl := st.1 in
  let sh := st.2 in
  let tr := trace sh in
  match a in action R return option (R * State) with
  | GetOpened => Some (thread_events_descriptors_opened tl, st)
  | SetOpened b => Some (tt, (set_opened b tl, sh))
  | GetCurrent => Some (current_thread_counters tl, st)
  | SetCurrent p => Some (tt, (set_current p tl, sh))
  | GetDescriptor i =>
      match descriptors tl !! i with
      | Some fd => Some (fd, st)
      | None => None
      end
  | SetDescriptor i fd =>
      match descriptors tl !! i with
      | Some _ => Some (tt, (set_descriptors (<[i:=fd]> (descriptors tl)) tl, sh))
      | None => None
      end
  | LoadRawValue c i =>
      match raw_event_values sh !! c with
      | Some vs =>
          match vs !! i with
          | Some v => Some (v, st)
          | None => None
          end
      | None => None
      end
  | StoreRawValue c i v =>
      match raw_event_values sh !! c with
      | Some vs =>
          match vs !! i with
          | Some _ =>
              Some (tt, (tl, set_raw_event_values
                               (<[c:=<[i:=v]> vs]> (raw_event_values sh)) sh))
          | None => None
          end
      | None => None
      end
  | CompareExchangeStrong f expected desired =>
      if bool_decide (get_flag f sh = expected)
      then Some (true, (tl, set_flag f desired sh))
      else Some (false, st)
  | Fopen => let r := os_fopen os tr in syscall r (EvFopen r) st
  | Fgets size =>
      let r := os_fgets os tr size in syscall r (EvFgets size r) st
  | Fclose => syscall tt EvFclose st
  | Strtol str =>
      let r := to_Int64 (os_strtol os tr str) in syscall r (EvStrtol str r) st
  | Errno => Some (to_int (os_errno os tr), st)
  | HasLinuxCapability cap =>
      let r := os_hasLinuxCapability os tr cap in
      syscall r (EvHasLinuxCapability cap r) st
  | PerfEventOpen attr pid cpu group_fd flags =>
      let r := to_int (os_perf_event_open os tr attr pid cpu group_fd flags) in
      syscall r (EvPerfEventOpen attr pid cpu group_fd flags r) st
  | Ioctl fd req =>
      let r := to_int (os_ioctl os tr fd req) in syscall r (EvIoctl fd req r) st
  | Read fd =>
      let r := to_UInt64 <$> os_read os tr fd in
      syscall r (EvRead fd r) st
  | Close fd => let r := to_int (os_close os tr fd) in syscall r (EvClose fd r) st
  | Log prio logger msg => syscall tt (EvLog prio logger msg) st
  | Increment sink ev amount => syscall tt (EvIncrement sink ev amount) st
  | Undefined => None
  end.

(** [None] is undefined behaviour. *)
Fixpoint run {A} (m : prog A) (st : State) : option (A * State) :=
  match m with
  | Ret a => Some (a, st)
  | Vis e k =>
      match handle e st with
      | Some (r, st') => run (k r) st'
      | None => None
      end
  end.
End Semantics.

(** ** The translation unit *)

Section PerfEventsCounters.
(** The functions are written over an arbitrary catalog; the process runs
    them on [raw_events_info], whose size is [NUMBER_OF_RAW_EVENTS] by the
    [static_assert] of the source. *)
Variable catalog : list PerfEventInfo.

Definition NUMBER_OF_RAW_EVENTS : nat := length catalog.

(** [PerfEventsCounters::getLogger] and [PerfDescriptorsHolder::getLogger]. *)
Definition PerfEventsCounters_getLogger : Logger := LoggerPerfEventsCounters.
Definition PerfDescriptorsHolder_getLogger : Logger := LoggerPerfDescriptorsHolder.

Definition LOG_WARNING (logger : Logger) (msg : message) : prog unit :=
  act (Log PRIO_WARNING logger msg).
Definition LOG_INFO (logger : Logger) (msg : message) : prog unit :=
  act (Log PRIO_INFORMATION logger msg).

Definition getRawValue (counters : addr) (event_type' event_config' : Z) : prog Z :=
  found ← for_range_return 0 NUMBER_OF_RAW_EVENTS (λ i,
    event_info ← index catalog i;
    if (event_type event_info =? event_type') && (event_config event_info =? event_config')
    then v ← act (LoadRawValue counters i); Ret (Some v)
    else Ret None);
  match found with
  | Some v => Ret v
  | None =>
      LOG_WARNING PerfEventsCounters_getLogger
        (MsgCantFindPerfEventInfo event_type' event_config');;
      Ret 0
  end.

Definition openPerfEvent (hw_event : perf_event_attr) (pid cpu group_fd flags : Z)
  : prog Z :=
  act (PerfEventOpen hw_event pid cpu group_fd flags).

(** Returns [(true, value)] when it stores [value] into [result], and
    [(false, result)] otherwise. *)
Definition getPerfEventParanoid (result : Z) : prog (bool * Z) :=
  let max_length := 3%nat in
  fp ← act Fopen;
  if negb fp then Ret (false, result) else
  res ← act (Fgets max_length);
  act Fclose;;
  match res with
  | None => Ret (false, result)
  | Some str =>
      let str := substring 0 (max_length - 1) str in
      value ← act (Strtol str);
      errno ← (if value =? 0 then act Errno else Ret 0);
      if (value =? 0) && negb (errno =? 0) then Ret (false, result)
      else Ret (true, to_Int32 value)
  end.

(** Returns the value it leaves in [event_file_descriptor]. *)
Definition perfEventOpenDisabled (perf_event_paranoid : Z) (has_cap_sys_admin : bool)
    (perf_event_type perf_event_config : Z) : prog Z :=
  let pe :=
    {| pe_type := perf_event_type;
       pe_config := perf_event_config;
       pe_disabled := true;
       pe_exclude_kernel := (2 <=? perf_event_paranoid) && negb has_cap_sys_admin |} in
  openPerfEvent pe 0 (-1) (-1) 0.

Definition initializeThreadLocalEvents (counters : addr) : prog bool :=
  opened ← act GetOpened;
  if opened then Ret true else
  '(is_pref_available, perf_event_paranoid) ← getPerfEventParanoid 0;
  if negb is_pref_available then
    stored ← act (CompareExchangeStrong PerfUnavailabilityLogged false true);
    (if stored then LOG_INFO PerfEventsCounters_getLogger MsgPerfEventsUnsupported
     else Ret tt);;
    Ret false
  else
  has_cap_sys_admin ← act (HasLinuxCapability CAP_SYS_ADMIN);
  if (3 <=? perf_event_paranoid) && negb has_cap_sys_admin then
    stored ← act (CompareExchangeStrong PerfUnavailabilityLogged false true);
    (if stored then LOG_INFO PerfEventsCounters_getLogger MsgNotEnoughPermissions
     else Ret tt);;
    Ret false
  else
  log_unsupported_event ←
    act (CompareExchangeStrong ParticularEventsUnavailabilityLogged false true);
  for_range 0 NUMBER_OF_RAW_EVENTS (λ i,
    act (StoreRawValue counters i 0);;
    event_info ← index catalog i;
    fd ← perfEventOpenDisabled perf_event_paranoid has_cap_sys_admin
           (event_type event_info) (event_config event_info);
    act (SetDescriptor i fd);;
    if (fd =? -1) && log_unsupported_event
    then LOG_INFO PerfEventsCounters_getLogger
           (MsgPerfEventUnsupported (event_type event_info) (event_config event_info))
    else Ret tt);;
  act (SetOpened true);;
  Ret true.

Definition initializeProfileEvents (counters : addr) : prog unit :=
  current ← act GetCurrent;
  if bool_decide (current = Some counters) then Ret tt else
  if bool_decide (current ≠ None) then
    LOG_WARNING PerfEventsCounters_getLogger MsgOnlyOneInstance
  else
  ok ← initializeThreadLocalEvents counters;
  if negb ok then Ret tt else
  for_range 0 NUMBER_OF_RAW_EVENTS (λ i, act (StoreRawValue counters i 0));;
  for_range 0 NUMBER_OF_RAW_EVENTS (λ i,
    fd ← act (GetDescriptor i);
    if negb (fd =? -1) then act (Ioctl fd PERF_EVENT_IOC_ENABLE);; Ret tt
    else Ret tt);;
  act (SetCurrent (Some counters)).

Definition finalizeProfileEvents (counters : addr) (profile_events : addr)
  : prog unit :=
  current ← act GetCurrent;
  if bool_decide (current ≠ Some counters) then Ret tt else
  opened ← act GetOpened;
  if negb opened then Ret tt else
  (* only read counters here *)
  for_range 0 NUMBER_OF_RAW_EVENTS (λ i,
    fd ← act (GetDescriptor i);
    if fd =? -1 then Ret tt else
    res ← act (Read fd);
    match res with
    | Some v => act (StoreRawValue counters i v)
    | None =>
        LOG_WARNING PerfEventsCounters_getLogger (MsgCantReadEventValue fd);;
        act (StoreRawValue counters i 0)
    end);;
  (* process counters' values and stop measuring *)
  for_range 0 NUMBER_OF_RAW_EVENTS (λ i,
    fd ← act (GetDescriptor i);
    if fd =? -1 then Ret tt else
    event_info ← index catalog i;
    v ← act (LoadRawValue counters i);
    act (Increment profile_events (profile_event event_info) v);;
    r ← act (Ioctl fd PERF_EVENT_IOC_DISABLE);
    (if negb (r =? 0)
     then LOG_WARNING PerfEventsCounters_getLogger (MsgCantDisable fd) else Ret tt);;
    r ← act (Ioctl fd PERF_EVENT_IOC_RESET);
    (if negb (r =? 0)
     then LOG_WARNING PerfEventsCounters_getLogger (MsgCantReset fd) else Ret tt));;
  (* custom events which depend on the raw ones *)
  hw_cpu_cycles ← getRawValue counters PERF_TYPE_HARDWARE PERF_COUNT_HW_CPU_CYCLES;
  hw_ref_cpu_cycles ← getRawValue counters PERF_TYPE_HARDWARE PERF_COUNT_HW_REF_CPU_CYCLES;
  instructions_per_cpu_scaled ←
    (if negb (hw_cpu_cycles =? 0)
     then n ← getRawValue counters PERF_TYPE_HARDWARE PERF_COUNT_HW_INSTRUCTIONS;
          udiv n hw_cpu_cycles
     else Ret 0 : prog Z);
  instructions_per_cpu ←
    (if negb (hw_ref_cpu_cycles =? 0)
     then n ← getRawValue counters PERF_TYPE_HARDWARE PERF_COUNT_HW_INSTRUCTIONS;
          udiv n hw_ref_cpu_cycles
     else Ret 0 : prog Z);
  act (Increment profile_events
         ProfileEvents.PERF_CUSTOM_INSTRUCTIONS_PER_CPU_CYCLE_SCALED
         instructions_per_cpu_scaled);;
  act (Increment profile_events
         ProfileEvents.PERF_CUSTOM_INSTRUCTIONS_PER_CPU_CYCLE
         instructions_per_cpu);;
  act (SetCurrent None).

(** [PerfDescriptorsHolder::PerfDescriptorsHolder()]: what the thread-local
    holder contains when the thread starts. *)
Definition PerfDescriptorsHolder_new : list Z :=
  replicate NUMBER_OF_RAW_EVENTS (-1).

(** [PerfDescriptorsHolder::~PerfDescriptorsHolder()], run at thread exit. *)
Definition PerfDescriptorsHolder_delete : prog unit :=
  for_range 0 NUMBER_OF_RAW_EVENTS (λ i,
    descriptor ← act (GetDescriptor i);
    if descriptor =? -1 then Ret tt else
    r ← act (Ioctl descriptor PERF_EVENT_IOC_DISABLE);
    (if negb (r =? 0)
     then LOG_WARNING PerfDescriptorsHolder_getLogger (MsgCantDisable descriptor)
     else Ret tt);;
    r ← act (Close descriptor);
    (if negb (r =? 0)
     then errno ← act Errno;
          LOG_WARNING PerfDescriptorsHolder_getLogger (MsgCantClose descriptor errno)
     else Ret tt);;
    act (SetDescriptor i (-1))).

(** The thread-local variables of a thread that has just started. *)
Definition thread_start : ThreadLocal :=
  {| descriptors := PerfDescriptorsHolder_new;
     thread_events_descriptors_opened := false;
     current_thread_counters := None |}.
End PerfEventsCounters.

(** The shared state of a process that has just started, with the given
    [PerfEventsCounters] objects alive. *)
Definition process_start (objects : gmap addr (list Z)) : Shared :=
  {| perf_unavailability_logged := false;
     particular_events_unavailability_logged := false;
     raw_event_values := objects;
     trace := [] |}.

(** ** A synthetic environment

    The level file holds the line [level] ([None]: it cannot be opened), the
    process has [CAP_SYS_ADMIN] or not, the k-th [perf_event_open] of the
    process returns the k-th element of [fds] ([-1] past the end), a read of
    handle [fd] yields [counts fd], and every [ioctl] and [close] succeeds. *)

Definition is_open (e : event) : bool :=
  match e with EvPerfEventOpen _ _ _ _ _ _ => true | _ => false end.

(** The end of a line. *)
Definition LF : string := String "010"%char EmptyString.

(** The value of the decimal digits a string starts with. *)
Fixpoint digits (s : string) (acc : Z) : Z :=
  match s with
  | String c s' =>
      let n := Z.of_nat (nat_of_ascii c) in
      if (48 <=? n) && (n <=? 57) then digits s' (10 * acc + (n - 48)) else acc
  | EmptyString => acc
  end.

(** [strtol(s, nullptr, 10)] on an optional minus sign followed by digits. *)
Definition strtol10 (s : string) : Z :=
  match s with
  | String "-"%char s' => - digits s' 0
  | _ => digits s 0
  end.

Definition synthetic_os (level : option string) (cap : bool) (fds : list Z)
    (counts : Z → option Z) : OS :=
  {| os_fopen := λ _, match level with Some _ => true | None => false end;
     os_fgets := λ _ size, (λ line, substring 0 (size - 1) line) <$> level;
     os_strtol := λ _ s, strtol10 s;
     os_errno := λ _, 0;
     os_hasLinuxCapability := λ _ _, cap;
     os_perf_event_open := λ tr _ _ _ _ _, nth (length (filter is_open tr)) fds (-1);
     os_ioctl := λ _ _ _, 0;
     os_read := λ _ fd, counts fd;
     os_close := λ _ _, 0 |}.

(** ** What a trace shows *)

(** The attributes of the handles the process asked for, oldest first. *)
Definition opened_attrs (tr : list event) : list perf_event_attr :=
  omap (λ e, match e with EvPerfEventOpen a _ _ _ _ _ => Some a | _ => None end) tr.

(** The descriptors passed to [close]. *)
Definition closed_fds (tr : list event) : list Z :=
  omap (λ e, match e with EvClose fd _ => Some fd | _ => None end) tr.

(** The [ioctl] calls. *)
Definition ioctls (tr : list event) : list (Z * ioctl_request) :=
  omap (λ e, match e with EvIoctl fd req _ => Some (fd, req) | _ => None end) tr.

(** The increments a sink received. *)
Definition increments (sink : addr) (tr : list event)
  : list (ProfileEvents.Event * Z) :=
  omap (λ e, match e with
             | EvIncrement s ev v => if bool_decide (s = sink) then Some (ev, v) else None
             | _ => None
             end) tr.

(** The log lines. *)
Definition log_lines (tr : list event) : list (Priority * Logger * message) :=
  omap (λ e, match e with EvLog p l m => Some (p, l, m) | _ => None end) tr.

(** The calls whose failure the file checks for, and the warnings about
    them. *)
Inductive failure :=
| DisableFailed (fd : Z)
| ResetFailed (fd : Z)
| CloseFailed (fd : Z)
| ReadFailed (fd : Z).

Definition failed_calls (tr : list event) : list failure :=
  omap (λ e, match e with
             | EvIoctl fd PERF_EVENT_IOC_DISABLE r =>
                 if r =? 0 then None else Some (DisableFailed fd)
             | EvIoctl fd PERF_EVENT_IOC_RESET r =>
                 if r =? 0 then None else Some (ResetFailed fd)
             | EvClose fd r => if r =? 0 then None else Some (CloseFailed fd)
             | EvRead fd None => Some (ReadFailed fd)
             | _ => None
             end) tr.

Definition warned_failures (tr : list event) : list failure :=
  omap (λ e, match e with
             | EvLog PRIO_WARNING _ (MsgCantDisable fd) => Some (DisableFailed fd)
             | EvLog PRIO_WARNING _ (MsgCantReset fd) => Some (ResetFailed fd)
             | EvLog PRIO_WARNING _ (MsgCantClose fd _) => Some (CloseFailed fd)
             | EvLog PRIO_WARNING _ (MsgCantReadEventValue fd) => Some (ReadFailed fd)
             | _ => None
             end) tr.

(** The lines that say collection is unavailable to the process. *)
Definition is_unavailability_line (e : event) : bool :=
  match e with
  | EvLog _ _ MsgPerfEventsUnsupported | EvLog _ _ MsgNotEnoughPermissions => true
  | _ => false
  end.

Definition unavailability_lines (tr : list event) : nat :=
  length (filter is_unavailability_line tr).

(** ** Total correctness *)

(** The program runs without undefined behaviour and ends in a state and
    with a value that satisfy [Q]. *)
Definition wp (os : OS) {A} (m : prog A) (Q : A → State → Prop) (st : State) : Prop :=
  match run os m st with
  | Some (a, st') => Q a st'
  | None => False
  end.

(** ** Well-formed states *)

Definition is_UInt64 (v : Z) : Prop := 0 ≤ v < 2 ^ 64.

(** What the C++ types guarantee: the holder has one descriptor per catalog
    entry, and every [PerfEventsCounters] object has one [UInt64] per entry. *)
Definition valid (catalog : list PerfEventInfo) (st : State) : Prop :=
  length (descriptors st.1) = NUMBER_OF_RAW_EVENTS catalog ∧
  ∀ c vs, raw_event_values st.2 !! c = Some vs →
          length vs = NUMBER_OF_RAW_EVENTS catalog ∧ Forall is_UInt64 vs.

(** [c] is the address of a live [PerfEventsCounters] object. *)
Definition live (c : addr) (st : State) : Prop :=
  is_Some (raw_event_values st.2 !! c).

(** The thread is measuring a region only if it has opened its handles. *)
Definition active_implies_opened (st : State) : Prop :=
  current_thread_counters st.1 ≠ None →
  thread_events_descriptors_opened st.1 = true.

(** ** Concrete inputs used below *)

(** A kernel that has no level file. *)
Definition os_without_perf : OS := synthetic_os None false [] (λ _, None).

Definition zeros : list Z := replicate (NUMBER_OF_RAW_EVENTS raw_events_info) 0.

(** A thread that has just started, in a process with two counters objects
    at addresses 7 and 8. *)
Definition fresh : State :=
  (thread_start raw_events_info, process_start {[ 7%nat := zeros; 8%nat := zeros ]}).

(** ** Pure descriptions of what the loops compute *)

(** The value [getRawValue] answers: the one stored at the first catalog
    index that matches, [0] when no entry matches. *)
Definition find_raw_value (catalog : list PerfEventInfo) (vs : list Z)
    (ty cfg : Z) : Z :=
  match list_find (λ info, event_type info = ty ∧ event_config info = cfg) catalog with
  | Some (i, _) => default 0 (vs !! i)
  | None => 0
  end.

(** One increment per catalog entry whose descriptor is valid, in catalog
    order. *)
Definition reported (catalog : list PerfEventInfo) (ds vs : list Z)
  : list (ProfileEvents.Event * Z) :=
  omap (λ x, if x.2.1 =? -1 then None else Some (profile_event x.1, x.2.2))
       (zip catalog (zip ds vs)).

(** The attribute block [perfEventOpenDisabled] builds for a catalog entry. *)
Definition attr_of (perf_event_paranoid : Z) (has_cap_sys_admin : bool)
    (info : PerfEventInfo) : perf_event_attr :=
  {| pe_type := event_type info;
     pe_config := event_config info;
     pe_disabled := true;
     pe_exclude_kernel := (2 <=? perf_event_paranoid) && negb has_cap_sys_admin |}.

(** The two derived metrics of a set of raw values. *)
Definition ratio (n d : Z) : Z := if d =? 0 then 0 else n / d.

Definition derived (catalog : list PerfEventInfo) (vs : list Z)
  : list (ProfileEvents.Event * Z) :=
  let raw := find_raw_value catalog vs PERF_TYPE_HARDWARE in
  [ (ProfileEvents.PERF_CUSTOM_INSTRUCTIONS_PER_CPU_CYCLE_SCALED,
     ratio (raw PERF_COUNT_HW_INSTRUCTIONS) (raw PERF_COUNT_HW_CPU_CYCLES));
    (ProfileEvents.PERF_CUSTOM_INSTRUCTIONS_PER_CPU_CYCLE,
     ratio (raw PERF_COUNT_HW_INSTRUCTIONS) (raw PERF_COUNT_HW_REF_CPU_CYCLES)) ].


(** ** Interleaving semantics

    A thread is its thread-local variables and what is left of the function
    it is running.  One step of the process runs the next action of one
    thread on the shared state; a schedule is the sequence of the threads
    that step. *)

Record thread (A : Type) := Thread {
  locals : ThreadLocal;
  code : prog A }.
Arguments Thread {A} locals code.
Arguments locals {A} t.
Arguments code {A} t.

Definition machine (A : Type) : Type := list (thread A) * Shared.

Definition finished {A} (t : thread A) : Prop :=
  match code t with Ret _ => True | Vis _ _ => False end.

Section Interleaving.
Variable os : OS.

(** [None]: the thread has returned, or its next action is undefined. *)
Definition step_thread {A} (t : thread A) (sh : Shared) : option (thread A * Shared) :=
  match code t with
  | Ret _ => None
  | Vis e k =>
      match handle os e (locals t, sh) with
      | Some (r, st') => Some (Thread st'.1 (k r), st'.2)
      | None => None
      end
  end.

Fixpoint sched {A} (schedule : list nat) (m : machine A) : option (machine A) :=
  match schedule with
  | [] => Some m
  | t :: schedule' =>
      match m.1 !! t with
      | Some th =>
          match step_thread th m.2 with
          | Some (th', sh') => sched schedule' (<[t:=th']> m.1, sh')
          | None => None
          end
      | None => None
      end
  end.
End Interleaving.

(** Threads that have just started and call [initializeProfileEvents], each
    on its own counters object. *)
Definition first_use (catalog : list PerfEventInfo) (cs : list addr)
  : list (thread unit) :=
  (λ c, Thread (thread_start catalog) (initializeProfileEvents catalog c)) <$> cs.

(** Collection is unavailable to the process, whenever a thread asks: the
    level file cannot be opened, or it holds a level of the strictest tier
    and the process has no [CAP_SYS_ADMIN]. *)
Definition collection_unavailable (os : OS) : Prop :=
  (∀ tr, os_fopen os tr = false) ∨
  (∀ tr, os_fopen os tr = true) ∧
  (∀ tr size, ∃ str, os_fgets os tr size = Some str) ∧
  (∀ tr str, 3 ≤ os_strtol os tr str < 2 ^ 31) ∧
  (∀ tr, os_hasLinuxCapability os tr CAP_SYS_ADMIN = false).

(** *** Where a thread stands with respect to the log-once flag *)

(** The actions that log the line the flag guards, those that access the
    flag [perf_unavailability_logged], and both. *)
Definition is_line {R} (e : action R) : bool :=
  match e with
  | Log _ _ MsgPerfEventsUnsupported | Log _ _ MsgNotEnoughPermissions => true
  | _ => false
  end.

Definition on_flag {R} (e : action R) : bool :=
  match e with
  | CompareExchangeStrong PerfUnavailabilityLogged _ _ => true
  | _ => false
  end.

Definition touches {R} (e : action R) : bool := is_line e || on_flag e.

(** The attempt on the flag. *)
Definition is_try {R} (e : action R) : bool :=
  match e with
  | CompareExchangeStrong PerfUnavailabilityLogged false true => true
  | _ => false
  end.

(** What the thread runs after the attempt, when it stored and when not. *)
Definition try_branches {A R} (e : action R) : (R → prog A) → option (prog A * prog A) :=
  match e in action R return (R → prog A) → option (prog A * prog A) with
  | CompareExchangeStrong PerfUnavailabilityLogged false true =>
      λ k, Some (k true, k false)
  | _ => λ _, None
  end.

(** The rest of the function neither tries the flag nor logs the line. *)
Fixpoint quiet {A} (p : prog A) : Prop :=
  match p with
  | Ret _ => True
  | Vis e k => touches e = false ∧ ∀ r, quiet (k r)
  end.

(** The thread has won the flag and its line is still to be logged: the
    next action that concerns the flag is that line, and nothing after. *)
Fixpoint owes {A} (p : prog A) : Prop :=
  match p with
  | Ret _ => False
  | Vis e k =>
      if is_line e then ∀ r, quiet (k r)
      else on_flag e = false ∧ ∀ r, owes (k r)
  end.

(** The rest of the function logs the line only after winning the flag. *)
Fixpoint guarded {A} (p : prog A) : Prop :=
  match p with
  | Ret _ => True
  | Vis e k =>
      match try_branches e k with
      | Some (stored, lost) => owes stored ∧ quiet lost
      | None => touches e = false ∧ ∀ r, guarded (k r)
      end
  end.

(** Whatever the other threads do, a thread with these thread-local
    variables and this code left will try the flag before it returns. *)
Fixpoint must_try (os : OS) {A} (p : prog A) (tl : ThreadLocal) : Prop :=
  match p with
  | Ret _ => False
  | Vis e k =>
      is_try e = true ∨
      (touches e = false ∧
       ∀ sh r st', handle os e (tl, sh) = Some (r, st') → must_try os (k r) st'.1)
  end.

(** The process as a whole: the flag is clear and nothing was logged; or
    one thread has won the flag and is about to log; or the line is logged. *)
Definition log_once_state {A} (m : machine A) : Prop :=
  (perf_unavailability_logged m.2 = false ∧ unavailability_lines (trace m.2) = 0%nat ∧
   Forall (λ t, guarded (code t)) m.1) ∨
  (perf_unavailability_logged m.2 = true ∧ unavailability_lines (trace m.2) = 0%nat ∧
   ∃ i t, m.1 !! i = Some t ∧ owes (code t) ∧
          ∀ j t', j ≠ i → m.1 !! j = Some t' → guarded (code t')) ∨
  (perf_unavailability_logged m.2 = true ∧ unavailability_lines (trace m.2) = 1%nat ∧
   Forall (λ t, guarded (code t)) m.1).

(** ** Properties that are stated about single calls *)

(** [finalizeProfileEvents] sends something to the sink. *)
Definition reports (os : OS) (catalog : list PerfEventInfo) (st : State)
    (counters sink : addr) : Prop :=
  ∃ st', run os (finalizeProfileEvents catalog counters sink) st = Some (tt, st') ∧
         increments sink (trace st'.2) ≠ increments sink (trace st.2).

(** After a call of [initializeThreadLocalEvents], whatever it returned, a
    second call returns at once: it leaves the state, and so the trace, as
    they are. *)
Definition attempted_once (os : OS) (catalog : list PerfEventInfo) (st : State)
    (counters : addr) : Prop :=
  ∀ r st1, run os (initializeThreadLocalEvents catalog counters) st = Some (r, st1) →
  ∀ counters', ∃ r', run os (initializeThreadLocalEvents catalog counters') st1
                     = Some (r', st1).

(** A region that measures nothing: [initializeProfileEvents] immediately
    followed by [finalizeProfileEvents]. *)
Definition noop_region (catalog : list PerfEventInfo) (counters sink : addr)
  : prog unit :=
  initializeProfileEvents catalog counters;;
  finalizeProfileEvents catalog counters sink.

(** ** More concrete inputs *)

(** A catalog with the first two entries of [raw_events_info] only. *)
Definition cycles_and_instructions : list PerfEventInfo :=
  [ hardwareEvent PERF_COUNT_HW_CPU_CYCLES ProfileEvents.PERF_COUNT_HW_CPU_CYCLES;
    hardwareEvent PERF_COUNT_HW_INSTRUCTIONS ProfileEvents.PERF_COUNT_HW_INSTRUCTIONS ].

(** Handles 10 and 11, which hold 1000 and 500. *)
Definition seeded_counts (fd : Z) : option Z :=
  if fd =? 10 then Some 1000 else if fd =? 11 then Some 500 else Some 0.

(** A kernel at level 1 that opens handles 10 and 11 and no other. *)
Definition os_seeded : OS :=
  synthetic_os (Some ("1" ++ LF)%string) false [10; 11] seeded_counts.

(** A thread that has just started, for the two-entry catalog. *)
Definition fresh2 : State :=
  (thread_start cycles_and_instructions, process_start {[ 7%nat := [0; 0] ]}).

(** A kernel at level 3 and a process without [CAP_SYS_ADMIN]. *)
Definition os_refusing : OS := synthetic_os (Some ("3" ++ LF)%string) false [] (λ _, None).

(** A kernel at level 2 that opens handles 10, 11, 12, ... *)
Definition os_level2 : OS :=
  synthetic_os (Some ("2" ++ LF)%string) false (Z.of_nat <$> seq 10 18) seeded_counts.

(** A thread that is measuring a region for the object at address 7, with
    handles 10 and 11 open for the first two catalog entries. *)
Definition measuring : State :=
  ({| descriptors := [10; 11] ++ replicate 16 (-1);
      thread_events_descriptors_opened := true;
      current_thread_counters := Some 7%nat |},
   process_start {[ 7%nat := zeros; 8%nat := zeros ]}).

(** The increments of the two-entry scenario, without the second ratio. *)
Definition three_increments : list (ProfileEvents.Event * Z) :=
  [ (ProfileEvents.PERF_COUNT_HW_CPU_CYCLES, 1000);
    (ProfileEvents.PERF_COUNT_HW_INSTRUCTIONS, 500);
    (ProfileEvents.PERF_CUSTOM_INSTRUCTIONS_PER_CPU_CYCLE_SCALED, 0) ].

(** A kernel on which [ioctl] and [close] fail on handle 11. *)
Definition os_failing_close : OS :=
  {| os_fopen := λ _, true;
     os_fgets := λ _ _, Some ("1" ++ LF)%string;
     os_strtol := λ _ s, strtol10 s;
     os_errno := λ _, 9;
     os_hasLinuxCapability := λ _ _, false;
     os_perf_event_open := λ _ _ _ _ _ _, -1;
     os_ioctl := λ _ fd _, if fd =? 11 then -1 else 0;
     os_read := λ _ _, None;
     os_close := λ _ fd, if fd =? 11 then -1 else 0 |}.

(** Three threads that have just started, each with its own counters
    object, in a process that has just started. *)
Definition three_threads : machine unit :=
  (first_use raw_events_info [7%nat; 8%nat; 9%nat],
   process_start {[ 7%nat := zeros; 8%nat := zeros; 9%nat := zeros ]}).

(** The three threads take turns up to the attempt on the flag, which the
    third wins. *)
Definition racing_schedule : list nat :=
  [0; 1; 2; 0; 1; 2; 0; 1; 2; 2; 0; 1; 2]%nat.

(** What every operation establishes again from a well-formed state in
    which the invariant holds: the state is well formed, the invariant
    holds, and every counters object is still there. *)
Definition invariant_kept (catalog : list PerfEventInfo) (st st' : State) : Prop :=
  valid catalog st' ∧ active_implies_opened st' ∧
  ∀ c, live c st → live c st'.

(** ** Auxiliary descriptions used by the specifications *)

Local Open Scope prog_scope.

(** The line [getRawValue] logs, if any. *)
Definition missing_line (catalog : list PerfEventInfo) (ty cfg : Z) : list event :=
  match list_find (λ info, event_type info = ty ∧ event_config info = cfg) catalog with
  | Some _ => []
  | None => [EvLog PRIO_WARNING LoggerPerfEventsCounters (MsgCantFindPerfEventInfo ty cfg)]
  end.

(** What the read loop of [finalizeProfileEvents] leaves at an index whose
    descriptor is [fd]: the old value when the handle is unavailable, else
    what some [read] of [fd] returned, [0] when it failed. *)
Definition read_result (os : OS) (fd old new : Z) : Prop :=
  if decide (fd = -1) then new = old
  else ∃ tr, new = default 0 (to_UInt64 <$> os_read os tr fd).

(** What [initializeThreadLocalEvents] does once it knows whether the level
    could be read and what it is. *)
Definition after_probe (catalog : list PerfEventInfo) (counters : addr)
    (is_pref_available : bool) (perf_event_paranoid : Z) : prog bool :=
  if negb is_pref_available then
    stored ← act (CompareExchangeStrong PerfUnavailabilityLogged false true);
    (if stored then LOG_INFO PerfEventsCounters_getLogger MsgPerfEventsUnsupported
     else Ret tt);;
    Ret false
  else
  has_cap_sys_admin ← act (HasLinuxCapability CAP_SYS_ADMIN);
  if (3 <=? perf_event_paranoid) && negb has_cap_sys_admin then
    stored ← act (CompareExchangeStrong PerfUnavailabilityLogged false true);
    (if stored then LOG_INFO PerfEventsCounters_getLogger MsgNotEnoughPermissions
     else Ret tt);;
    Ret false
  else
  log_unsupported_event ←
    act (CompareExchangeStrong ParticularEventsUnavailabilityLogged false true);
  for_range 0 (NUMBER_OF_RAW_EVENTS catalog) (λ i,
    act (StoreRawValue counters i 0);;
    event_info ← index catalog i;
    fd ← perfEventOpenDisabled perf_event_paranoid has_cap_sys_admin
           (event_type event_info) (event_config event_info);
    act (SetDescriptor i fd);;
    if (fd =? -1) && log_unsupported_event
    then LOG_INFO PerfEventsCounters_getLogger
           (MsgPerfEventUnsupported (event_type event_info) (event_config event_info))
    else Ret tt);;
  act (SetOpened true);;
  Ret true.

(** A descriptor that holds an open handle. *)
Definition is_valid_fd (fd : Z) : Prop := fd ≠ -1.

(** Either the flag is set, or every thread is still to try it. *)
Definition tried_or_will (os : OS) {A} (m : machine A) : Prop :=
  perf_unavailability_logged m.2 = true ∨
  Forall (λ t, must_try os (code t) (locals t)) m.1.

(** The action never clears a flag. *)
Definition only_sets {R} (e : action R) : bool :=
  match e with
  | CompareExchangeStrong _ _ desired => desired
  | _ => true
  end.

(** No action of the rest of the function clears a flag. *)
Fixpoint sets_only {A} (p : prog A) : Prop :=
  match p with
  | Ret _ => True
  | Vis e k => only_sets e = true ∧ ∀ r, sets_only (k r)
  end.

(** ** More on the catalog *)

(** The type and the configuration of every catalog entry. *)
Definition keys (catalog : list PerfEventInfo) : list (Z * Z) :=
  (λ info, (event_type info, event_config info)) <$> catalog.

(** Metric identifiers can be compared. *)
#[global] Instance Event_eq_dec : EqDecision ProfileEvents.Event.
Proof. solve_decision. Defined.

(** ** More of what a trace shows *)

(** The descriptors [perf_event_open] returned, oldest first. *)
Definition opened_fds (tr : list event) : list Z :=
  omap (λ e, match e with EvPerfEventOpen _ _ _ _ _ fd => Some fd | _ => None end) tr.

(** Whom each handle was asked for: the process, the cpu, the group and
    the flags passed to [perf_event_open]. *)
Definition open_targets (tr : list event) : list (Z * Z * Z * Z) :=
  omap (λ e, match e with
             | EvPerfEventOpen _ pid cpu group_fd flags _ => Some (pid, cpu, group_fd, flags)
             | _ => None
             end) tr.

(** The type and the configuration of the handles the kernel refused. *)
Definition failed_opens (tr : list event) : list (Z * Z) :=
  omap (λ e, match e with
             | EvPerfEventOpen a _ _ _ _ fd =>
                 if fd =? -1 then Some (pe_type a, pe_config a) else None
             | _ => None
             end) tr.

(** The events the log says are unsupported. *)
Definition unsupported_events (tr : list event) : list (Z * Z) :=
  omap (λ e, match e with
             | EvLog _ _ (MsgPerfEventUnsupported ty cfg) => Some (ty, cfg)
             | _ => None
             end) tr.

(** The descriptors that were read, each with the value the caller keeps:
    what the kernel returned, [0] when the read failed. *)
Definition read_values (tr : list event) : list (Z * Z) :=
  omap (λ e, match e with EvRead fd r => Some (fd, default 0 r) | _ => None end) tr.

(** The slots of the holder that hold a handle, each with the value stored
    for it in a counters object. *)
Definition valid_slots (ds vs : list Z) : list (Z * Z) :=
  omap (λ x : Z * Z, if x.1 =? -1 then None else Some x) (zip ds vs).

(** The system calls on a handle, oldest first: one projection of the
    trace, so that it tells in which order calls of different kinds were
    made. *)
Inductive handle_call :=
| OpenCall (ty cfg : Z)
| ReadCall (fd : Z)
| IoctlCall (fd : Z) (req : ioctl_request)
| CloseCall (fd : Z).

Definition handle_calls (tr : list event) : list handle_call :=
  omap (λ e, match e with
             | EvPerfEventOpen a _ _ _ _ _ => Some (OpenCall (pe_type a) (pe_config a))
             | EvRead fd _ => Some (ReadCall fd)
             | EvIoctl fd req _ => Some (IoctlCall fd req)
             | EvClose fd _ => Some (CloseCall fd)
             | _ => None
             end) tr.

(** The two calls that stop the handle [fd]. *)
Definition stop_calls (fd : Z) : list handle_call :=
  [IoctlCall fd PERF_EVENT_IOC_DISABLE; IoctlCall fd PERF_EVENT_IOC_RESET].

(** ** Actions a piece of code never performs *)

(** No action of the program satisfies [P]. *)
Fixpoint never (P : ∀ R, action R → bool) {A} (p : prog A) : Prop :=
  match p with
  | Ret _ => True
  | Vis e k => P _ e = false ∧ ∀ r, never P (k r)
  end.

(** The system calls on a handle. *)
Definition uses_handle {R} (e : action R) : bool :=
  match e with
  | PerfEventOpen _ _ _ _ _ | Ioctl _ _ | Read _ | Close _ => true
  | _ => false
  end.

(** The warnings about a call on a handle that failed. *)
Definition warns_of_failure {R} (e : action R) : bool :=
  match e with
  | Log _ _ (MsgCantReadEventValue _) | Log _ _ (MsgCantDisable _)
  | Log _ _ (MsgCantReset _) | Log _ _ (MsgCantClose _ _) => true
  | _ => false
  end.

(** What stopping the handle [fd] asks of the kernel. *)
Definition stop_requests (fd : Z) : list (Z * ioctl_request) :=
  [(fd, PERF_EVENT_IOC_DISABLE); (fd, PERF_EVENT_IOC_RESET)].

(** ** The life of a thread *)

(** A call of the public interface. *)
Inductive call :=
| Initialize (counters : addr)
| Finalize (counters profile_events : addr).

Definition counters_of (x : call) : addr :=
  match x with Initialize c | Finalize c _ => c end.

Definition perform (catalog : list PerfEventInfo) (x : call) : prog unit :=
  match x with
  | Initialize c => initializeProfileEvents catalog c
  | Finalize c profile_events => finalizeProfileEvents catalog c profile_events
  end.

(** The calls a thread makes, one after the other. *)
Fixpoint perform_all (catalog : list PerfEventInfo) (xs : list call) : prog unit :=
  match xs with
  | [] => Ret tt
  | x :: xs' => perform catalog x;; perform_all catalog xs'
  end.

(** A thread makes its calls and exits, which runs the destructor of its
    holder. *)
Definition thread_life (catalog : list PerfEventInfo) (xs : list call) : prog unit :=
  perform_all catalog xs;; PerfDescriptorsHolder_delete catalog.

(** What a call of the public interface does to the holder of a thread: it
    closes nothing, and either leaves the holder as it is and opens
    nothing, or fills the holder, until then unfilled, with the handles it
    opens, one per catalog entry.  The state stays well formed. *)
Definition call_effect (catalog : list PerfEventInfo) (st st' : State) : Prop :=
  valid catalog st' ∧ active_implies_opened st' ∧
  (∀ c, live c st → live c st') ∧
  ∃ new,
    trace st'.2 = trace st.2 ++ new ∧ closed_fds new = [] ∧
    ((descriptors st'.1 = descriptors st.1 ∧
      thread_events_descriptors_opened st'.1 = thread_events_descriptors_opened st.1 ∧
      opened_fds new = []) ∨
     (thread_events_descriptors_opened st.1 = false ∧
      thread_events_descriptors_opened st'.1 = true ∧
      descriptors st'.1 = opened_fds new ∧
      length (opened_fds new) = NUMBER_OF_RAW_EVENTS catalog)).

(** The holder of a thread that started when the trace was [tr0]: nothing
    was closed since, and the holder is either unfilled, and nothing was
    opened, or holds the handles opened since, one per catalog entry. *)
Definition holder_owns (catalog : list PerfEventInfo) (tr0 : list event)
    (st : State) : Prop :=
  ∃ new,
    trace st.2 = tr0 ++ new ∧ closed_fds new = [] ∧
    if thread_events_descriptors_opened st.1
    then descriptors st.1 = opened_fds new ∧
         length (opened_fds new) = NUMBER_OF_RAW_EVENTS catalog
    else descriptors st.1 = PerfDescriptorsHolder_new catalog ∧ opened_fds new = [].

(** ** The second log-once flag under interleaving *)

(** The actions that log that an event is unsupported, and those that
    access the flag [particular_events_unavailability_logged]. *)
Definition is_event_line {R} (e : action R) : bool :=
  match e with
  | Log _ _ (MsgPerfEventUnsupported _ _) => true
  | _ => false
  end.

Definition on_particular {R} (e : action R) : bool :=
  match e with
  | CompareExchangeStrong ParticularEventsUnavailabilityLogged _ _ => true
  | _ => false
  end.

(** What the thread runs after its attempt on that flag, when it stored
    and when not. *)
Definition report_branches {A R} (e : action R)
  : (R → prog A) → option (prog A * prog A) :=
  match e in action R return (R → prog A) → option (prog A * prog A) with
  | CompareExchangeStrong ParticularEventsUnavailabilityLogged false true =>
      λ k, Some (k true, k false)
  | _ => λ _, None
  end.

(** The rest of the function neither tries that flag nor logs such a line. *)
Fixpoint silent {A} (p : prog A) : Prop :=
  match p with
  | Ret _ => True
  | Vis e k => is_event_line e = false ∧ on_particular e = false ∧ ∀ r, silent (k r)
  end.

(** The rest of the function logs at most [n] such lines and does not try
    the flag. *)
Fixpoint may_report (n : nat) {A} (p : prog A) : Prop :=
  match p with
  | Ret _ => True
  | Vis e k =>
      if is_event_line e
      then match n with
           | O => False
           | S n' => ∀ r, may_report n' (k r)
           end
      else on_particular e = false ∧ ∀ r, may_report n (k r)
  end.

(** The rest of the function logs such lines only after winning the flag,
    and then at most [n] of them. *)
Fixpoint permitted (n : nat) {A} (p : prog A) : Prop :=
  match p with
  | Ret _ => True
  | Vis e k =>
      match report_branches e k with
      | Some (stored, lost) => may_report n stored ∧ silent lost
      | None =>
          is_event_line e = false ∧ on_particular e = false ∧ ∀ r, permitted n (k r)
      end
  end.

(** The process as a whole: the flag is clear and no event was reported;
    or one thread has won the flag, and what it has reported and may still
    report is within [n] lines. *)
Definition reports_within (n : nat) {A} (m : machine A) : Prop :=
  (particular_events_unavailability_logged m.2 = false ∧
   unsupported_events (trace m.2) = [] ∧
   Forall (λ t, permitted n (code t)) m.1) ∨
  (particular_events_unavailability_logged m.2 = true ∧
   ∃ i t k, m.1 !! i = Some t ∧ may_report k (code t) ∧
            (length (unsupported_events (trace m.2)) + k ≤ n)%nat ∧
            ∀ j t', j ≠ i → m.1 !! j = Some t' → permitted n (code t')).

(** ** Threads to which collection is unavailable *)

(** The actions that write a thread-local variable. *)
Definition writes_locals {R} (e : action R) : bool :=
  match e with
  | SetOpened _ | SetCurrent _ | SetDescriptor _ _ => true
  | _ => false
  end.

(** Whatever the other threads do, a thread with these thread-local
    variables and this code left makes no system call on a handle and
    writes none of its thread-local variables. *)
Fixpoint stays_out (os : OS) {A} (p : prog A) (tl : ThreadLocal) : Prop :=
  match p with
  | Ret _ => True
  | Vis e k =>
      uses_handle e = false ∧ writes_locals e = false ∧
      ∀ sh r st', handle os e (tl, sh) = Some (r, st') → stays_out os (k r) st'.1
  end.

(** ** More concrete inputs *)

(** A thread that has opened its handles, 10 and 11 for the first two
    catalog entries, and is not measuring. *)
Definition resting : State :=
  ({| descriptors := [10; 11] ++ replicate 16 (-1);
      thread_events_descriptors_opened := true;
      current_thread_counters := None |},
   process_start {[ 7%nat := zeros; 8%nat := zeros ]}).

(** Two sessions, one after the other, on the objects at 7 and 8. *)
Definition two_sessions : list call :=
  [Initialize 7%nat; Finalize 7%nat 99%nat; Initialize 8%nat; Finalize 8%nat 99%nat].

(** Two threads that have just started, in a process that has just
    started. *)
Definition two_threads : machine unit :=
  (first_use raw_events_info [7%nat; 8%nat],
   process_start {[ 7%nat := zeros; 8%nat := zeros ]}).

(** Both threads read the level; the second wins the flag; then each opens
    some of its handles. *)
Definition overtaking_schedule : list nat :=
  replicate 7 0%nat ++ replicate 8 1%nat ++ replicate 30 0%nat ++ replicate 40 1%nat.

(** The same kernel and process, seen from a thread whose [errno] holds
    [e] throughout. *)
Definition with_errno (e : Z) (os : OS) : OS :=
  {| os_fopen := os_fopen os;
     os_fgets := os_fgets os;
     os_strtol := os_strtol os;
     os_errno := λ _, e;
     os_hasLinuxCapability := os_hasLinuxCapability os;
     os_perf_event_open := os_perf_event_open os;
     os_ioctl := os_ioctl os;
     os_read := os_read os;
     os_close := os_close os |}.

(** A kernel at level 0, the most permissive level of the policy, that
    opens handles 10, 11, 12, ...; the process has [CAP_SYS_ADMIN] or not. *)
Definition os_level0 (cap : bool) : OS :=
  synthetic_os (Some ("0" ++ LF)%string) cap (Z.of_nat <$> seq 10 18) seeded_counts.

Definition ENOENT : Z := 2.

(** The same, in a thread in which an earlier library call that failed has
    left [errno] at [ENOENT]: no call of [getPerfEventParanoid] that
    succeeds clears it. *)
Definition os_stale_errno (cap : bool) : OS := with_errno ENOENT (os_level0 cap).

(** The policy as the specification states it, for a level file that holds
    the number [level] and a process whose privilege bit is [cap]:
    [initializeThreadLocalEvents] on a thread that has not opened its
    handles refuses (returns [false] and opens nothing) exactly when
    [level >= 3] and [cap] is false; otherwise it returns [true] after
    asking for one disabled handle per catalog entry, which counts kernel
    events exactly when [level <= 1] or [cap] holds. *)
Definition follows_policy (os : OS) (catalog : list PerfEventInfo) (counters : addr)
    (st : State) (level : Z) (cap : bool) : Prop :=
  ∃ r st',
    run os (initializeThreadLocalEvents catalog counters) st = Some (r, st') ∧
    if (3 <=? level) && negb cap
    then r = false ∧ opened_attrs (trace st'.2) = opened_attrs (trace st.2)
    else r = true ∧
         opened_attrs (trace st'.2) =
           opened_attrs (trace st.2) ++
           ((λ info, {| pe_type := event_type info;
                        pe_config := event_config info;
                        pe_disabled := true;
                        pe_exclude_kernel := negb ((level <=? 1) || cap) |}) <$> catalog).

(** A kernel at level 3, whatever is asked, and a process without
    [CAP_SYS_ADMIN]. *)
Definition os_strict : OS :=
  {| os_fopen := λ _, true;
     os_fgets := λ _ _, Some ("3" ++ LF)%string;
     os_strtol := λ _ _, 3;
     os_errno := λ _, 0;
     os_hasLinuxCapability := λ _ _, false;
     os_perf_event_open := λ _ _ _ _ _ _, -1;
     os_ioctl := λ _ _ _, 0;
     os_read := λ _ _, None;
     os_close := λ _ _, 0 |}.

(** The three threads take turns up to the attempt on the flag, which the
    third wins, and return. *)
Definition strict_schedule : list nat :=
  concat (replicate 7 [0; 1; 2]%nat) ++ [2; 0; 1; 2]%nat.
(** ** Reasoning about programs *)

Section Logic.
Variable os : OS.

Lemma run_bind {A B} (m : prog A) (f : A → prog B) st :
  run os (bind m f) st =
  match run os m st with
  | Some (a, st') => run os (f a) st'
  | None => None
  end.
Proof.
  revert st. induction m as [a|R e k IH]; intros st; simpl; [done|].
  destruct (handle os e st) as [[r st']|]; [apply IH|done].
Qed.

Lemma wp_run {A} (m : prog A) Q st :
  wp os m Q st ↔ ∃ a st', run os m st = Some (a, st') ∧ Q a st'.
Proof.
  unfold wp. split.
  - destruct (run os m st) as [[a st']|]; [eauto|done].
  - intros (a & st' & -> & HQ). done.
Qed.

Lemma wp_ret {A} (a : A) Q st : wp os (Ret a) Q st ↔ Q a st.
Proof. done. Qed.

Lemma wp_bind {A B} (m : prog A) (f : A → prog B) Q st :
  wp os (bind m f) Q st ↔ wp os m (λ a st', wp os (f a) Q st') st.
Proof.
  unfold wp. rewrite run_bind.
  by destruct (run os m st) as [[a st']|].
Qed.

Lemma wp_mono {A} (m : prog A) (Q Q' : A → State → Prop) st :
  (∀ a st', Q a st' → Q' a st') → wp os m Q st → wp os m Q' st.
Proof.
  unfold wp. intros HQ. destruct (run os m st) as [[a st']|]; [apply HQ|done].
Qed.

Lemma wp_act {R} (e : action R) Q st :
  wp os (act e) Q st ↔
  match handle os e st with Some (r, st') => Q r st' | None => False end.
Proof. unfold wp. simpl. by destruct (handle os e st) as [[r st']|]. Qed.

(** The loop rule: [I i] holds before iteration [i]. *)
Lemma wp_for_range (I : nat → State → Prop) lo n body st :
  I lo st →
  (∀ i st, (lo ≤ i < lo + n)%nat → I i st → wp os (body i) (λ _ st', I (S i) st') st) →
  wp os (for_range lo n body) (λ _ st', I (lo + n)%nat st') st.
Proof.
  revert lo st. induction n as [|n IH]; intros lo st H0 Hbody.
  - simpl. rewrite wp_ret. by replace (lo + 0)%nat with lo by lia.
  - simpl. rewrite wp_bind.
    eapply wp_mono; [|apply Hbody; [lia|done]].
    intros [] st' HI. simpl in HI.
    replace (lo + S n)%nat with (S lo + n)%nat by lia.
    apply IH; [done|]. intros i st'' Hi. apply Hbody. lia.
Qed.

(** The same rule for a loop that may return: [I i] holds before iteration
    [i] as long as no earlier iteration returned, and [Q] must follow from
    a returning iteration. *)
Lemma wp_for_range_return {A} (I : nat → State → Prop) (Q : option A → State → Prop)
    lo n (body : nat → prog (option A)) st :
  I lo st →
  (∀ i st, (lo ≤ i < lo + n)%nat → I i st →
     wp os (body i) (λ r st', match r with
                           | Some a => Q (Some a) st'
                           | None => I (S i) st'
                           end) st) →
  (∀ st, I (lo + n)%nat st → Q None st) →
  wp os (for_range_return lo n body) Q st.
Proof.
  revert lo st. induction n as [|n IH]; intros lo st H0 Hbody Hend.
  - simpl. rewrite wp_ret. apply Hend. by replace (lo + 0)%nat with lo by lia.
  - simpl. rewrite wp_bind.
    eapply wp_mono; [|apply Hbody; [lia|done]].
    intros [a|] st' HI; simpl in HI; [by rewrite wp_ret|].
    apply IH; [done| |].
    + intros i st'' Hi. apply Hbody. lia.
    + intros st''. replace (S lo + n)%nat with (lo + S n)%nat by lia. apply Hend.
Qed.
Lemma wp_Vis {R A} (e : action R) (k : R → prog A) Q st :
wp os (Vis e k) Q st ↔
match handle os e st with Some (r, st') => wp os (k r) Q st' | None => False end.
Proof. unfold wp. simpl. by destruct (handle os e st) as [[r st']|]. Qed.
End Logic.

(** Executes the next action of the program. *)
Ltac wp_step :=
  unfold LOG_WARNING, LOG_INFO, act; cbn [bind];
  rewrite ?wp_ret;
  try (rewrite wp_Vis;
       cbn [handle syscall fst snd trace raw_event_values descriptors
            thread_events_descriptors_opened current_thread_counters];
       rewrite ?wp_ret).

(** Splits on the test of a conditional that the program is about to run. *)
Ltac wp_if :=
  match goal with
  | |- wp _ (bind (if ?b then _ else _) _) _ _ => destruct b eqn:?
  | |- wp _ (if ?b then _ else _) _ _ => destruct b eqn:?
  end.

(** Applies the specification of a call the program is about to make. *)
Ltac wp_call H :=
  rewrite wp_bind; eapply wp_mono; [|eapply H].

(** Splits a conjunction without unfolding definitions. *)
Ltac split_conj := repeat match goal with |- _ ∧ _ => split end.

(** Compares two states field by field. *)
Ltac state_eq :=
  unfold emit, emits, set_flag, set_raw_event_values, set_opened, set_descriptors,
    set_current;
  cbn [fst snd trace raw_event_values perf_unavailability_logged
       particular_events_unavailability_logged descriptors
       thread_events_descriptors_opened current_thread_counters];
  rewrite <- ?app_assoc; try reflexivity.

(** ** Traces and states: bookkeeping *)

Lemma emits_nil sh : emits [] sh = sh.
Proof. destruct sh. unfold emits. simpl. by rewrite app_nil_r. Qed.

Lemma emits_emits a b sh : emits b (emits a sh) = emits (a ++ b) sh.
Proof. unfold emits. simpl. by rewrite app_assoc. Qed.

Lemma emit_emits e a sh : emit e (emits a sh) = emits (a ++ [e]) sh.
Proof. apply emits_emits. Qed.

Lemma increments_app s a b : increments s (a ++ b) = increments s a ++ increments s b.
Proof. apply omap_app. Qed.

Lemma increments_cons s e l : increments s (e :: l) = increments s [e] ++ increments s l.
Proof. apply (increments_app s [e] l). Qed.

Lemma opened_attrs_app a b : opened_attrs (a ++ b) = opened_attrs a ++ opened_attrs b.
Proof. apply omap_app. Qed.

Lemma opened_attrs_cons e l : opened_attrs (e :: l) = opened_attrs [e] ++ opened_attrs l.
Proof. apply (opened_attrs_app [e] l). Qed.

Lemma closed_fds_app a b : closed_fds (a ++ b) = closed_fds a ++ closed_fds b.
Proof. apply omap_app. Qed.

Lemma ioctls_app a b : ioctls (a ++ b) = ioctls a ++ ioctls b.
Proof. apply omap_app. Qed.

Lemma failed_calls_app a b : failed_calls (a ++ b) = failed_calls a ++ failed_calls b.
Proof. apply omap_app. Qed.

Lemma warned_failures_app a b :
  warned_failures (a ++ b) = warned_failures a ++ warned_failures b.
Proof. apply omap_app. Qed.

Lemma log_lines_app a b : log_lines (a ++ b) = log_lines a ++ log_lines b.
Proof. apply omap_app. Qed.

Lemma set_raw_event_values_id sh : set_raw_event_values (raw_event_values sh) sh = sh.
Proof. by destruct sh. Qed.

Lemma set_descriptors_id tl : set_descriptors (descriptors tl) tl = tl.
Proof. by destruct tl. Qed.

(** Overwriting slot [i] of an array whose first [i] slots are already
    rewritten. *)
Lemma insert_prefix_drop {A} (new old : list A) (i : nat) (x : A) :
  length new = i → (i < length old)%nat →
  <[i:=x]> (new ++ drop i old) = (new ++ [x]) ++ drop (S i) old.
Proof.
  intros Hn Hi.
  destruct (lookup_lt_is_Some_2 old i Hi) as [y Hy].
  rewrite (drop_S old y i Hy).
  rewrite insert_app_r_alt by lia.
  replace (i - length new)%nat with 0%nat by lia. simpl.
  by rewrite <- app_assoc.
Qed.

Lemma lookup_prefix_drop {A} (new old : list A) (i : nat) :
  length new = i → (new ++ drop i old) !! i = old !! i.
Proof.
  intros Hn. rewrite lookup_app_r by lia.
  replace (i - length new)%nat with 0%nat by lia.
  rewrite lookup_drop. f_equal. lia.
Qed.

(** ** Specifications of the loops and helpers *)

Section Specs.
Variable os : OS.
Variable catalog : list PerfEventInfo.

Lemma wp_vis {R A} (e : action R) (f : R → prog A) Q st :
  wp os (bind (act e) f) Q st ↔
  match handle os e st with Some (r, st') => wp os (f r) Q st' | None => False end.
Proof. by rewrite wp_bind, wp_act. Qed.



Lemma wp_index {A B} (l : list A) i x (f : A → prog B) Q st :
  l !! i = Some x → wp os (f x) Q st → wp os (bind (index l i) f) Q st.
Proof. intros Hx H. rewrite wp_bind. unfold index. rewrite Hx. by rewrite wp_ret. Qed.

Lemma valid_descriptor st i :
  valid catalog st → (i < NUMBER_OF_RAW_EVENTS catalog)%nat →
  ∃ fd, descriptors st.1 !! i = Some fd.
Proof. intros [Hd _] Hi. apply lookup_lt_is_Some_2. lia. Qed.

Lemma valid_entry i :
  (i < NUMBER_OF_RAW_EVENTS catalog)%nat → ∃ info, catalog !! i = Some info.
Proof. intros Hi. by apply lookup_lt_is_Some_2. Qed.

(** [for (UInt64 & raw_value : counters.raw_event_values) raw_value = 0;] *)
Lemma zero_loop_wp c vs st :
  raw_event_values st.2 !! c = Some vs →
  length vs = NUMBER_OF_RAW_EVENTS catalog →
  wp os (for_range 0 (NUMBER_OF_RAW_EVENTS catalog)
           (λ i, act (StoreRawValue c i 0)))
     (λ _ st', st' = (st.1, set_raw_event_values
                              (<[c:=replicate (NUMBER_OF_RAW_EVENTS catalog) 0]>
                                 (raw_event_values st.2)) st.2)) st.
Proof.
  intros Hc Hlen. destruct st as [tl sh]. simpl in *.
  eapply wp_mono; [|apply (wp_for_range os (λ i st',
    st' = (tl, set_raw_event_values
                 (<[c:=replicate i 0 ++ drop i vs]> (raw_event_values sh)) sh)))].
  - intros _ st' ->. simpl. rewrite drop_ge by lia. by rewrite app_nil_r.
  - simpl. rewrite drop_0, insert_id by done. by rewrite set_raw_event_values_id.
  - intros i st [_ Hi] ->. simpl in Hi.
    rewrite wp_act. cbn [handle fst snd raw_event_values set_raw_event_values].
    rewrite lookup_insert_eq.
    rewrite lookup_prefix_drop by apply length_replicate.
    destruct (lookup_lt_is_Some_2 vs i) as [v ->]; [lia|].
    rewrite insert_insert_eq.
    rewrite insert_prefix_drop by (rewrite ?length_replicate; lia).
    unfold set_raw_event_values. simpl. by rewrite <- replicate_S_end.
Qed.

(** The loop of [initializeProfileEvents] that enables the valid handles. *)
Lemma enable_loop_wp st :
  valid catalog st →
  wp os (for_range 0 (NUMBER_OF_RAW_EVENTS catalog) (λ i,
           fd ← act (GetDescriptor i);
           if negb (fd =? -1) then act (Ioctl fd PERF_EVENT_IOC_ENABLE);; Ret tt
           else Ret tt))
     (λ _ st', ∃ new, st' = (st.1, emits new st.2) ∧
                      (∀ s, increments s new = []) ∧ opened_attrs new = []) st.
Proof.
  intros Hv. destruct st as [tl sh].
  eapply wp_mono; [|apply (wp_for_range os (λ (i : nat) st',
    ∃ new, st' = (tl, emits new sh) ∧
           (∀ s, increments s new = []) ∧ opened_attrs new = []))].
  - intros [] st' H. exact H.
  - exists []. by rewrite emits_nil.
  - intros i st [_ Hi] (new & -> & Hinc & Hop).
    destruct (valid_descriptor _ i Hv) as [fd Hfd]; [done|]. simpl in Hfd.
    rewrite wp_vis. cbn [handle fst snd]. rewrite Hfd.
    destruct (fd =? -1); cbn [negb]; [rewrite wp_ret; eauto|].
    rewrite wp_vis. cbn [handle syscall fst snd]. rewrite wp_ret, emit_emits.
    eexists. split; [done|]. split.
    + intros s. by rewrite increments_app, Hinc.
    + by rewrite opened_attrs_app, Hop.
Qed.


Lemma getRawValue_wp c vs ty cfg st :
  raw_event_values st.2 !! c = Some vs →
  length vs = NUMBER_OF_RAW_EVENTS catalog →
  wp os (getRawValue catalog c ty cfg)
     (λ v st', v = find_raw_value catalog vs ty cfg ∧
               st' = (st.1, emits (missing_line catalog ty cfg) st.2)) st.
Proof.
  intros Hc Hlen. unfold getRawValue. rewrite wp_bind.
  set (P := λ info, event_type info = ty ∧ event_config info = cfg).
  eapply wp_mono; [|apply (wp_for_range_return os
    (λ i st', st' = st ∧ ∀ j info, catalog !! j = Some info → (j < i)%nat → ¬ P info)
    (λ r st', st' = st ∧
       match r with
       | Some v => ∃ i info, list_find P catalog = Some (i, info) ∧ vs !! i = Some v
       | None => list_find P catalog = None
       end))].
  - intros [v|] st' [-> H].
    + destruct H as (i & info & Hfind & Hv). rewrite wp_ret.
      unfold find_raw_value, missing_line. fold P. rewrite Hfind, Hv. simpl.
      rewrite emits_nil. by destruct st.
    + unfold LOG_WARNING. rewrite wp_vis. cbn [handle syscall]. rewrite wp_ret.
      unfold find_raw_value, missing_line. fold P. by rewrite H.
  - split; [done|]. intros j info _ Hj. lia.
  - intros i st' [_ Hi] [-> Hno]. simpl in Hi.
    destruct (valid_entry i Hi) as [info Hinfo].
    eapply wp_index; [done|].
    destruct (Z.eqb_spec (event_type info) ty) as [Hty|Hty];
      [destruct (Z.eqb_spec (event_config info) cfg) as [Hcfg|Hcfg]|]; cbn [andb].
    + rewrite wp_vis. cbn [handle]. rewrite Hc.
      destruct (lookup_lt_is_Some_2 vs i) as [v Hv]; [lia|]. rewrite Hv, wp_ret.
      split; [done|]. exists i, info. split; [|done].
      apply list_find_Some. split_and!; [done|done|]. intros j y Hy Hj. by eapply Hno.
    + rewrite wp_ret. split; [done|]. intros j y Hy Hj.
      destruct (decide (j = i)) as [->|]; [|eapply Hno; [done|lia]].
      intros [_ ?]. congruence.
    + rewrite wp_ret. split; [done|]. intros j y Hy Hj.
      destruct (decide (j = i)) as [->|]; [|eapply Hno; [done|lia]].
      intros [? _]. congruence.
  - intros st' [-> Hno]. split; [done|]. apply list_find_None.
    apply Forall_lookup. intros j y Hy. eapply Hno; [done|].
    apply lookup_lt_Some in Hy. done.
Qed.


Lemma to_UInt64_range v : is_UInt64 (to_UInt64 v).
Proof. unfold is_UInt64, to_UInt64. apply Z.mod_pos_bound. lia. Qed.

Lemma read_loop_wp c vs st :
  valid catalog st →
  raw_event_values st.2 !! c = Some vs →
  wp os (for_range 0 (NUMBER_OF_RAW_EVENTS catalog) (λ i,
           fd ← act (GetDescriptor i);
           if fd =? -1 then Ret tt else
           res ← act (Read fd);
           match res with
           | Some v => act (StoreRawValue c i v)
           | None =>
               LOG_WARNING PerfEventsCounters_getLogger (MsgCantReadEventValue fd);;
               act (StoreRawValue c i 0)
           end))
     (λ _ st', ∃ vs' new,
        st' = (st.1, set_raw_event_values (<[c:=vs']> (raw_event_values st.2))
                       (emits new st.2)) ∧
        length vs' = NUMBER_OF_RAW_EVENTS catalog ∧ Forall is_UInt64 vs' ∧
        (∀ s, increments s new = []) ∧
        (∀ i fd, descriptors st.1 !! i = Some fd →
                 ∃ old v, vs !! i = Some old ∧ vs' !! i = Some v ∧ read_result os fd old v)) st.
Proof.
  intros Hv Hc. destruct (Hv) as [Hd Hh]. destruct (Hh _ _ Hc) as [Hlen Hrange].
  destruct st as [tl sh]. simpl in *.
  eapply wp_mono; [|apply (wp_for_range os (λ (i : nat) st', ∃ pre new,
    st' = (tl, set_raw_event_values (<[c:=pre ++ drop i vs]> (raw_event_values sh))
                 (emits new sh)) ∧
    length pre = i ∧ Forall is_UInt64 pre ∧
    (∀ s, increments s new = []) ∧
    (∀ j fd, (j < i)%nat → descriptors tl !! j = Some fd →
             ∃ old v, vs !! j = Some old ∧ pre !! j = Some v ∧ read_result os fd old v)))].
  - intros [] st' (pre & new & -> & Hpre & Hr & Hinc & Hvals). simpl in *.
    rewrite drop_ge, app_nil_r by lia. exists pre, new. split_and!; try done.
    intros i fd Hfd. apply Hvals; [|done]. apply lookup_lt_Some in Hfd. lia.
  - exists [], []. simpl. rewrite drop_0, insert_id, emits_nil by done.
    rewrite set_raw_event_values_id. split_and!; try done. intros; lia.
  - intros i st [_ Hi] (pre & new & -> & Hpre & Hr & Hinc & Hvals). simpl in Hi.
    destruct (lookup_lt_is_Some_2 (descriptors tl) i) as [fd Hfd]; [lia|].
    destruct (lookup_lt_is_Some_2 vs i) as [old Hold]; [lia|].
    assert (is_UInt64 old) as Hold_range.
    { eapply Forall_lookup_1 in Hrange; done. }
    assert (∀ x, is_UInt64 x → read_result os fd old x →
      ∃ pre' : list Z, length pre' = S i ∧ Forall is_UInt64 pre' ∧
        pre' = pre ++ [x] ∧
        (∀ j fd, (j < S i)%nat → descriptors tl !! j = Some fd →
                 ∃ old v, vs !! j = Some old ∧ pre' !! j = Some v ∧ read_result os fd old v))
      as Hext.
    { intros x Hx Hres. exists (pre ++ [x]). split_and!.
      - rewrite length_app. simpl. lia.
      - apply Forall_app. by split; [|constructor].
      - done.
      - intros j fd' Hj Hfd'. destruct (decide (j = i)) as [->|Hne].
        + exists old, x. split_and!; [done| |congruence].
          rewrite lookup_app_r by lia. by replace (i - length pre)%nat with 0%nat by lia.
        + destruct (Hvals j fd') as (o & v & ? & ? & ?); [lia|done|].
          exists o, v. split_and!; [done| |done].
          rewrite lookup_app_l; [done|lia]. }
    wp_step. rewrite Hfd.
    destruct (Z.eqb_spec fd (-1)) as [Hm|Hm].
    + wp_step.
      destruct (Hext old) as (pre' & ? & ? & -> & ?); [done| |].
      { unfold read_result. by rewrite decide_True. }
      exists (pre ++ [old]), new. split_and!; try done.
      by rewrite (drop_S vs old i), <- app_assoc.
    + wp_step.
      destruct (os_read os _ fd) as [v|] eqn:Hread; cbn [fmap option_fmap option_map].
      * wp_step. cbn [raw_event_values set_raw_event_values emit emits].
        rewrite lookup_insert_eq, lookup_prefix_drop, Hold by done.
        destruct (Hext (to_UInt64 v)) as (pre' & ? & ? & -> & ?);
          [apply to_UInt64_range| |].
        { unfold read_result. rewrite decide_False by done. eexists. by rewrite Hread. }
        exists (pre ++ [to_UInt64 v]), (new ++ [EvRead fd (Some (to_UInt64 v))]).
        split_and!; try done.
        -- unfold set_raw_event_values, emits. simpl.
           do 2 f_equal; [|by rewrite <- app_assoc].
           by rewrite insert_insert_eq, insert_prefix_drop by lia.
        -- intros s. by rewrite increments_app, Hinc.
      * wp_step. wp_step. cbn [raw_event_values set_raw_event_values emit emits].
        rewrite lookup_insert_eq, lookup_prefix_drop, Hold by done.
        destruct (Hext 0) as (pre' & ? & ? & -> & ?).
        { unfold is_UInt64. lia. }
        { unfold read_result. rewrite decide_False by done. eexists. by rewrite Hread. }
        eexists (pre ++ [0]), (new ++ [_; _]).
        split_and!; try done.
        -- unfold set_raw_event_values, emits. simpl.
           do 2 f_equal; [|by rewrite <- !app_assoc].
           by rewrite insert_insert_eq, insert_prefix_drop by lia.
        -- intros s. by rewrite increments_app, Hinc.
Qed.


Lemma take_zip3_S (ds vs : list Z) i info fd v :
  catalog !! i = Some info → ds !! i = Some fd → vs !! i = Some v →
  take (S i) (zip catalog (zip ds vs)) =
  take i (zip catalog (zip ds vs)) ++ [(info, (fd, v))].
Proof.
  intros Hinfo Hfd Hv. apply take_S_r.
  rewrite lookup_zip_with, Hinfo. simpl.
  rewrite lookup_zip_with, Hfd. simpl. by rewrite Hv.
Qed.

(** The loop of [finalizeProfileEvents] that forwards the raw values and
    stops the handles. *)
Lemma process_loop_wp c vs sink st :
  valid catalog st →
  raw_event_values st.2 !! c = Some vs →
  wp os (for_range 0 (NUMBER_OF_RAW_EVENTS catalog) (λ i,
           fd ← act (GetDescriptor i);
           if fd =? -1 then Ret tt else
           event_info ← index catalog i;
           v ← act (LoadRawValue c i);
           act (Increment sink (profile_event event_info) v);;
           r ← act (Ioctl fd PERF_EVENT_IOC_DISABLE);
           (if negb (r =? 0)
            then LOG_WARNING PerfEventsCounters_getLogger (MsgCantDisable fd)
            else Ret tt);;
           r ← act (Ioctl fd PERF_EVENT_IOC_RESET);
           (if negb (r =? 0)
            then LOG_WARNING PerfEventsCounters_getLogger (MsgCantReset fd)
            else Ret tt)))
     (λ _ st', ∃ new,
        st' = (st.1, emits new st.2) ∧
        (∀ s, increments s new =
              if bool_decide (sink = s)
              then reported catalog (descriptors st.1) vs else [])) st.
Proof.
  intros Hv Hc. destruct (Hv) as [Hd Hh]. destruct (Hh _ _ Hc) as [Hlen _].
  destruct st as [tl sh]. cbn [fst snd] in *.
  set (f := λ x : PerfEventInfo * (Z * Z),
              if x.2.1 =? -1 then None else Some (profile_event x.1, x.2.2)).
  eapply wp_mono; [|apply (wp_for_range os (λ (i : nat) st', ∃ new,
    st' = (tl, emits new sh) ∧
    (∀ s, increments s new =
          if bool_decide (sink = s)
          then omap f (take i (zip catalog (zip (descriptors tl) vs))) else [])))].
  - intros [] st' (new & -> & Hinc). exists new. split; [done|].
    intros s. rewrite Hinc. case_bool_decide; [|done].
    unfold reported. fold f. rewrite take_ge; [done|].
    rewrite !length_zip_with. unfold NUMBER_OF_RAW_EVENTS in *. simpl. lia.
  - exists []. rewrite emits_nil. split; [done|]. intros s. simpl. by case_bool_decide.
  - intros i st [_ Hi] (new & -> & Hinc). simpl in Hi.
    destruct (lookup_lt_is_Some_2 (descriptors tl) i) as [fd Hfd]; [lia|].
    destruct (lookup_lt_is_Some_2 vs i) as [v Hval]; [lia|].
    destruct (valid_entry i Hi) as [info Hinfo].
    rewrite (take_zip3_S _ _ _ _ _ _ Hinfo Hfd Hval), omap_app.
    assert (omap f [(info, (fd, v))] =
            if fd =? -1 then [] else [(profile_event info, v)]) as ->.
    { unfold f. cbv [omap list_omap fst snd]. by destruct (fd =? -1). }
    wp_step. rewrite Hfd.
    destruct (Z.eqb_spec fd (-1)) as [Hm|Hm].
    + wp_step. exists new. split; [done|]. intros s. rewrite Hinc.
      case_bool_decide; [|done]. by rewrite app_nil_r.
    + eapply wp_index; [done|]. wp_step.
      cbn [raw_event_values emits]. rewrite Hc, Hval.
      wp_step. wp_step.
      wp_if; wp_step; wp_step; wp_if; wp_step;
        (eexists; split; [by rewrite ?emit_emits|]);
        intros s; rewrite !increments_app, Hinc;
        cbv [increments omap list_omap]; case_bool_decide;
        by rewrite ?app_nil_r.
Qed.

Lemma increments_missing_line s ty cfg : increments s (missing_line catalog ty cfg) = [].
Proof. unfold missing_line. by destruct (list_find _ catalog). Qed.

Lemma valid_update st tl' sh' c vs' :
  valid catalog st →
  descriptors tl' = descriptors st.1 →
  raw_event_values sh' = <[c:=vs']> (raw_event_values st.2) →
  length vs' = NUMBER_OF_RAW_EVENTS catalog →
  Forall is_UInt64 vs' →
  valid catalog (tl', sh').
Proof.
  intros [Hd Hh] Hds Hheap Hlen Hr. split; simpl; [congruence|].
  intros c' vs''. rewrite Hheap. destruct (decide (c' = c)) as [->|Hne].
  - rewrite lookup_insert_eq. by intros [= <-].
  - rewrite lookup_insert_ne by done. apply Hh.
Qed.


(** The tail of [finalizeProfileEvents]: the derived metrics. *)
Lemma derived_wp c vs sink st :
  raw_event_values st.2 !! c = Some vs →
  length vs = NUMBER_OF_RAW_EVENTS catalog →
  wp os
     (hw_cpu_cycles ← getRawValue catalog c PERF_TYPE_HARDWARE PERF_COUNT_HW_CPU_CYCLES;
      hw_ref_cpu_cycles ←
        getRawValue catalog c PERF_TYPE_HARDWARE PERF_COUNT_HW_REF_CPU_CYCLES;
      instructions_per_cpu_scaled ←
        (if negb (hw_cpu_cycles =? 0)
         then n ← getRawValue catalog c PERF_TYPE_HARDWARE PERF_COUNT_HW_INSTRUCTIONS;
              udiv n hw_cpu_cycles
         else Ret 0 : prog Z);
      instructions_per_cpu ←
        (if negb (hw_ref_cpu_cycles =? 0)
         then n ← getRawValue catalog c PERF_TYPE_HARDWARE PERF_COUNT_HW_INSTRUCTIONS;
              udiv n hw_ref_cpu_cycles
         else Ret 0 : prog Z);
      act (Increment sink ProfileEvents.PERF_CUSTOM_INSTRUCTIONS_PER_CPU_CYCLE_SCALED
             instructions_per_cpu_scaled);;
      act (Increment sink ProfileEvents.PERF_CUSTOM_INSTRUCTIONS_PER_CPU_CYCLE
             instructions_per_cpu);;
      act (SetCurrent None))
     (λ _ st', ∃ new,
        st' = (set_current None st.1, emits new st.2) ∧
        (∀ s, increments s new =
              if bool_decide (sink = s) then derived catalog vs else [])) st.
Proof.
  intros Hc Hlen. destruct st as [tl sh]. cbn [fst snd] in *.
  set (raw := find_raw_value catalog vs PERF_TYPE_HARDWARE).
  wp_call getRawValue_wp; [|done..]. intros cycles st1 [-> ->].
  wp_call getRawValue_wp; [|done..]. intros ref st2 [-> ->].
  fold raw. cbn [fst snd].
  assert (∀ d st Q,
    raw_event_values st.2 !! c = Some vs →
    (∀ new, (∀ s, increments s new = []) →
            Q (ratio (raw PERF_COUNT_HW_INSTRUCTIONS) d) (st.1, emits new st.2)) →
    wp os (if negb (d =? 0)
           then n ← getRawValue catalog c PERF_TYPE_HARDWARE PERF_COUNT_HW_INSTRUCTIONS;
                udiv n d
           else Ret 0 : prog Z) Q st) as Hratio.
  { intros d st Q Hst HQ. unfold ratio in HQ. unfold udiv.
    destruct (d =? 0); cbn [negb].
    - rewrite wp_ret. specialize (HQ []). rewrite emits_nil in HQ.
      destruct st. by apply HQ.
    - wp_call getRawValue_wp; [|done..]. intros n st' [-> ->]. rewrite wp_ret.
      apply HQ. intros s. apply increments_missing_line. }
  rewrite wp_bind. apply Hratio; [done|]. intros new1 Hnew1. cbn [fst snd].
  rewrite wp_bind. apply Hratio; [done|]. intros new2 Hnew2. cbn [fst snd].
  wp_step. wp_step. wp_step.
  rewrite !emit_emits, !emits_emits. eexists. split; [done|].
  intros s. rewrite !increments_app, !increments_missing_line, Hnew1, Hnew2.
  cbv [increments omap list_omap app derived]. fold raw.
  by case_bool_decide.
Qed.

Lemma finalize_wp c vs sink st :
  valid catalog st →
  raw_event_values st.2 !! c = Some vs →
  current_thread_counters st.1 = Some c →
  thread_events_descriptors_opened st.1 = true →
  wp os (finalizeProfileEvents catalog c sink)
     (λ _ st', ∃ vs' new,
        st' = (set_current None st.1,
               set_raw_event_values (<[c:=vs']> (raw_event_values st.2))
                 (emits new st.2)) ∧
        length vs' = NUMBER_OF_RAW_EVENTS catalog ∧ Forall is_UInt64 vs' ∧
        (∀ i fd, descriptors st.1 !! i = Some fd →
                 ∃ old v, vs !! i = Some old ∧ vs' !! i = Some v ∧ read_result os fd old v) ∧
        (∀ s, increments s new =
              if bool_decide (sink = s)
              then reported catalog (descriptors st.1) vs' ++ derived catalog vs'
              else [])) st.
Proof.
  intros Hv Hc Hcur Hop. destruct st as [tl sh]. cbn [fst snd] in *.
  unfold finalizeProfileEvents.
  wp_step. rewrite Hcur, bool_decide_eq_false_2 by (intros H; by apply H).
  wp_step. rewrite Hop. cbn [negb].
  wp_call read_loop_wp; [|done..].
  intros [] st1 (vs' & new1 & -> & Hlen' & Hr' & Hinc1 & Hvals). cbn [fst snd] in *.
  assert (valid catalog
            (tl, set_raw_event_values (<[c:=vs']> (raw_event_values sh)) (emits new1 sh)))
    as Hv1 by (by eapply valid_update).
  wp_call process_loop_wp; [|done|cbn; apply lookup_insert_eq].
  intros [] st2 (new2 & -> & Hinc2). cbn [fst snd] in *.
  eapply wp_mono; [|eapply (derived_wp c vs'); [cbn; apply lookup_insert_eq|done]].
  intros [] st3 (new3 & -> & Hinc3). cbn [fst snd].
  exists vs', (new1 ++ new2 ++ new3). split_and!; try done.
  - unfold emits, set_raw_event_values. simpl. by rewrite <- !app_assoc.
  - intros s. rewrite !increments_app, Hinc1, Hinc2, Hinc3. by case_bool_decide.
Qed.



(** [getPerfEventParanoid] only talks to libc, starting with [fopen]. *)
Lemma getPerfEventParanoid_wp result st :
  wp os (getPerfEventParanoid result)
     (λ _ st', ∃ new,
        st' = (st.1, emits (EvFopen (os_fopen os (trace st.2)) :: new) st.2) ∧
        (∀ s, increments s new = []) ∧ opened_attrs new = []) st.
Proof.
  destruct st as [tl sh]. unfold getPerfEventParanoid. cbn [fst snd].
  wp_step. destruct (os_fopen os (trace sh)); cbn [negb].
  - wp_step. wp_step.
    destruct (os_fgets os _ _) as [str|].
    + wp_step.
      match goal with |- context [EvStrtol _ ?v] => generalize v end. intros value.
      destruct (value =? 0).
      * wp_step. cbn [andb]. wp_if; wp_step;
          (eexists [_; _; _]; split; [state_eq|done]).
      * wp_step. cbn [andb]. eexists [_; _; _]. split; [state_eq|done].
    + wp_step. eexists [_; _]. split; [state_eq|done].
  - wp_step. exists []. done.
Qed.

(** The loop of [initializeThreadLocalEvents] that opens one handle per
    catalog entry. *)
Lemma open_loop_wp c vs p cap lg st :
  valid catalog st →
  raw_event_values st.2 !! c = Some vs →
  wp os (for_range 0 (NUMBER_OF_RAW_EVENTS catalog) (λ i,
           act (StoreRawValue c i 0);;
           event_info ← index catalog i;
           fd ← perfEventOpenDisabled p cap
                  (event_type event_info) (event_config event_info);
           act (SetDescriptor i fd);;
           if (fd =? -1) && lg
           then LOG_INFO PerfEventsCounters_getLogger
                  (MsgPerfEventUnsupported (event_type event_info)
                     (event_config event_info))
           else Ret tt))
     (λ _ st', ∃ ds' new,
        st' = (set_descriptors ds' st.1,
               set_raw_event_values
                 (<[c:=replicate (NUMBER_OF_RAW_EVENTS catalog) 0]> (raw_event_values st.2))
                 (emits new st.2)) ∧
        length ds' = NUMBER_OF_RAW_EVENTS catalog ∧
        (∀ s, increments s new = []) ∧
        opened_attrs new = attr_of p cap <$> catalog) st.
Proof.
  intros Hv Hc. destruct (Hv) as [Hd Hh]. destruct (Hh _ _ Hc) as [Hlen _].
  destruct st as [tl sh]. cbn [fst snd] in *.
  eapply wp_mono; [|apply (wp_for_range os (λ (i : nat) st', ∃ pre new,
    st' = (set_descriptors (pre ++ drop i (descriptors tl)) tl,
           set_raw_event_values
             (<[c:=replicate i 0 ++ drop i vs]> (raw_event_values sh)) (emits new sh)) ∧
    length pre = i ∧
    (∀ s, increments s new = []) ∧
    opened_attrs new = attr_of p cap <$> take i catalog))].
  - intros [] st' (pre & new & -> & Hpre & Hinc & Hop). cbn [plus] in *.
    rewrite !drop_ge, !app_nil_r by lia. exists pre, new. split_and!; try done.
    by rewrite Hop, take_ge.
  - exists [], []. cbn [app replicate]. rewrite !drop_0, insert_id, emits_nil by done.
    by rewrite set_raw_event_values_id, set_descriptors_id.
  - intros i st [_ Hi] (pre & new & -> & Hpre & Hinc & Hop). simpl in Hi.
    destruct (valid_entry i Hi) as [info Hinfo].
    destruct (lookup_lt_is_Some_2 vs i) as [old Hold]; [lia|].
    destruct (lookup_lt_is_Some_2 (descriptors tl) i) as [fd0 Hfd0]; [lia|].
    wp_step. cbn [raw_event_values set_raw_event_values emits].
    rewrite lookup_insert_eq, lookup_prefix_drop, Hold by apply length_replicate.
    eapply wp_index; [done|].
    unfold perfEventOpenDisabled, openPerfEvent. wp_step.
    match goal with |- context [EvPerfEventOpen _ _ _ _ _ ?v] => generalize v end.
    intros fd. wp_step.
    cbn [descriptors set_descriptors]. rewrite lookup_prefix_drop, Hfd0 by done.
    wp_if; wp_step.
    all: eexists (pre ++ [fd]), _; split_and!;
      [ state_eq; rewrite insert_insert_eq;
        rewrite !insert_prefix_drop by (rewrite ?length_replicate; lia);
        rewrite replicate_S_end, <- !app_assoc; reflexivity
      | rewrite length_app; simpl; lia
      | intros s; rewrite !increments_app, Hinc; reflexivity
      | rewrite !opened_attrs_app, Hop, (take_S_r _ _ _ Hinfo), fmap_app;
        reflexivity ].
Qed.

Lemma valid_same st tl' sh' :
  valid catalog st →
  descriptors tl' = descriptors st.1 →
  raw_event_values sh' = raw_event_values st.2 →
  valid catalog (tl', sh').
Proof. intros [Hd Hh] Hds Hheap. split; simpl; [congruence|]. by rewrite Hheap. Qed.

(** The end of [initializeThreadLocalEvents]: the loop and the flag. *)
Lemma open_all_wp c vs p cap lg st :
  valid catalog st →
  raw_event_values st.2 !! c = Some vs →
  wp os (for_range 0 (NUMBER_OF_RAW_EVENTS catalog) (λ i,
           act (StoreRawValue c i 0);;
           event_info ← index catalog i;
           fd ← perfEventOpenDisabled p cap
                  (event_type event_info) (event_config event_info);
           act (SetDescriptor i fd);;
           if (fd =? -1) && lg
           then LOG_INFO PerfEventsCounters_getLogger
                  (MsgPerfEventUnsupported (event_type event_info)
                     (event_config event_info))
           else Ret tt);;
         act (SetOpened true);;
         Ret true)
     (λ r st', r = true ∧ ∃ ds' new,
        st' = (set_opened true (set_descriptors ds' st.1),
               set_raw_event_values
                 (<[c:=replicate (NUMBER_OF_RAW_EVENTS catalog) 0]> (raw_event_values st.2))
                 (emits new st.2)) ∧
        length ds' = NUMBER_OF_RAW_EVENTS catalog ∧
        (∀ s, increments s new = []) ∧
        opened_attrs new = attr_of p cap <$> catalog) st.
Proof.
  intros Hv Hc. wp_call open_loop_wp; [|done..].
  intros [] st1 (ds' & new & -> & Hlen & Hinc & Hop). wp_step.
  split; [done|]. by exists ds', new.
Qed.


Lemma initializeThreadLocalEvents_after_probe c :
  initializeThreadLocalEvents catalog c =
  (opened ← act GetOpened;
   if opened then Ret true else
   '(is_pref_available, perf_event_paranoid) ← getPerfEventParanoid 0;
   after_probe catalog c is_pref_available perf_event_paranoid).
Proof. reflexivity. Qed.

Lemma after_probe_wp c vs ok p st :
  valid catalog st →
  raw_event_values st.2 !! c = Some vs →
  wp os (after_probe catalog c ok p)
     (λ r st',
        let cap := os_hasLinuxCapability os (trace st.2) CAP_SYS_ADMIN in
        if negb ok || ((3 <=? p) && negb cap)
        then r = false ∧ ∃ new,
               st' = (st.1, set_flag PerfUnavailabilityLogged true (emits new st.2)) ∧
               (∀ s, increments s new = []) ∧ opened_attrs new = [] ∧
               unavailability_lines new =
                 (if perf_unavailability_logged st.2 then 0 else 1)%nat
        else r = true ∧ ∃ ds' new,
               st' = (set_opened true (set_descriptors ds' st.1),
                      set_flag ParticularEventsUnavailabilityLogged true
                        (set_raw_event_values
                           (<[c:=replicate (NUMBER_OF_RAW_EVENTS catalog) 0]>
                              (raw_event_values st.2))
                           (emits new st.2))) ∧
               length ds' = NUMBER_OF_RAW_EVENTS catalog ∧
               (∀ s, increments s new = []) ∧
               opened_attrs new = attr_of p cap <$> catalog) st.
Proof.
  intros Hv Hc. destruct st as [tl [f1 f2 h tr]]. cbn [fst snd trace] in *.
  cbn zeta. set (cap := os_hasLinuxCapability os tr CAP_SYS_ADMIN).
  unfold after_probe. destruct ok; cbn [negb orb].
  - wp_step. fold cap. destruct ((3 <=? p) && negb cap).
    + wp_step. cbn [get_flag perf_unavailability_logged].
      destruct f1; cbn [bool_decide decide_rel]; wp_step; [|wp_step];
        (split; [done|]; eexists [_]; split; [state_eq|done]) ||
        (split; [done|]; eexists [_; _]; split; [state_eq|done]).
    + wp_step. cbn [get_flag particular_events_unavailability_logged].
      set (lg := bool_decide (f2 = false)).
      assert (∀ sh', raw_event_values sh' = h →
        trace sh' = tr ++ [EvHasLinuxCapability CAP_SYS_ADMIN cap] →
        perf_unavailability_logged sh' = f1 →
        particular_events_unavailability_logged sh' = true →
        wp os
        (for_range 0 (NUMBER_OF_RAW_EVENTS catalog) (λ i,
           act (StoreRawValue c i 0);;
           event_info ← index catalog i;
           fd ← perfEventOpenDisabled p cap
                  (event_type event_info) (event_config event_info);
           act (SetDescriptor i fd);;
           if (fd =? -1) && lg
           then LOG_INFO PerfEventsCounters_getLogger
                  (MsgPerfEventUnsupported (event_type event_info)
                     (event_config event_info))
           else Ret tt);; act (SetOpened true);; Ret true)
        (λ r st', r = true ∧ ∃ ds' new,
           st' = (set_opened true (set_descriptors ds' tl),
                  {| perf_unavailability_logged := f1;
                     particular_events_unavailability_logged := true;
                     raw_event_values :=
                       <[c:=replicate (NUMBER_OF_RAW_EVENTS catalog) 0]> h;
                     trace := tr ++ new |}) ∧
           length ds' = NUMBER_OF_RAW_EVENTS catalog ∧
           (∀ s, increments s new = []) ∧
           opened_attrs new = attr_of p cap <$> catalog)
        (tl, sh')) as Hloop.
      { intros sh' Hh' Htr' Hf1' Hf2'.
        eapply wp_mono; [|eapply (open_all_wp c vs);
          [eapply valid_same; [exact Hv|done|done]|cbn [snd]; by rewrite Hh']].
        intros r st1 (-> & ds' & new & -> & Hlen & Hinc & Hop).
        split; [done|]. exists ds', (EvHasLinuxCapability CAP_SYS_ADMIN cap :: new).
        split_and!; [|done| |done].
        - destruct sh'. simpl in *. subst. state_eq.
        - intros s. by rewrite increments_cons, Hinc. }
      destruct f2; subst lg; cbn [bool_decide decide_rel]; by apply Hloop.
  - wp_step. cbn [get_flag perf_unavailability_logged].
    destruct f1; cbn [bool_decide decide_rel]; wp_step; [|wp_step];
      (split; [done|]; eexists []; split; [state_eq; by rewrite app_nil_r|done]) ||
      (split; [done|]; eexists [_]; split; [state_eq|done]).
Qed.

Lemma valid_resize st tl' sh' c vs' :
  valid catalog st →
  length (descriptors tl') = NUMBER_OF_RAW_EVENTS catalog →
  raw_event_values sh' = <[c:=vs']> (raw_event_values st.2) →
  length vs' = NUMBER_OF_RAW_EVENTS catalog →
  Forall is_UInt64 vs' →
  valid catalog (tl', sh').
Proof.
  intros [Hd Hh] Hds Hheap Hlen Hr. split; simpl; [done|].
  intros c' vs''. rewrite Hheap. destruct (decide (c' = c)) as [->|Hne].
  - rewrite lookup_insert_eq. by intros [= <-].
  - rewrite lookup_insert_ne by done. apply Hh.
Qed.

Lemma zeros_range n : Forall is_UInt64 (replicate n 0).
Proof. apply Forall_replicate. unfold is_UInt64. lia. Qed.

Lemma initializeThreadLocalEvents_wp c vs st :
  valid catalog st →
  raw_event_values st.2 !! c = Some vs →
  wp os (initializeThreadLocalEvents catalog c)
     (λ r st',
        valid catalog st' ∧
        thread_events_descriptors_opened st'.1 = r ∧
        current_thread_counters st'.1 = current_thread_counters st.1 ∧
        (∀ s, increments s (trace st'.2) = increments s (trace st.2)) ∧
        (raw_event_values st'.2 = raw_event_values st.2 ∨
         raw_event_values st'.2 =
           <[c:=replicate (NUMBER_OF_RAW_EVENTS catalog) 0]> (raw_event_values st.2)) ∧
        (r = false →
           descriptors st'.1 = descriptors st.1 ∧
           raw_event_values st'.2 = raw_event_values st.2 ∧
           opened_attrs (trace st'.2) = opened_attrs (trace st.2)) ∧
        (thread_events_descriptors_opened st.1 = true → r = true)) st.
Proof.
  intros Hv Hc. rewrite initializeThreadLocalEvents_after_probe.
  destruct st as [tl sh]. cbn [fst snd] in *.
  wp_step. destruct (thread_events_descriptors_opened tl) eqn:Hop.
  { wp_step. split_conj; try done. by left. }
  wp_call getPerfEventParanoid_wp.
  intros [ok p] st1 (new1 & -> & Hinc1 & Hop1). cbn [fst snd].
  eapply wp_mono; [|eapply (after_probe_wp c vs); [by eapply valid_same|done]].
  intros r st2. cbn zeta. cbn [fst snd].
  destruct (negb ok || _).
  - intros (-> & new2 & -> & Hinc2 & Hop2 & _). cbn [fst snd].
    assert (∀ f b, trace (set_flag f b (emits new2 (emits (EvFopen (os_fopen os (trace sh)) :: new1) sh)))
                 = trace sh ++ (EvFopen (os_fopen os (trace sh)) :: new1) ++ new2) as Htr.
    { intros [] b; simpl; by rewrite <- app_assoc. }
    assert (∀ f b, raw_event_values (set_flag f b (emits new2 (emits (EvFopen (os_fopen os (trace sh)) :: new1) sh)))
                 = raw_event_values sh) as Hraw by (by intros [] b).
    split_conj; try done.
    + intros s. rewrite Htr, !increments_app, increments_cons, Hinc1, Hinc2.
      by rewrite app_nil_r.
    + left. apply Hraw.
    + intros _. split_conj; [done|apply Hraw|].
      rewrite Htr, !opened_attrs_app, opened_attrs_cons, Hop1, Hop2.
      by rewrite app_nil_r.
  - intros (-> & ds' & new2 & -> & Hlen & Hinc2 & Hop2). cbn [fst snd].
    split_conj; try done.
    + eapply (valid_resize _ _ _ c); [exact Hv|done|done|apply length_replicate|apply zeros_range].
    + intros s. simpl. rewrite <- app_assoc, !increments_app, increments_cons, Hinc1, Hinc2.
      by rewrite app_nil_r.
    + by right.
Qed.

Lemma initializeProfileEvents_wp c vs st :
  valid catalog st →
  raw_event_values st.2 !! c = Some vs →
  active_implies_opened st →
  wp os (initializeProfileEvents catalog c)
     (λ _ st',
        valid catalog st' ∧ active_implies_opened st' ∧
        (∀ s, increments s (trace st'.2) = increments s (trace st.2)) ∧
        (raw_event_values st'.2 = raw_event_values st.2 ∨
         raw_event_values st'.2 =
           <[c:=replicate (NUMBER_OF_RAW_EVENTS catalog) 0]> (raw_event_values st.2)) ∧
        match current_thread_counters st.1 with
        | Some _ => st'.1 = st.1
        | None =>
            (current_thread_counters st'.1 = Some c ∧
             thread_events_descriptors_opened st'.1 = true ∧
             raw_event_values st'.2 !! c =
               Some (replicate (NUMBER_OF_RAW_EVENTS catalog) 0)) ∨
            (current_thread_counters st'.1 = None ∧
             thread_events_descriptors_opened st'.1 = false)
        end) st.
Proof.
  intros Hv Hc Hact. unfold initializeProfileEvents.
  destruct st as [tl sh]. cbn [fst snd] in *.
  wp_step. destruct (current_thread_counters tl) as [c0|] eqn:Hcur.
  - case_bool_decide.
    + wp_step. try rewrite Hcur. split_conj; try done. by left.
    + rewrite bool_decide_eq_true_2 by done. wp_step. try rewrite Hcur.
      split_conj; try done.
      * intros s. simpl. by rewrite increments_app, app_nil_r.
      * by left.
  - rewrite bool_decide_eq_false_2 by done.
    rewrite bool_decide_eq_false_2 by (intros H; by apply H).
    wp_call initializeThreadLocalEvents_wp; [|done..].
    intros r st1 (Hv1 & Hop1 & Hcur1 & Hinc1 & Hraw1 & Hfail & _).
    cbn [fst snd] in *. destruct r; cbn [negb].
    + assert (∃ vs1, raw_event_values st1.2 !! c = Some vs1) as [vs1 Hc1].
      { destruct Hraw1 as [->| ->]; [eauto|]. rewrite lookup_insert_eq. eauto. }
      destruct (Hv1) as [Hd1 Hh1]. destruct (Hh1 _ _ Hc1) as [Hlen1 _].
      wp_call zero_loop_wp; [|done..]. intros [] st2 ->.
      assert (valid catalog
        (st1.1, set_raw_event_values
                  (<[c:=replicate (NUMBER_OF_RAW_EVENTS catalog) 0]>
                     (raw_event_values st1.2)) st1.2)) as Hv2.
      { eapply (valid_resize st1 _ _ c); [done|done|done|apply length_replicate|apply zeros_range]. }
      wp_call enable_loop_wp; [|done].
      intros [] st3 (new & -> & Hinc3 & _). cbn [fst snd].
      wp_step. try rewrite Hcur. split_conj.
      * eapply valid_same; [exact Hv2|done|done].
      * intros _. simpl. done.
      * intros s. simpl. by rewrite increments_app, Hinc3, app_nil_r.
      * right. simpl. destruct Hraw1 as [->| ->]; [done|]. by rewrite insert_insert_eq.
      * left. split_conj; [done|done|]. simpl. apply lookup_insert_eq.
    + wp_step. try rewrite Hcur. split_conj; try done.
      * intros H. congruence.
      * right. split; [congruence|done].
Qed.


Lemma filter_valid_snoc (l : list Z) (fd : Z) :
  filter is_valid_fd (l ++ [fd]) =
  filter is_valid_fd l ++ (if fd =? -1 then [] else [fd]).
Proof.
  rewrite filter_app. f_equal. unfold is_valid_fd.
  destruct (Z.eqb_spec fd (-1)) as [->|Hne].
  - by rewrite filter_cons_False by (intros H; by apply H).
  - by rewrite filter_cons_True by done.
Qed.

(** The destructor of the holder. *)
Lemma PerfDescriptorsHolder_delete_wp st :
  length (descriptors st.1) = NUMBER_OF_RAW_EVENTS catalog →
  wp os (PerfDescriptorsHolder_delete catalog)
     (λ _ st', ∃ new,
        st' = (set_descriptors (replicate (NUMBER_OF_RAW_EVENTS catalog) (-1)) st.1,
               emits new st.2) ∧
        closed_fds new = filter is_valid_fd (descriptors st.1) ∧
        ioctls new = (λ fd, (fd, PERF_EVENT_IOC_DISABLE)) <$>
                       filter is_valid_fd (descriptors st.1) ∧
        failed_calls new = warned_failures new ∧
        length (log_lines new) = length (warned_failures new) ∧
        (∀ s, increments s new = []) ∧ opened_attrs new = [] ∧
        (filter is_valid_fd (descriptors st.1) = [] → new = [])) st.
Proof.
  intros Hd. destruct st as [tl sh]. cbn [fst snd] in *.
  unfold PerfDescriptorsHolder_delete.
  set (ds := descriptors tl) in *.
  eapply wp_mono; [|apply (wp_for_range os (λ (i : nat) st', ∃ new,
    st' = (set_descriptors (replicate i (-1) ++ drop i ds) tl, emits new sh) ∧
    closed_fds new = filter is_valid_fd (take i ds) ∧
    ioctls new = (λ fd, (fd, PERF_EVENT_IOC_DISABLE)) <$> filter is_valid_fd (take i ds) ∧
    failed_calls new = warned_failures new ∧
    length (log_lines new) = length (warned_failures new) ∧
    (∀ s, increments s new = []) ∧ opened_attrs new = [] ∧
    (filter is_valid_fd (take i ds) = [] → new = [])))].
  - intros [] st' (new & -> & H). cbn [plus] in H.
    rewrite take_ge in H by lia. exists new. split; [|done].
    cbn [plus]. by rewrite drop_ge, app_nil_r by lia.
  - exists []. cbn [replicate app]. rewrite drop_0, emits_nil.
    subst ds. by rewrite set_descriptors_id.
  - intros i st [_ Hi] (new & -> & Hcl & Hio & Hfail & Hlog & Hinc & Hop & Hnil).
    simpl in Hi.
    destruct (lookup_lt_is_Some_2 ds i) as [fd Hfd]; [lia|].
    rewrite (take_S_r _ _ _ Hfd), filter_valid_snoc.
    wp_step. cbn [set_descriptors descriptors].
    rewrite lookup_prefix_drop, Hfd by apply length_replicate.
    destruct (Z.eqb_spec fd (-1)) as [->|Hne].
    + wp_step. exists new. rewrite !app_nil_r. split_conj; try done.
      by rewrite (drop_S _ _ _ Hfd), replicate_S_end, <- app_assoc.
    + wp_step.
      match goal with |- context [EvIoctl _ _ ?v] => generalize v end. intros r1.
      wp_if; wp_step; wp_step.
      all: match goal with |- context [EvClose _ ?v] => generalize v end; intros r2.
      all: wp_if; wp_step; try wp_step; try wp_step.
      all: cbn [set_descriptors descriptors].
      all: rewrite lookup_prefix_drop, Hfd by apply length_replicate.
      all: eexists (new ++ _); split_conj;
        [ state_eq;
          rewrite insert_prefix_drop by (rewrite ?length_replicate; lia);
          rewrite replicate_S_end, <- !app_assoc; reflexivity
        | rewrite closed_fds_app, Hcl; reflexivity
        | rewrite ioctls_app, Hio, fmap_app; reflexivity
        | rewrite failed_calls_app, warned_failures_app, Hfail; f_equal
        | rewrite log_lines_app, warned_failures_app, !length_app, Hlog; f_equal
        | intros s; rewrite increments_app, Hinc; reflexivity
        | rewrite opened_attrs_app, Hop; reflexivity
        | intros H; by apply app_eq_nil in H as [_ ?] ].
      all: cbv [failed_calls warned_failures log_lines omap list_omap app length];
        repeat match goal with H : negb ?b = _ |- _ =>
                 destruct b; simpl in H; try discriminate H; clear H end;
        reflexivity.
Qed.
End Specs.
(** ** The log-once flag under interleaving *)

Lemma quiet_Ret {A} (a : A) : quiet (Ret a).
Proof. done. Qed.

Lemma quiet_Vis {A R} (e : action R) (k : R → prog A) :
  touches e = false → (∀ r, quiet (k r)) → quiet (Vis e k).
Proof. by split. Qed.

Lemma guarded_Ret {A} (a : A) : guarded (Ret a).
Proof. done. Qed.

Lemma try_branches_None {A R} (e : action R) (k : R → prog A) :
  touches e = false → try_branches e k = None.
Proof. destruct e; try done. by destruct f. Qed.

Lemma guarded_Vis {A R} (e : action R) (k : R → prog A) :
  touches e = false → (∀ r, guarded (k r)) → guarded (Vis e k).
Proof. intros He Hk. simpl. by rewrite try_branches_None. Qed.

Lemma guarded_CAS {A} (k : bool → prog A) :
  owes (k true) → quiet (k false) →
  guarded (Vis (CompareExchangeStrong PerfUnavailabilityLogged false true) k).
Proof. by split. Qed.

Lemma owes_Log {A} prio logger msg (k : unit → prog A) :
  is_line (Log prio logger msg) = true → (∀ r, quiet (k r)) →
  owes (Vis (Log prio logger msg) k).
Proof. intros He Hk. cbn [owes]. by rewrite He. Qed.

Lemma quiet_guarded {A} (p : prog A) : quiet p → guarded p.
Proof.
  induction p as [a|R e k IH]; [done|]. intros [He Hk].
  apply guarded_Vis; [done|]. intros r. by apply IH.
Qed.

Lemma quiet_bind {A B} (m : prog A) (f : A → prog B) :
  quiet m → (∀ a, quiet (f a)) → quiet (bind m f).
Proof.
  intros Hm Hf. induction m as [a|R e k IH]; simpl; [apply Hf|].
  destruct Hm as [He Hk]. split; [done|]. intros r. by apply IH.
Qed.

Lemma owes_bind {A B} (m : prog A) (f : A → prog B) :
  owes m → (∀ a, quiet (f a)) → owes (bind m f).
Proof.
  intros Hm Hf. induction m as [a|R e k IH]; [done|]. cbn [bind owes] in *.
  destruct (is_line e).
  - intros r. by apply quiet_bind.
  - destruct Hm as [He Hk]. split; [done|]. intros r. by apply IH.
Qed.

Lemma try_branches_bind {A B R} (e : action R) (k : R → prog A) (f : A → prog B) :
  try_branches e (λ r, bind (k r) f) =
  (λ x, (bind x.1 f, bind x.2 f)) <$> try_branches e k.
Proof. destruct e; try done. by destruct f0, expected, desired. Qed.

Lemma guarded_bind_quiet {A B} (m : prog A) (f : A → prog B) :
  guarded m → (∀ a, quiet (f a)) → guarded (bind m f).
Proof.
  intros Hm Hf. induction m as [a|R e k IH]; [apply quiet_guarded, Hf|].
  cbn [bind guarded] in *. rewrite try_branches_bind.
  destruct (try_branches e k) as [[stored lost]|]; simpl.
  - destruct Hm as [Ho Hq]. split; [by apply owes_bind|by apply quiet_bind].
  - destruct Hm as [He Hk]. split; [done|]. intros r. by apply IH.
Qed.

Lemma quiet_bind_guarded {A B} (m : prog A) (f : A → prog B) :
  quiet m → (∀ a, guarded (f a)) → guarded (bind m f).
Proof.
  intros Hm Hf. induction m as [a|R e k IH]; simpl; [apply Hf|].
  destruct Hm as [He Hk]. rewrite try_branches_None by done.
  split; [done|]. intros r. by apply IH.
Qed.

Lemma quiet_for_range lo n body :
  (∀ i, quiet (body i)) → quiet (for_range lo n body).
Proof.
  intros Hbody. revert lo. induction n as [|n IH]; intros lo; simpl; [done|].
  apply quiet_bind; [apply Hbody|]. intros _. apply IH.
Qed.

Lemma quiet_index {A} (l : list A) i : quiet (index l i).
Proof.
  unfold index. destruct (l !! i); [apply quiet_Ret|].
  apply quiet_Vis; [done|]. intros [].
Qed.

(** Proves that a program of the file is [quiet]. *)
Ltac quiet_tac :=
  repeat first
    [ apply quiet_Ret
    | apply quiet_index
    | apply quiet_for_range; intros ?
    | apply quiet_Vis; [reflexivity|intros ?]
    | apply quiet_bind; [|intros ?]
    | match goal with
      | |- quiet (if ?b then _ else _) => destruct b
      | |- quiet (match ?x with _ => _ end) => destruct x
      | |- quiet (act _) => unfold act
      | |- quiet (LOG_WARNING _ _) => unfold LOG_WARNING
      | |- quiet (LOG_INFO _ _) => unfold LOG_INFO
      | |- quiet (perfEventOpenDisabled _ _ _ _) =>
          unfold perfEventOpenDisabled, openPerfEvent
      end ].

Lemma quiet_getPerfEventParanoid result : quiet (getPerfEventParanoid result).
Proof. unfold getPerfEventParanoid. quiet_tac. Qed.

Lemma guarded_unavailable msg :
  is_line (Log PRIO_INFORMATION PerfEventsCounters_getLogger msg) = true →
  guarded (stored ← act (CompareExchangeStrong PerfUnavailabilityLogged false true);
           (if stored then LOG_INFO PerfEventsCounters_getLogger msg else Ret tt);;
           Ret false).
Proof.
  intros Hmsg. apply guarded_CAS; unfold LOG_INFO, act; cbn [bind].
  - apply owes_Log; [done|]. intros _. apply quiet_Ret.
  - apply quiet_Ret.
Qed.

Lemma guarded_initializeThreadLocalEvents catalog c :
  guarded (initializeThreadLocalEvents catalog c).
Proof.
  unfold initializeThreadLocalEvents.
  apply guarded_Vis; [done|]. intros opened. cbn [bind].
  destruct opened; [apply guarded_Ret|].
  apply quiet_bind_guarded; [apply quiet_getPerfEventParanoid|].
  intros [ok p]. destruct (negb ok); [by apply guarded_unavailable|].
  apply guarded_Vis; [done|]. intros cap. cbn [bind].
  destruct (_ && _); [by apply guarded_unavailable|].
  apply quiet_guarded. quiet_tac.
Qed.

Lemma guarded_initializeProfileEvents catalog c :
  guarded (initializeProfileEvents catalog c).
Proof.
  unfold initializeProfileEvents.
  apply guarded_Vis; [done|]. intros current. cbn [bind].
  destruct (bool_decide _); [apply guarded_Ret|].
  destruct (bool_decide _); [apply quiet_guarded; quiet_tac|].
  apply guarded_bind_quiet; [apply guarded_initializeThreadLocalEvents|].
  intros ok. quiet_tac.
Qed.

Section LogOnce.
Variable os : OS.

Lemma unavailability_lines_snoc tr e :
  unavailability_lines (tr ++ [e]) =
  (unavailability_lines tr + (if is_unavailability_line e then 1 else 0))%nat.
Proof.
  unfold unavailability_lines. rewrite filter_app, length_app. f_equal.
  rewrite filter_cons, filter_nil.
  case_decide as H; destruct (is_unavailability_line e); simpl in *; done.
Qed.

Lemma lines_emit e sh :
  unavailability_lines (trace (emit e sh)) =
  (unavailability_lines (trace sh) + (if is_unavailability_line e then 1 else 0))%nat.
Proof. apply unavailability_lines_snoc. Qed.

(** Unfolds one step of the handler in a hypothesis. *)
Ltac handle_cases Hh :=
  cbn [handle] in Hh; unfold syscall in Hh; repeat case_match; simplify_eq;
  cbn [fst snd]; rewrite ?lines_emit.

(** An action that does not concern the flag leaves it and the number of
    lines alone. *)
Lemma handle_untouched {R} (e : action R) tl sh r st' :
  touches e = false →
  handle os e (tl, sh) = Some (r, st') →
  perf_unavailability_logged st'.2 = perf_unavailability_logged sh ∧
  unavailability_lines (trace st'.2) = unavailability_lines (trace sh).
Proof.
  destruct e; intros He Hh; handle_cases Hh; try done; try (split; [done|simpl; lia]).
  - by destruct f.
  - destruct msg; try done; split; try done; simpl; lia.
Qed.

(** The attempt stores exactly when the flag is clear. *)
Lemma handle_try {A R} (e : action R) (k : R → prog A) stored lost tl sh r st' :
  try_branches e k = Some (stored, lost) →
  handle os e (tl, sh) = Some (r, st') →
  (perf_unavailability_logged sh = false ∧ k r = stored ∧
   st' = (tl, set_flag PerfUnavailabilityLogged true sh)) ∨
  (perf_unavailability_logged sh = true ∧ k r = lost ∧ st' = (tl, sh)).
Proof.
  destruct e; try done. destruct f, expected, desired; try done.
  intros [= <- <-]. simpl. destruct (perf_unavailability_logged sh) eqn:Hf; simpl.
  - intros [= <- <-]. by right.
  - intros [= <- <-]. by left.
Qed.

(** The line of a thread that owes it. *)
Lemma handle_line {R} (e : action R) tl sh r st' :
  is_line e = true →
  handle os e (tl, sh) = Some (r, st') →
  perf_unavailability_logged st'.2 = perf_unavailability_logged sh ∧
  unavailability_lines (trace st'.2) = S (unavailability_lines (trace sh)).
Proof.
  destruct e; try done. simpl. intros He [= <- <-]. simpl.
  rewrite unavailability_lines_snoc. split; [done|].
  destruct msg; try done; simpl; lia.
Qed.

Lemma owes_not_finished {A} (t : thread A) : owes (code t) → ¬ finished t.
Proof. unfold finished. destruct (code t); simpl; tauto. Qed.

(** One step of one thread keeps the process in one of the three states. *)
Lemma step_log_once {A} (m : machine A) i th th' sh' :
  log_once_state m →
  m.1 !! i = Some th →
  step_thread os th m.2 = Some (th', sh') →
  log_once_state (<[i:=th']> m.1, sh').
Proof.
  destruct m as [ts sh]. destruct th as [tl p]. cbn [fst snd].
  intros HJ Hth Hstep. unfold step_thread in Hstep. cbn [code locals] in Hstep.
  destruct p as [a|R e k]; [done|].
  destruct (handle os e (tl, sh)) as [[r st']|] eqn:Hh; [|done].
  injection Hstep as <- <-.
  assert (∀ (P : thread A → Prop) t', Forall P ts → P t' → Forall P (<[i:=t']> ts))
    as Hins.
  { intros P t' Hall Ht'. apply Forall_insert; done. }
  unfold log_once_state in *. cbn [fst snd] in *.
  destruct HJ as [(Hf & Hl & Hall)|[(Hf & Hl & j & tj & Hj & Hjo & Hothers)|(Hf & Hl & Hall)]].
  - (* the flag is clear *)
    pose proof (Forall_lookup_1 _ _ _ _ Hall Hth) as Hg. cbn [code guarded] in Hg.
    destruct (try_branches e k) as [[stored lost]|] eqn:Htry.
    + destruct Hg as [Ho Hq].
      destruct (handle_try _ _ _ _ _ _ _ _ Htry Hh) as [(_ & Hk & ->)|(Hf' & _)];
        [|congruence].
      right. left. split_conj; try done.
      exists i, (Thread tl (k r)). split_conj.
      * apply list_lookup_insert_eq. by eapply lookup_lt_Some.
      * by rewrite Hk.
      * intros j' t' Hne Hj'. rewrite list_lookup_insert_ne in Hj' by done.
        by apply (Forall_lookup_1 _ _ _ _ Hall Hj').
    + destruct Hg as [He Hk].
      destruct (handle_untouched _ _ _ _ _ He Hh) as [Hf' Hl'].
      left. split_conj; [congruence|congruence|]. apply Hins; [done|]. apply Hk.
  - (* one thread owes the line *)
    destruct (decide (i = j)) as [->|Hne].
    + assert (tj = Thread tl (Vis e k)) as -> by congruence.
      cbn [code owes] in Hjo. destruct (is_line e) eqn:Hline.
      * destruct (handle_line _ _ _ _ _ Hline Hh) as [Hf' Hl'].
        right. right. split_conj; [congruence|cbn [snd] in *; congruence|].
        apply Forall_lookup. intros j' t' Hj'.
        destruct (decide (j' = j)) as [->|Hne'].
        -- rewrite list_lookup_insert_eq in Hj' by (by eapply lookup_lt_Some).
           injection Hj' as <-. apply quiet_guarded, Hjo.
        -- rewrite list_lookup_insert_ne in Hj' by done. by eapply Hothers.
      * destruct Hjo as [Hflag Hk].
        assert (touches e = false) as He by (unfold touches; by rewrite Hline, Hflag).
        destruct (handle_untouched _ _ _ _ _ He Hh) as [Hf' Hl'].
        right. left. split_conj; [congruence|congruence|].
        exists j, (Thread st'.1 (k r)). split_conj.
        -- apply list_lookup_insert_eq. by eapply lookup_lt_Some.
        -- apply Hk.
        -- intros j' t' Hne' Hj'. rewrite list_lookup_insert_ne in Hj' by done.
           by eapply Hothers.
    + pose proof (Hothers _ _ Hne Hth) as Hg. cbn [code guarded] in Hg.
      assert (perf_unavailability_logged st'.2 = true ∧
              unavailability_lines (trace st'.2) = 0%nat ∧
              guarded (k r)) as (Hf' & Hl' & Hg').
      { destruct (try_branches e k) as [[stored lost]|] eqn:Htry.
        - destruct Hg as [Ho Hq].
          destruct (handle_try _ _ _ _ _ _ _ _ Htry Hh) as [(Hf' & _)|(_ & Hk & ->)];
            [congruence|].
          split_conj; [done|done|]. rewrite Hk. by apply quiet_guarded.
        - destruct Hg as [He Hk].
          destruct (handle_untouched _ _ _ _ _ He Hh) as [Hf' Hl'].
          split_conj; [congruence|congruence|apply Hk]. }
      right. left. split_conj; [done|done|].
      exists j, tj. split_conj; [by rewrite list_lookup_insert_ne|done|].
      intros j' t' Hne' Hj'. destruct (decide (j' = i)) as [->|Hne''].
      * rewrite list_lookup_insert_eq in Hj' by (by eapply lookup_lt_Some).
        by injection Hj' as <-.
      * rewrite list_lookup_insert_ne in Hj' by done. by eapply Hothers.
  - (* the line is logged *)
    pose proof (Forall_lookup_1 _ _ _ _ Hall Hth) as Hg. cbn [code guarded] in Hg.
    assert (perf_unavailability_logged st'.2 = true ∧
            unavailability_lines (trace st'.2) = 1%nat ∧
            guarded (k r)) as (Hf' & Hl' & Hg').
    { destruct (try_branches e k) as [[stored lost]|] eqn:Htry.
      - destruct Hg as [Ho Hq].
        destruct (handle_try _ _ _ _ _ _ _ _ Htry Hh) as [(Hf' & _)|(_ & Hk & ->)];
          [congruence|].
        split_conj; [done|done|]. rewrite Hk. by apply quiet_guarded.
      - destruct Hg as [He Hk].
        destruct (handle_untouched _ _ _ _ _ He Hh) as [Hf' Hl'].
        split_conj; [congruence|congruence|apply Hk]. }
    right. right. split_conj; [done|done|]. by apply Hins.
Qed.


Lemma try_sets_flag {R} (e : action R) tl sh r st' :
  is_try e = true →
  handle os e (tl, sh) = Some (r, st') →
  perf_unavailability_logged st'.2 = true.
Proof.
  destruct e; try done.
  destruct f, expected, desired; try done. intros _ H. simpl in H.
  case_bool_decide as Hf; simplify_eq; [done|].
  simpl. by destruct (perf_unavailability_logged sh).
Qed.

Lemma step_tried_or_will {A} (m : machine A) i th th' sh' :
  log_once_state m →
  tried_or_will os m →
  m.1 !! i = Some th →
  step_thread os th m.2 = Some (th', sh') →
  tried_or_will os (<[i:=th']> m.1, sh').
Proof.
  intros HJ HK Hth Hstep.
  destruct HK as [Hf|Hall].
  - (* the flag is never cleared *)
    left. destruct m as [ts sh]. destruct th as [tl p].
    unfold log_once_state in HJ. cbn [fst snd] in *.
    destruct HJ as [(Hf0 & _)|HJ]; [congruence|].
    unfold step_thread in Hstep. cbn [code locals] in Hstep.
    destruct p as [a|R e k]; [done|].
    destruct (handle os e (tl, sh)) as [[r st']|] eqn:Hh; [|done].
    injection Hstep as <- <-.
    assert (guarded (Vis e k) ∨ owes (Vis e k)) as [Hg|Ho].
    { destruct HJ as [(_ & _ & j & tj & Hj & Hjo & Hothers)|(_ & _ & Hall)].
      - destruct (decide (i = j)) as [->|Hne].
        + right. assert (tj = Thread tl (Vis e k)) as -> by congruence. done.
        + left. apply (Hothers _ _ Hne Hth).
      - left. apply (Forall_lookup_1 _ _ _ _ Hall Hth). }
    + cbn [guarded] in Hg.
      destruct (try_branches e k) as [[stored lost]|] eqn:Htry.
      * destruct (handle_try _ _ _ _ _ _ _ _ Htry Hh) as [(Hf'' & _)|(_ & _ & ->)];
          [congruence|done].
      * destruct Hg as [He _].
        destruct (handle_untouched _ _ _ _ _ He Hh) as [Hf'' _]. congruence.
    + cbn [owes] in Ho. destruct (is_line e) eqn:Hline.
      * destruct (handle_line _ _ _ _ _ Hline Hh) as [Hf'' _]. congruence.
      * destruct Ho as [Hflag _].
        assert (touches e = false) as He by (unfold touches; by rewrite Hline, Hflag).
        destruct (handle_untouched _ _ _ _ _ He Hh) as [Hf'' _]. congruence.
  - destruct m as [ts sh]. destruct th as [tl p]. cbn [fst snd] in *.
    pose proof (Forall_lookup_1 _ _ _ _ Hall Hth) as Hm. cbn [code locals] in Hm.
    unfold step_thread in Hstep. cbn [code locals] in Hstep.
    destruct p as [a|R e k]; [done|].
    destruct (handle os e (tl, sh)) as [[r st']|] eqn:Hh; [|done].
    injection Hstep as <- <-.
    cbn [must_try] in Hm. destruct Hm as [Htry|[He Hk]].
    + left. by eapply try_sets_flag.
    + right. apply Forall_insert; [done|]. cbn [code locals]. by eapply Hk.
Qed.

Lemma sched_invariant {A} schedule (m m' : machine A) :
  log_once_state m → tried_or_will os m →
  sched os schedule m = Some m' →
  log_once_state m' ∧ tried_or_will os m' ∧ length m'.1 = length m.1.
Proof.
  revert m. induction schedule as [|i schedule IH]; intros m HJ HK Hs; simpl in Hs.
  - by injection Hs as <-.
  - destruct (m.1 !! i) as [th|] eqn:Hth; [|done].
    destruct (step_thread os th m.2) as [[th' sh']|] eqn:Hstep; [|done].
    apply IH in Hs as (HJ' & HK' & Hlen).
    + split_conj; [done|done|]. rewrite Hlen. cbn [fst]. apply length_insert.
    + by eapply step_log_once.
    + by eapply step_tried_or_will.
Qed.
End LogOnce.

(** *** The flags are never cleared *)

Lemma sets_only_bind {A B} (m : prog A) (f : A → prog B) :
  sets_only m → (∀ a, sets_only (f a)) → sets_only (bind m f).
Proof.
  intros Hm Hf. induction m as [a|R e k IH]; simpl; [apply Hf|].
  destruct Hm as [He Hk]. split; [done|]. intros r. by apply IH.
Qed.

Lemma sets_only_for_range lo n body :
  (∀ i, sets_only (body i)) → sets_only (for_range lo n body).
Proof.
  intros Hbody. revert lo. induction n as [|n IH]; intros lo; simpl; [done|].
  apply sets_only_bind; [apply Hbody|]. intros _. apply IH.
Qed.

Lemma sets_only_index {A} (l : list A) i : sets_only (index l i).
Proof. unfold index. destruct (l !! i); [done|]. split; [done|]. intros []. Qed.

Lemma sets_only_Vis {A R} (e : action R) (k : R → prog A) :
  only_sets e = true → (∀ r, sets_only (k r)) → sets_only (Vis e k).
Proof. by split. Qed.

(** Proves that a program of the file never clears a flag. *)
Ltac sets_only_tac :=
  repeat first
    [ exact I
    | apply sets_only_index
    | apply sets_only_for_range; intros ?
    | apply sets_only_Vis; [reflexivity|intros ?]
    | apply sets_only_bind; [|intros ?]
    | match goal with
      | |- sets_only (if ?b then _ else _) => destruct b
      | |- sets_only (match ?x with _ => _ end) => destruct x
      | |- sets_only (act _) => unfold act
      | |- sets_only (LOG_WARNING _ _) => unfold LOG_WARNING
      | |- sets_only (LOG_INFO _ _) => unfold LOG_INFO
      | |- sets_only (perfEventOpenDisabled _ _ _ _) =>
          unfold perfEventOpenDisabled, openPerfEvent
      | |- sets_only (getPerfEventParanoid _) => unfold getPerfEventParanoid
      | |- sets_only (initializeThreadLocalEvents _ _) =>
          unfold initializeThreadLocalEvents
      end ].

Lemma sets_only_initializeProfileEvents catalog c :
  sets_only (initializeProfileEvents catalog c).
Proof. unfold initializeProfileEvents. sets_only_tac. Qed.

Lemma handle_only_sets os {R} (e : action R) tl sh r st' f :
  only_sets e = true →
  handle os e (tl, sh) = Some (r, st') →
  get_flag f sh = true → get_flag f st'.2 = true.
Proof.
  destruct e; intros He Hh; cbn [handle] in Hh; unfold syscall in Hh;
    repeat case_match; simplify_eq; cbn [fst snd]; try done.
  cbn in He. subst desired. by destruct f, f0.
Qed.

Lemma sched_flags_monotone os {A} schedule (m m' : machine A) :
  Forall (λ t, sets_only (code t)) m.1 →
  sched os schedule m = Some m' →
  Forall (λ t, sets_only (code t)) m'.1 ∧
  ∀ f, get_flag f m.2 = true → get_flag f m'.2 = true.
Proof.
  revert m. induction schedule as [|i schedule IH]; intros [ts sh] Hall Hs;
    simpl in Hs.
  - by injection Hs as <-.
  - destruct (ts !! i) as [[tl p]|] eqn:Hth; [|done].
    unfold step_thread in Hs. cbn [code locals] in Hs.
    destruct p as [a|R e k]; [done|].
    destruct (handle os e (tl, sh)) as [[r st']|] eqn:Hh; [|done].
    pose proof (Forall_lookup_1 _ _ _ _ Hall Hth) as [He Hk].
    apply IH in Hs as [Hall' Hmono].
    + split; [done|]. intros f Hf. apply Hmono. cbn [snd] in *.
      by eapply handle_only_sets.
    + cbn [fst]. apply Forall_insert; [done|]. apply Hk.
Qed.

Lemma to_Int32_small v : - 2 ^ 31 ≤ v < 2 ^ 31 → to_Int32 v = v.
Proof.
  intros Hv. unfold to_Int32. rewrite Z.mod_small by lia. lia.
Qed.

Lemma to_Int64_small v : - 2 ^ 63 ≤ v < 2 ^ 63 → to_Int64 v = v.
Proof.
  intros Hv. unfold to_Int64. rewrite Z.mod_small by lia. lia.
Qed.

(** Runs the next action of a thread that is still to try the flag. *)
Ltac must_step :=
  cbn [must_try]; right; split; [reflexivity|];
  let sh := fresh "sh" in
  let r := fresh "r" in
  let st' := fresh "st" in
  let Hh := fresh "Hh" in
  intros sh r st' Hh; cbn [handle] in Hh; unfold syscall in Hh;
  cbn [fst snd trace emit emits] in Hh;
  injection Hh as <- <-; cbn [fst snd].

(** A thread that has just started and calls [initializeProfileEvents] in a
    process to which collection is unavailable reaches the attempt on the
    flag, whatever the other threads do in between. *)
Lemma must_try_first_use os catalog c :
  collection_unavailable os →
  must_try os (initializeProfileEvents catalog c) (thread_start catalog).
Proof.
  intros Hos.
  unfold initializeProfileEvents, initializeThreadLocalEvents, getPerfEventParanoid, act.
  cbn [bind].
  must_step. cbn [thread_start current_thread_counters].
  rewrite bool_decide_eq_false_2 by done.
  rewrite bool_decide_eq_false_2 by (intros H; by apply H).
  cbn [bind]. must_step. cbn [thread_start thread_events_descriptors_opened bind].
  must_step.
  destruct Hos as [Hfopen|(Hfopen & Hfgets & Hstrtol & Hcap)].
  - rewrite Hfopen. cbn [negb bind]. by left.
  - rewrite Hfopen. cbn [negb bind]. must_step. must_step.
    match goal with |- context [os_fgets os ?tr ?n] =>
      destruct (Hfgets tr n) as [str ->] end.
    cbn [bind]. must_step.
    match goal with |- context [os_strtol os ?tr ?s] =>
      pose proof (Hstrtol tr s) as Hv; generalize dependent (os_strtol os tr s) end.
    intros v Hv. rewrite to_Int64_small by lia.
    replace (v =? 0) with false by (symmetry; apply Z.eqb_neq; lia).
    cbn [bind andb]. must_step. rewrite Hcap.
    rewrite to_Int32_small by lia.
    replace (3 <=? v) with true by (symmetry; apply Z.leb_le; lia).
    cbn [negb andb bind]. by left.
Qed.

(** ** The trace only grows *)

Lemma handle_trace_extends os {R} (e : action R) st r st' :
  handle os e st = Some (r, st') → ∃ new, trace st'.2 = trace st.2 ++ new.
Proof.
  destruct st as [tl sh].
  destruct e; intros Hh; cbn [handle] in Hh; unfold syscall in Hh;
    repeat case_match; simplify_eq; cbn [fst snd];
    try (by exists []; rewrite app_nil_r); try (by eexists [_]).
  by destruct f; exists []; rewrite app_nil_r.
Qed.

Lemma run_trace_extends os {A} (m : prog A) st a st' :
  run os m st = Some (a, st') → ∃ new, trace st'.2 = trace st.2 ++ new.
Proof.
  revert st. induction m as [a0|R e k IH]; intros st Hrun; simpl in Hrun.
  - injection Hrun as <- <-. exists []. by rewrite app_nil_r.
  - destruct (handle os e st) as [[r st1]|] eqn:Hh; [|done].
    apply handle_trace_extends in Hh as [new1 Hnew1].
    apply IH in Hrun as [new2 Hnew2].
    exists (new1 ++ new2). by rewrite Hnew2, Hnew1, app_assoc.
Qed.

(** A thread that has not opened its handles reads the level file again. *)
Lemma initializeThreadLocalEvents_probes os catalog c st r st' :
  thread_events_descriptors_opened st.1 = false →
  run os (initializeThreadLocalEvents catalog c) st = Some (r, st') →
  ∃ new, trace st'.2 = trace st.2 ++ EvFopen (os_fopen os (trace st.2)) :: new.
Proof.
  intros Hop. rewrite initializeThreadLocalEvents_after_probe.
  destruct st as [tl sh]. cbn [fst snd] in *.
  rewrite run_bind.
  change (run os (act GetOpened) (tl, sh))
    with (Some (thread_events_descriptors_opened tl, (tl, sh))).
  rewrite Hop, run_bind.
  pose proof (getPerfEventParanoid_wp os 0 (tl, sh)) as Hwp.
  apply wp_run in Hwp as ([ok p] & st1 & -> & new1 & -> & _).
  intros Hrun. apply run_trace_extends in Hrun as [new2 Hnew2].
  cbn [fst snd emits trace] in Hnew2.
  exists (new1 ++ new2). by rewrite Hnew2, <- app_assoc.
Qed.

(** ** The process catalog *)

Lemma find_raw_value_cpu_cycles vs :
  find_raw_value raw_events_info vs PERF_TYPE_HARDWARE PERF_COUNT_HW_CPU_CYCLES
  = default 0 (vs !! 0%nat).
Proof. reflexivity. Qed.

Lemma find_raw_value_instructions vs :
  find_raw_value raw_events_info vs PERF_TYPE_HARDWARE PERF_COUNT_HW_INSTRUCTIONS
  = default 0 (vs !! 1%nat).
Proof. reflexivity. Qed.

Lemma find_raw_value_ref_cpu_cycles vs :
  find_raw_value raw_events_info vs PERF_TYPE_HARDWARE PERF_COUNT_HW_REF_CPU_CYCLES
  = default 0 (vs !! 9%nat).
Proof. reflexivity. Qed.

(** Every raw increment carries the metric of a catalog entry. *)
Lemma reported_events catalog ds vs x :
  x ∈ reported catalog ds vs → ∃ info, info ∈ catalog ∧ x.1 = profile_event info.
Proof.
  unfold reported. intros Hx. apply list_elem_of_omap in Hx as ([info [fd v]] & Hin & Hf).
  simpl in Hf. destruct (fd =? -1); [done|]. injection Hf as <-.
  exists info. split; [|done]. by apply elem_of_zip_l in Hin.
Qed.

(** Truncating and flooring division agree on [UInt64] values. *)
Lemma ratio_quot n d :
  is_UInt64 n → is_UInt64 d → ratio n d = if d =? 0 then 0 else n ÷ d.
Proof.
  unfold ratio, is_UInt64. intros Hn Hd. destruct (Z.eqb_spec d 0); [done|].
  symmetry. apply Z.quot_div_nonneg; lia.
Qed.

(** ** Calls that return at once *)

Lemma finalizeProfileEvents_inactive os catalog st counters sink :
  current_thread_counters st.1 ≠ Some counters →
  run os (finalizeProfileEvents catalog counters sink) st = Some (tt, st).
Proof.
  intros H. unfold finalizeProfileEvents. simpl.
  by rewrite bool_decide_eq_true_2 by done.
Qed.

Lemma filter_valid_released n : filter is_valid_fd (replicate n (-1)) = [].
Proof.
  induction n as [|n IH]; [done|]. simpl.
  rewrite filter_cons_False; [done|]. unfold is_valid_fd. intros H. by apply H.
Qed.

Lemma live_insert c c' vs (m : gmap addr (list Z)) :
  is_Some (m !! c') → is_Some (<[c:=vs]> m !! c').
Proof. intros H. apply lookup_insert_is_Some. destruct (decide (c = c')); auto. Qed.

(** ** One thread alone

    The interleaving semantics of a single thread is the sequential one. *)
Lemma sched_alone os {A} (p : prog A) tl sh a st' :
  run os p (tl, sh) = Some (a, st') →
  ∃ schedule, sched os schedule ([Thread tl p], sh) = Some ([Thread st'.1 (Ret a)], st'.2).
Proof.
  revert tl sh. induction p as [a0|R e k IH]; intros tl sh Hrun; simpl in Hrun.
  - injection Hrun as <- <-. by exists [].
  - destruct (handle os e (tl, sh)) as [[r [tl1 sh1]]|] eqn:Hh; [|done].
    apply IH in Hrun as [schedule Hs].
    exists (0%nat :: schedule). simpl. unfold step_thread. cbn [code locals].
    by rewrite Hh.
Qed.

(** * The properties *)

(** Solves [valid catalog st] for a concrete state whose counters objects
    are all zero. *)
Ltac small_values :=
  first [ apply (zeros_range _)
        | repeat (apply Forall_cons; split; [unfold is_UInt64; lia|]);
          by apply Forall_nil ].

Ltac valid_zero :=
  split; [reflexivity|];
  let c := fresh "c" in
  let vs := fresh "vs" in
  let H := fresh "H" in
  intros c vs H; unfold fresh, fresh2, measuring in H;
  cbn [snd raw_event_values process_start] in H;
  repeat (apply lookup_insert_Some in H as [[? ?]|[_ H]];
          [subst; split; [reflexivity|small_values]|]);
  apply lookup_singleton_Some in H as [? ?];
  subst; split; [reflexivity|small_values].

(** ** Sample runs *)

(** At level 3 without the capability, the first use logs one line and
    leaves the thread idle with its handles unopened. *)
Example refused_first_use :
  (λ r : unit * State, (r.2.1, trace r.2.2, perf_unavailability_logged r.2.2)) <$>
    run os_refusing (initializeProfileEvents raw_events_info 7%nat) fresh
  = Some (thread_start raw_events_info,
          [ EvFopen true; EvFgets 3 (Some ("3" ++ LF)%string); EvFclose;
            EvStrtol ("3" ++ LF) 3;
            EvHasLinuxCapability CAP_SYS_ADMIN false;
            EvLog PRIO_INFORMATION LoggerPerfEventsCounters MsgNotEnoughPermissions ],
          true).
Proof. vm_compute. reflexivity. Qed.

(** The handles 10 and 11 are released; the calls on 11 fail. *)
Example release_with_failures :
  (λ r : unit * State, (descriptors r.2.1, trace r.2.2)) <$>
    run os_failing_close (PerfDescriptorsHolder_delete raw_events_info) measuring
  = Some (replicate 18 (-1),
          [ EvIoctl 10 PERF_EVENT_IOC_DISABLE 0; EvClose 10 0;
            EvIoctl 11 PERF_EVENT_IOC_DISABLE (-1);
            EvLog PRIO_WARNING LoggerPerfDescriptorsHolder (MsgCantDisable 11);
            EvClose 11 (-1);
            EvLog PRIO_WARNING LoggerPerfDescriptorsHolder (MsgCantClose 11 9) ]).
Proof. vm_compute. reflexivity. Qed.

(** The region of the two-entry scenario, step by step. *)
Example two_entry_region :
  (λ r : unit * State, trace r.2.2) <$>
    run os_seeded (noop_region cycles_and_instructions 7%nat 99%nat) fresh2
  = Some [ EvFopen true; EvFgets 3 (Some ("1" ++ LF)%string); EvFclose;
           EvStrtol ("1" ++ LF) 1;
           EvHasLinuxCapability CAP_SYS_ADMIN false;
           EvPerfEventOpen (attr_of 1 false (hardwareEvent 0
                              ProfileEvents.PERF_COUNT_HW_CPU_CYCLES)) 0 (-1) (-1) 0 10;
           EvPerfEventOpen (attr_of 1 false (hardwareEvent 1
                              ProfileEvents.PERF_COUNT_HW_INSTRUCTIONS)) 0 (-1) (-1) 0 11;
           EvIoctl 10 PERF_EVENT_IOC_ENABLE 0;
           EvIoctl 11 PERF_EVENT_IOC_ENABLE 0;
           EvRead 10 (Some 1000); EvRead 11 (Some 500);
           EvIncrement 99 ProfileEvents.PERF_COUNT_HW_CPU_CYCLES 1000;
           EvIoctl 10 PERF_EVENT_IOC_DISABLE 0;
           EvIoctl 10 PERF_EVENT_IOC_RESET 0;
           EvIncrement 99 ProfileEvents.PERF_COUNT_HW_INSTRUCTIONS 500;
           EvIoctl 11 PERF_EVENT_IOC_DISABLE 0;
           EvIoctl 11 PERF_EVENT_IOC_RESET 0;
           EvLog PRIO_WARNING LoggerPerfEventsCounters (MsgCantFindPerfEventInfo 0 9);
           EvIncrement 99 ProfileEvents.PERF_CUSTOM_INSTRUCTIONS_PER_CPU_CYCLE_SCALED 0;
           EvIncrement 99 ProfileEvents.PERF_CUSTOM_INSTRUCTIONS_PER_CPU_CYCLE 0 ].
Proof. vm_compute. reflexivity. Qed.

(** Three threads race to the flag: one line. *)
Example race_of_three :
  (λ m : machine unit, trace m.2) <$>
    sched os_without_perf racing_schedule three_threads
  = Some [ EvFopen false; EvFopen false; EvFopen false;
           EvLog PRIO_INFORMATION LoggerPerfEventsCounters MsgPerfEventsUnsupported ].
Proof. vm_compute. reflexivity. Qed.

(** ** Finalizing a session that is not the active one *)

(** C1, as the code has it: [finalizeProfileEvents] on a session that is not
    the active session of the thread (in particular one whose
    [initializeProfileEvents] failed or was never called) is a no-op: it
    returns at once, sends nothing to the sink and leaves the whole state,
    the trace included, as it was. *)
Theorem finalize_inactive_noop os catalog st counters sink :
  current_thread_counters st.1 ≠ Some counters →
  run os (finalizeProfileEvents catalog counters sink) st = Some (tt, st).
Proof.
  intros Hother. unfold finalizeProfileEvents.
  rewrite run_bind.
  change (run os (act GetCurrent) st) with (Some (current_thread_counters st.1, st)).
  cbn beta iota. by rewrite bool_decide_eq_true_2 by done.
Qed.

Lemma finalize_inactive_noop_witness :
  current_thread_counters fresh.1 ≠ Some 7%nat ∧
  run os_without_perf (finalizeProfileEvents raw_events_info 7%nat 99%nat) fresh
  = Some (tt, fresh).
Proof.
  split; [discriminate|].
  apply (finalize_inactive_noop os_without_perf raw_events_info fresh 7%nat 99%nat).
  discriminate.
Defined.

(** C1 as stated fails: on a thread that has just started, and again after
    an [initializeProfileEvents] that failed, [finalizeProfileEvents]
    reports nothing at all to the sink. *)
Lemma finalize_never_started_reports_nothing :
  ¬ reports os_without_perf raw_events_info fresh 7%nat 99%nat ∧
  ∃ st, run os_without_perf (initializeProfileEvents raw_events_info 7%nat) fresh
        = Some (tt, st) ∧
        ¬ reports os_without_perf raw_events_info st 7%nat 99%nat.
Proof.
  split.
  - intros (st' & Hrun & Hne). vm_compute in Hrun. injection Hrun as <-.
    by apply Hne.
  - eexists. split; [vm_compute; reflexivity|].
    intros (st' & Hrun & Hne). vm_compute in Hrun. injection Hrun as <-.
    by apply Hne.
Qed.

(** ** A second session on a busy thread *)

(** C5: when another session is active on the thread,
    [initializeProfileEvents] only logs a warning: the thread-local
    variables (the active-session marker, the descriptors, the opened flag),
    the flags and the values of every counters object are unchanged, and the
    trace grows by that one log line, so no handle is opened, enabled or
    disabled. *)
Theorem initialize_on_busy_thread os catalog st c1 c2 :
  current_thread_counters st.1 = Some c1 →
  c2 ≠ c1 →
  ∃ st',
    run os (initializeProfileEvents catalog c2) st = Some (tt, st') ∧
    st'.1 = st.1 ∧
    raw_event_values st'.2 = raw_event_values st.2 ∧
    perf_unavailability_logged st'.2 = perf_unavailability_logged st.2 ∧
    particular_events_unavailability_logged st'.2 =
      particular_events_unavailability_logged st.2 ∧
    trace st'.2 =
      trace st.2 ++ [EvLog PRIO_WARNING LoggerPerfEventsCounters MsgOnlyOneInstance] ∧
    opened_attrs (trace st'.2) = opened_attrs (trace st.2) ∧
    ioctls (trace st'.2) = ioctls (trace st.2).
Proof.
  intros H1 H2. eexists. split.
  - unfold initializeProfileEvents. simpl. rewrite H1.
    rewrite bool_decide_eq_false_2 by congruence.
    by rewrite bool_decide_eq_true_2 by done.
  - simpl. split_conj; try done.
    + by rewrite opened_attrs_app, app_nil_r.
    + by rewrite ioctls_app, app_nil_r.
Qed.

Lemma initialize_on_busy_thread_witness :
  ∃ st',
    run os_level2 (initializeProfileEvents raw_events_info 8%nat) measuring
    = Some (tt, st') ∧
    st'.1 = measuring.1 ∧
    raw_event_values st'.2 = raw_event_values measuring.2 ∧
    perf_unavailability_logged st'.2 = perf_unavailability_logged measuring.2 ∧
    particular_events_unavailability_logged st'.2 =
      particular_events_unavailability_logged measuring.2 ∧
    trace st'.2 =
      trace measuring.2 ++
      [EvLog PRIO_WARNING LoggerPerfEventsCounters MsgOnlyOneInstance] ∧
    opened_attrs (trace st'.2) = opened_attrs (trace measuring.2) ∧
    ioctls (trace st'.2) = ioctls (trace measuring.2).
Proof.
  apply (initialize_on_busy_thread os_level2 raw_events_info measuring 7%nat 8%nat).
  - reflexivity.
  - discriminate.
Defined.

(** ** Looking up a raw value *)

(** C6: [getRawValue] answers the value stored at the first catalog index
    whose entry has the given type and configuration, and changes nothing;
    when no entry of the catalog matches it answers 0 and logs one warning.
    This holds for every catalog. *)
Theorem getRawValue_lookup os catalog c vs ty cfg st :
  raw_event_values st.2 !! c = Some vs →
  length vs = NUMBER_OF_RAW_EVENTS catalog →
  (∀ i info v,
     catalog !! i = Some info →
     event_type info = ty → event_config info = cfg →
     (∀ j info', (j < i)%nat → catalog !! j = Some info' →
                 ¬ (event_type info' = ty ∧ event_config info' = cfg)) →
     vs !! i = Some v →
     run os (getRawValue catalog c ty cfg) st = Some (v, st)) ∧
  ((∀ info, info ∈ catalog → ¬ (event_type info = ty ∧ event_config info = cfg)) →
   run os (getRawValue catalog c ty cfg) st =
   Some (0, (st.1, emit (EvLog PRIO_WARNING LoggerPerfEventsCounters
                           (MsgCantFindPerfEventInfo ty cfg)) st.2))).
Proof.
  intros Hc Hlen.
  pose proof (getRawValue_wp os catalog c vs ty cfg st Hc Hlen) as Hwp.
  apply wp_run in Hwp as (v' & st' & Hrun & -> & ->).
  unfold find_raw_value, missing_line in Hrun. split.
  - intros i info v Hi Hty Hcfg Hfirst Hv.
    assert (list_find (λ info, event_type info = ty ∧ event_config info = cfg) catalog
            = Some (i, info)) as Hfind.
    { apply list_find_Some. split_conj; [done|done|done|].
      intros j y Hy Hj. by eapply Hfirst. }
    rewrite Hfind, Hv, emits_nil in Hrun. by destruct st.
  - intros Hnone.
    assert (list_find (λ info, event_type info = ty ∧ event_config info = cfg) catalog
            = None) as Hfind.
    { apply list_find_None, Forall_forall. intros info Hin. by apply Hnone. }
    by rewrite Hfind in Hrun.
Qed.

Lemma getRawValue_lookup_witness :
  run os_level2
    (getRawValue raw_events_info 7%nat PERF_TYPE_HARDWARE PERF_COUNT_HW_REF_CPU_CYCLES)
    measuring
  = Some (0, measuring) ∧
  run os_level2 (getRawValue raw_events_info 7%nat PERF_TYPE_SOFTWARE 99) measuring
  = Some (0, (measuring.1,
              emit (EvLog PRIO_WARNING LoggerPerfEventsCounters
                      (MsgCantFindPerfEventInfo PERF_TYPE_SOFTWARE 99)) measuring.2)).
Proof.
  destruct (getRawValue_lookup os_level2 raw_events_info 7%nat zeros
              PERF_TYPE_HARDWARE PERF_COUNT_HW_REF_CPU_CYCLES measuring)
    as [Hfound _]; [reflexivity|reflexivity|].
  destruct (getRawValue_lookup os_level2 raw_events_info 7%nat zeros
              PERF_TYPE_SOFTWARE 99 measuring)
    as [_ Hmissing]; [reflexivity|reflexivity|].
  split.
  - apply (Hfound 9%nat (hardwareEvent PERF_COUNT_HW_REF_CPU_CYCLES
                           ProfileEvents.PERF_COUNT_HW_REF_CPU_CYCLES) 0);
      [reflexivity|reflexivity|reflexivity| |reflexivity].
    intros j info' Hj Hinfo' [_ Hcfg].
    do 9 (destruct j as [|j]; [injection Hinfo' as <-; discriminate Hcfg|]).
    lia.
  - apply Hmissing. intros info Hin [Hty Hcfg].
    unfold raw_events_info in Hin.
    repeat (apply elem_of_cons in Hin as [->|Hin]; [discriminate|]).
    by apply elem_of_nil in Hin.
Defined.

(** ** Opening the handles of a thread *)

(** C2, as the code has it: [thread_events_descriptors_opened] is set
    exactly when a call of [initializeThreadLocalEvents] succeeds.  After a
    successful call every later call on the thread returns [true] at once,
    without reading the level, asking for the capability or opening a
    handle: it leaves the state and the trace as they are.  A failed call
    leaves the flag clear, the descriptors as they were and opens nothing;
    the next call starts over by opening the level file. *)
Theorem open_attempt_is_cached_on_success os catalog c vs st :
  valid catalog st →
  raw_event_values st.2 !! c = Some vs →
  ∃ r st1,
    run os (initializeThreadLocalEvents catalog c) st = Some (r, st1) ∧
    thread_events_descriptors_opened st1.1 = r ∧
    (r = true →
     ∀ c', run os (initializeThreadLocalEvents catalog c') st1 = Some (true, st1)) ∧
    (r = false →
     descriptors st1.1 = descriptors st.1 ∧
     opened_attrs (trace st1.2) = opened_attrs (trace st.2) ∧
     ∀ c' r' st2,
       run os (initializeThreadLocalEvents catalog c') st1 = Some (r', st2) →
       ∃ new, trace st2.2 = trace st1.2 ++ EvFopen (os_fopen os (trace st1.2)) :: new).
Proof.
  intros Hv Hc.
  pose proof (initializeThreadLocalEvents_wp os catalog c vs st Hv Hc) as Hwp.
  apply wp_run in Hwp as (r & st1 & Hrun & _ & Hop & _ & _ & _ & Hfail & _).
  exists r, st1. split_conj; [done|done| |].
  - intros -> c'. unfold initializeThreadLocalEvents. simpl. by rewrite Hop.
  - intros ->. destruct (Hfail eq_refl) as (Hd & _ & Hopen). split_conj; [done|done|].
    intros c' r' st2. by apply initializeThreadLocalEvents_probes.
Qed.

Lemma open_attempt_is_cached_on_success_witness :
  ∃ r st1,
    run os_refusing (initializeThreadLocalEvents raw_events_info 7%nat) fresh
    = Some (r, st1) ∧
    thread_events_descriptors_opened st1.1 = r ∧
    (r = true →
     ∀ c', run os_refusing (initializeThreadLocalEvents raw_events_info c') st1
           = Some (true, st1)) ∧
    (r = false →
     descriptors st1.1 = descriptors fresh.1 ∧
     opened_attrs (trace st1.2) = opened_attrs (trace fresh.2) ∧
     ∀ c' r' st2,
       run os_refusing (initializeThreadLocalEvents raw_events_info c') st1
       = Some (r', st2) →
       ∃ new, trace st2.2 =
              trace st1.2 ++ EvFopen (os_fopen os_refusing (trace st1.2)) :: new).
Proof.
  apply (open_attempt_is_cached_on_success os_refusing raw_events_info 7%nat zeros fresh).
  - valid_zero.
  - reflexivity.
Defined.

(** C2 as stated fails: without a level file the first call fails, and the
    second call on the same thread does not return at once: it opens the
    level file again, so the state it leaves differs from the one it found. *)
Lemma failed_open_attempt_is_retried :
  ¬ attempted_once os_without_perf raw_events_info fresh 7%nat.
Proof.
  intros H.
  destruct (H false _ ltac:(vm_compute; reflexivity) 7%nat) as [r' Hrun].
  vm_compute in Hrun. discriminate Hrun.
Qed.

(** The policy once the probe has answered: on a thread that has not
    opened its handles, when [getPerfEventParanoid] reports the level [p]
    and [cap] tells whether the process has [CAP_SYS_ADMIN],
    [initializeThreadLocalEvents] refuses (returns [false], leaves the
    thread-local variables as they are and opens nothing) exactly when
    [p >= 3] and [cap] is false.  Otherwise it returns [true] after asking
    for one disabled handle per catalog entry, in catalog order, each of
    which counts kernel events exactly when [p <= 1] or [cap] holds.  What
    the probe reports for a given level file is the matter of
    [getPerfEventParanoid] and is not assumed here. *)
Theorem open_policy os catalog c vs st p st1 :
  valid catalog st →
  raw_event_values st.2 !! c = Some vs →
  thread_events_descriptors_opened st.1 = false →
  run os (getPerfEventParanoid 0) st = Some ((true, p), st1) →
  let cap := os_hasLinuxCapability os (trace st1.2) CAP_SYS_ADMIN in
  ∃ r st',
    run os (initializeThreadLocalEvents catalog c) st = Some (r, st') ∧
    if (3 <=? p) && negb cap
    then r = false ∧ st'.1 = st.1 ∧
         opened_attrs (trace st'.2) = opened_attrs (trace st.2)
    else r = true ∧
         thread_events_descriptors_opened st'.1 = true ∧
         length (descriptors st'.1) = NUMBER_OF_RAW_EVENTS catalog ∧
         opened_attrs (trace st'.2) =
           opened_attrs (trace st.2) ++
           ((λ info, {| pe_type := event_type info;
                        pe_config := event_config info;
                        pe_disabled := true;
                        pe_exclude_kernel := negb ((p <=? 1) || cap) |}) <$> catalog).
Proof.
  intros Hv Hc Hop Hprobe cap.
  pose proof (getPerfEventParanoid_wp os 0 st) as Hwp.
  apply wp_run in Hwp as (a & st1' & Hrun1 & new1 & -> & _ & Hop1).
  rewrite Hprobe in Hrun1. injection Hrun1 as <- ->.
  destruct st as [tl sh]. cbn [fst snd] in *.
  pose proof (after_probe_wp os catalog c vs true p
                (tl, emits (EvFopen (os_fopen os (trace sh)) :: new1) sh)) as Hwp.
  apply wp_run in Hwp as (r & st' & Hrun2 & Hpost);
    [|by eapply valid_same|done].
  exists r, st'. split.
  - rewrite initializeThreadLocalEvents_after_probe, run_bind.
    change (run os (act GetOpened) (tl, sh))
      with (Some (thread_events_descriptors_opened tl, (tl, sh))).
    by rewrite Hop, run_bind, Hprobe.
  - cbn zeta in Hpost. cbn [fst snd negb orb] in Hpost. fold cap in Hpost.
    clearbody cap. destruct ((3 <=? p) && negb cap).
    + destruct Hpost as (-> & new2 & -> & _ & Hop2 & _). split_conj; [done|done|].
      cbn [snd]. destruct sh. cbn.
      rewrite !opened_attrs_app, opened_attrs_cons, Hop1, Hop2.
      by rewrite !app_nil_r.
    + destruct Hpost as (-> & ds' & new2 & -> & Hlen & _ & Hop2).
      split_conj; [done|done|done|].
      cbn [snd]. destruct sh. cbn.
      rewrite !opened_attrs_app, opened_attrs_cons, Hop1, Hop2. cbn [app].
      rewrite app_nil_r. f_equal. apply list_fmap_ext. intros _ info _.
      unfold attr_of. f_equal.
      destruct cap; cbn [negb]; [by rewrite orb_true_r, andb_false_r|].
      rewrite orb_false_r, andb_true_r.
      destruct (Z.leb_spec 2 p), (Z.leb_spec p 1); simpl; try done; lia.
Qed.

Lemma open_policy_witness :
  ∃ r st',
    run os_level2 (initializeThreadLocalEvents raw_events_info 7%nat) fresh
    = Some (r, st') ∧
    r = true ∧
    thread_events_descriptors_opened st'.1 = true ∧
    length (descriptors st'.1) = NUMBER_OF_RAW_EVENTS raw_events_info ∧
    opened_attrs (trace st'.2) =
      opened_attrs (trace fresh.2) ++
      ((λ info, {| pe_type := event_type info;
                   pe_config := event_config info;
                   pe_disabled := true;
                   pe_exclude_kernel := true |}) <$> raw_events_info).
Proof.
  apply (open_policy os_level2 raw_events_info 7%nat zeros fresh 2
           (fresh.1, emits [EvFopen true; EvFgets 3 (Some ("2" ++ LF)%string);
                            EvFclose; EvStrtol ("2" ++ LF) 2] fresh.2)).
  - valid_zero.
  - reflexivity.
  - reflexivity.
  - reflexivity.
Defined.

(** C4: the level file holds 0 and the [errno] of the thread is stale.  The
    policy lets collection proceed at this level, kernel events included,
    whatever the privilege bit.  [initializeThreadLocalEvents] refuses
    instead: it reads and parses the level, logs that perf events are
    unsupported, returns [false], opens nothing and leaves the thread-local
    variables as they are, because [getPerfEventParanoid] takes the value 0
    together with a non-zero [errno], which it never clears, for a level
    that is not a number.  With [errno] clear the same call on the same
    level file follows the policy. *)
Theorem level_zero_refused_under_stale_errno (cap : bool) :
  (∃ st',
     run (os_stale_errno cap) (initializeThreadLocalEvents raw_events_info 7%nat) fresh
     = Some (false, st') ∧
     st'.1 = fresh.1 ∧
     trace st'.2 =
       [EvFopen true; EvFgets 3 (Some ("0" ++ LF)%string); EvFclose;
        EvStrtol ("0" ++ LF) 0;
        EvLog PRIO_INFORMATION PerfEventsCounters_getLogger MsgPerfEventsUnsupported]) ∧
  ¬ follows_policy (os_stale_errno cap) raw_events_info 7%nat fresh 0 cap ∧
  follows_policy (os_level0 cap) raw_events_info 7%nat fresh 0 cap.
Proof.
  split_conj.
  - destruct cap; (eexists; split; [vm_compute; reflexivity|]); by split.
  - intros (r & st' & Hrun & H).
    destruct cap; vm_compute in Hrun; injection Hrun as <- <-;
      cbn [Z.leb Z.compare andb negb] in H; by destruct H.
  - destruct cap; (eexists _, _; split; [vm_compute; reflexivity|]);
      cbn [Z.leb Z.compare andb negb]; (split; [reflexivity|]);
      vm_compute; reflexivity.
Qed.

(** ** The derived metrics *)

(** C3: when the active session of a thread is finalized, the sink
    receives, after the raw values, [PERF_CUSTOM_INSTRUCTIONS_PER_CPU_CYCLE_SCALED]
    with the truncated quotient of the instructions by the cpu cycles, and 0
    when the cpu cycles are 0; then [PERF_CUSTOM_INSTRUCTIONS_PER_CPU_CYCLE]
    with the truncated quotient of the instructions by the reference cpu
    cycles, and 0 when those are 0.  The call has no undefined behaviour, so
    no division by zero; the operands are the values the session holds after
    the call, at indices 0, 1 and 9 of the catalog. *)
Theorem derived_metrics os c vs sink st :
  valid raw_events_info st →
  raw_event_values st.2 !! c = Some vs →
  current_thread_counters st.1 = Some c →
  active_implies_opened st →
  ∃ st' vs' cycles instructions ref_cycles,
    run os (finalizeProfileEvents raw_events_info c sink) st = Some (tt, st') ∧
    raw_event_values st'.2 !! c = Some vs' ∧
    vs' !! 0%nat = Some cycles ∧
    vs' !! 1%nat = Some instructions ∧
    vs' !! 9%nat = Some ref_cycles ∧
    increments sink (trace st'.2) =
      increments sink (trace st.2) ++
      reported raw_events_info (descriptors st.1) vs' ++
      [ (ProfileEvents.PERF_CUSTOM_INSTRUCTIONS_PER_CPU_CYCLE_SCALED,
         if cycles =? 0 then 0 else instructions ÷ cycles);
        (ProfileEvents.PERF_CUSTOM_INSTRUCTIONS_PER_CPU_CYCLE,
         if ref_cycles =? 0 then 0 else instructions ÷ ref_cycles) ] ∧
    ∀ x, x ∈ reported raw_events_info (descriptors st.1) vs' →
         x.1 ≠ ProfileEvents.PERF_CUSTOM_INSTRUCTIONS_PER_CPU_CYCLE_SCALED ∧
         x.1 ≠ ProfileEvents.PERF_CUSTOM_INSTRUCTIONS_PER_CPU_CYCLE.
Proof.
  intros Hv Hc Hcur Hact.
  assert (thread_events_descriptors_opened st.1 = true) as Hop.
  { apply Hact. by rewrite Hcur. }
  pose proof (finalize_wp os raw_events_info c vs sink st Hv Hc Hcur Hop) as Hwp.
  apply wp_run in Hwp as ([] & st' & Hrun & vs' & new & -> & Hlen & Hr & _ & Hinc).
  destruct (lookup_lt_is_Some_2 vs' 0) as [cycles Hcycles]; [rewrite Hlen; simpl; lia|].
  destruct (lookup_lt_is_Some_2 vs' 1) as [instructions Hinstr]; [rewrite Hlen; simpl; lia|].
  destruct (lookup_lt_is_Some_2 vs' 9) as [ref_cycles Href]; [rewrite Hlen; simpl; lia|].
  exists (set_current None st.1,
          set_raw_event_values (<[c:=vs']> (raw_event_values st.2)) (emits new st.2)),
         vs', cycles, instructions, ref_cycles.
  split_conj; try done.
  - cbn. apply lookup_insert_eq.
  - cbn [snd set_raw_event_values emits trace].
    rewrite increments_app, Hinc, bool_decide_eq_true_2 by done.
    do 2 f_equal. unfold derived.
    rewrite find_raw_value_cpu_cycles, find_raw_value_instructions,
      find_raw_value_ref_cpu_cycles, Hcycles, Hinstr, Href.
    cbn [default].
    rewrite !ratio_quot; [done|by eapply Forall_lookup_1..].
  - intros x Hx. apply reported_events in Hx as (info & Hin & ->).
    unfold raw_events_info in Hin.
    repeat (apply elem_of_cons in Hin as [->|Hin]; [done|]).
    by apply elem_of_nil in Hin.
Qed.

Lemma derived_metrics_witness :
  ∃ st' vs' cycles instructions ref_cycles,
    run os_seeded (finalizeProfileEvents raw_events_info 7%nat 99%nat) measuring
    = Some (tt, st') ∧
    raw_event_values st'.2 !! 7%nat = Some vs' ∧
    vs' !! 0%nat = Some cycles ∧
    vs' !! 1%nat = Some instructions ∧
    vs' !! 9%nat = Some ref_cycles ∧
    increments 99%nat (trace st'.2) =
      increments 99%nat (trace measuring.2) ++
      reported raw_events_info (descriptors measuring.1) vs' ++
      [ (ProfileEvents.PERF_CUSTOM_INSTRUCTIONS_PER_CPU_CYCLE_SCALED,
         if cycles =? 0 then 0 else instructions ÷ cycles);
        (ProfileEvents.PERF_CUSTOM_INSTRUCTIONS_PER_CPU_CYCLE,
         if ref_cycles =? 0 then 0 else instructions ÷ ref_cycles) ] ∧
    ∀ x, x ∈ reported raw_events_info (descriptors measuring.1) vs' →
         x.1 ≠ ProfileEvents.PERF_CUSTOM_INSTRUCTIONS_PER_CPU_CYCLE_SCALED ∧
         x.1 ≠ ProfileEvents.PERF_CUSTOM_INSTRUCTIONS_PER_CPU_CYCLE.
Proof.
  apply (derived_metrics os_seeded 7%nat zeros 99%nat measuring).
  - valid_zero.
  - reflexivity.
  - reflexivity.
  - intros _. reflexivity.
Defined.

(** ** A region that measures nothing *)

(** C7, as the code has it: in an environment where a read of handle [fd]
    always yields [counts fd], [initializeProfileEvents] immediately
    followed by [finalizeProfileEvents] on an idle thread sends to the sink,
    when the handles of the thread are open, exactly one increment per valid
    handle, in catalog order, with the count of that handle, followed by the
    two derived metrics, [PERF_CUSTOM_INSTRUCTIONS_PER_CPU_CYCLE_SCALED] and
    [PERF_CUSTOM_INSTRUCTIONS_PER_CPU_CYCLE], both always sent; no other sink
    receives anything.  When collection is unavailable nothing is sent. *)
Theorem noop_region_reports os counts catalog c vs sink st :
  (∀ tr fd, os_read os tr fd = Some (counts fd)) →
  valid catalog st →
  raw_event_values st.2 !! c = Some vs →
  current_thread_counters st.1 = None →
  ∃ st',
    run os (noop_region catalog c sink) st = Some (tt, st') ∧
    current_thread_counters st'.1 = None ∧
    ((thread_events_descriptors_opened st'.1 = true ∧
      ∃ vs',
        raw_event_values st'.2 !! c = Some vs' ∧
        (∀ i fd, descriptors st'.1 !! i = Some fd →
                 vs' !! i = Some (if decide (fd = -1) then 0
                                  else to_UInt64 (counts fd))) ∧
        ∀ s, increments s (trace st'.2) =
             increments s (trace st.2) ++
             if bool_decide (sink = s)
             then reported catalog (descriptors st'.1) vs' ++ derived catalog vs'
             else []) ∨
     (thread_events_descriptors_opened st'.1 = false ∧
      ∀ s, increments s (trace st'.2) = increments s (trace st.2))).
Proof.
  intros Hread Hv Hc Hcur. unfold noop_region. setoid_rewrite run_bind.
  pose proof (initializeProfileEvents_wp os catalog c vs st Hv Hc) as Hwp.
  apply wp_run in Hwp as ([] & st1 & -> & Hv1 & _ & Hinc1 & _ & Hcases);
    [|intros Hne; by rewrite Hcur in Hne].
  rewrite Hcur in Hcases.
  destruct Hcases as [(Hcur1 & Hop1 & Hc1)|(Hcur1 & Hop1)].
  - pose proof (finalize_wp os catalog c _ sink st1 Hv1 Hc1 Hcur1 Hop1) as Hwp.
    apply wp_run in Hwp as ([] & st' & -> & vs' & new & -> & Hlen & _ & Hvals & Hinc).
    eexists. split; [done|]. split; [done|]. left. split; [done|].
    exists vs'. split_conj.
    + cbn. apply lookup_insert_eq.
    + intros i fd Hfd. cbn in Hfd.
      destruct (Hvals i fd Hfd) as (old & v & Hold & -> & Hres). f_equal.
      apply lookup_replicate in Hold as [-> _].
      unfold read_result in Hres. destruct (decide (fd = -1)); [done|].
      destruct Hres as [tr ->]. by rewrite Hread.
    + intros s. cbn [snd set_raw_event_values emits trace].
      by rewrite increments_app, Hinc, Hinc1.
  - rewrite finalizeProfileEvents_inactive by (by rewrite Hcur1).
    eexists. split; [done|]. split; [done|]. right. by split.
Qed.

Lemma noop_region_reports_witness :
  ∃ st',
    run os_seeded (noop_region cycles_and_instructions 7%nat 99%nat) fresh2
    = Some (tt, st') ∧
    current_thread_counters st'.1 = None ∧
    ((thread_events_descriptors_opened st'.1 = true ∧
      ∃ vs',
        raw_event_values st'.2 !! 7%nat = Some vs' ∧
        (∀ i fd, descriptors st'.1 !! i = Some fd →
                 vs' !! i = Some (if decide (fd = -1) then 0
                                  else to_UInt64 (default 0 (seeded_counts fd)))) ∧
        ∀ s, increments s (trace st'.2) =
             increments s (trace fresh2.2) ++
             if bool_decide (99%nat = s)
             then reported cycles_and_instructions (descriptors st'.1) vs' ++
                  derived cycles_and_instructions vs'
             else []) ∨
     (thread_events_descriptors_opened st'.1 = false ∧
      ∀ s, increments s (trace st'.2) = increments s (trace fresh2.2))).
Proof.
  apply (noop_region_reports os_seeded (λ fd, default 0 (seeded_counts fd))
           cycles_and_instructions 7%nat [0; 0] 99%nat fresh2).
  - intros tr fd. cbn. unfold seeded_counts. by repeat case_match.
  - valid_zero.
  - reflexivity.
  - reflexivity.
Defined.

(** C7 as stated fails: in the scenario of the two-entry catalog whose
    handles hold 1000 and 500, and in the same scenario on the process
    catalog with only those two handles available, the sink receives a
    fourth increment, [(PERF_CUSTOM_INSTRUCTIONS_PER_CPU_CYCLE, 0)]. *)
Lemma noop_region_sends_both_ratios :
  (∃ st',
     run os_seeded (noop_region cycles_and_instructions 7%nat 99%nat) fresh2
     = Some (tt, st') ∧
     increments 99%nat (trace st'.2) =
       three_increments ++ [(ProfileEvents.PERF_CUSTOM_INSTRUCTIONS_PER_CPU_CYCLE, 0)] ∧
     increments 99%nat (trace st'.2) ≠ three_increments) ∧
  (∃ st',
     run os_seeded (noop_region raw_events_info 7%nat 99%nat) fresh
     = Some (tt, st') ∧
     increments 99%nat (trace st'.2) =
       three_increments ++ [(ProfileEvents.PERF_CUSTOM_INSTRUCTIONS_PER_CPU_CYCLE, 0)] ∧
     increments 99%nat (trace st'.2) ≠ three_increments).
Proof.
  split; (eexists; split; [vm_compute; reflexivity|]; split; [reflexivity|discriminate]).
Qed.

(** ** Releasing the handles of a thread *)

(** C8: the destructor of the holder runs without undefined behaviour,
    disables and closes every valid descriptor exactly once, in order, and
    leaves every slot at [-1]; every failed [ioctl] or [close] is followed
    by its warning, and nothing else is logged.  Run a second time, it
    changes nothing and issues no call at all. *)
Theorem holder_release os catalog st :
  length (descriptors st.1) = NUMBER_OF_RAW_EVENTS catalog →
  ∃ st1 new,
    run os (PerfDescriptorsHolder_delete catalog) st = Some (tt, st1) ∧
    st1 = (set_descriptors (replicate (NUMBER_OF_RAW_EVENTS catalog) (-1)) st.1,
           emits new st.2) ∧
    closed_fds new = filter is_valid_fd (descriptors st.1) ∧
    ioctls new = (λ fd, (fd, PERF_EVENT_IOC_DISABLE)) <$>
                   filter is_valid_fd (descriptors st.1) ∧
    failed_calls new = warned_failures new ∧
    length (log_lines new) = length (warned_failures new) ∧
    run os (PerfDescriptorsHolder_delete catalog) st1 = Some (tt, st1).
Proof.
  intros Hd.
  pose proof (PerfDescriptorsHolder_delete_wp os catalog st Hd) as Hwp.
  apply wp_run in Hwp as ([] & st1 & Hrun & new & -> & Hcl & Hio & Hfail & Hlog & _).
  eexists _, new. split_conj; try done.
  set (st1 := (set_descriptors _ _, _)).
  pose proof (PerfDescriptorsHolder_delete_wp os catalog st1) as Hwp.
  apply wp_run in Hwp as ([] & st2 & -> & new2 & -> & _ & _ & _ & _ & _ & _ & Hnil);
    [|apply length_replicate].
  rewrite Hnil.
  - subst st1. cbn [fst snd set_descriptors descriptors]. by rewrite emits_nil.
  - subst st1. cbn [fst set_descriptors descriptors]. apply filter_valid_released.
Qed.

Lemma holder_release_witness :
  ∃ st1 new,
    run os_failing_close (PerfDescriptorsHolder_delete raw_events_info) measuring
    = Some (tt, st1) ∧
    st1 = (set_descriptors (replicate (NUMBER_OF_RAW_EVENTS raw_events_info) (-1))
             measuring.1,
           emits new measuring.2) ∧
    closed_fds new = filter is_valid_fd (descriptors measuring.1) ∧
    ioctls new = (λ fd, (fd, PERF_EVENT_IOC_DISABLE)) <$>
                   filter is_valid_fd (descriptors measuring.1) ∧
    failed_calls new = warned_failures new ∧
    length (log_lines new) = length (warned_failures new) ∧
    run os_failing_close (PerfDescriptorsHolder_delete raw_events_info) st1
    = Some (tt, st1).
Proof.
  apply (holder_release os_failing_close raw_events_info measuring).
  reflexivity.
Defined.

(** ** The active session and the handles *)

(** C10: [current_thread_counters] is non-null only if
    [thread_events_descriptors_opened] is set.  This holds when a thread
    starts, and [initializeThreadLocalEvents], [initializeProfileEvents],
    [finalizeProfileEvents] and the destructor of the holder each run
    without undefined behaviour and establish it again.  Hence
    [finalizeProfileEvents] on the active session never takes its second
    early return: it sends the raw values and the two derived metrics to the
    sink and clears [current_thread_counters]. *)
Theorem active_session_has_open_handles os catalog c vs sink st :
  valid catalog st →
  raw_event_values st.2 !! c = Some vs →
  active_implies_opened st →
  (∀ sh, active_implies_opened (thread_start catalog, sh)) ∧
  wp os (initializeThreadLocalEvents catalog c)
     (λ _ st', invariant_kept catalog st st') st ∧
  wp os (initializeProfileEvents catalog c)
     (λ _ st', invariant_kept catalog st st') st ∧
  wp os (finalizeProfileEvents catalog c sink)
     (λ _ st', invariant_kept catalog st st') st ∧
  wp os (PerfDescriptorsHolder_delete catalog)
     (λ _ st', invariant_kept catalog st st') st ∧
  (current_thread_counters st.1 = Some c →
   ∃ st' vs',
     run os (finalizeProfileEvents catalog c sink) st = Some (tt, st') ∧
     current_thread_counters st'.1 = None ∧
     raw_event_values st'.2 !! c = Some vs' ∧
     increments sink (trace st'.2) =
       increments sink (trace st.2) ++
       reported catalog (descriptors st.1) vs' ++ derived catalog vs').
Proof.
  intros Hv Hc Hact.
  assert (∀ st', (raw_event_values st'.2 = raw_event_values st.2 ∨
                  ∃ vs', raw_event_values st'.2 = <[c:=vs']> (raw_event_values st.2)) →
                 ∀ c', live c' st → live c' st') as Hlive.
  { intros st' [Heq|[vs' Heq]] c'; unfold live; rewrite Heq; [done|apply live_insert]. }
  assert (current_thread_counters st.1 = Some c →
          wp os (finalizeProfileEvents catalog c sink)
            (λ _ st', invariant_kept catalog st st' ∧
               ∃ vs', current_thread_counters st'.1 = None ∧
                 raw_event_values st'.2 !! c = Some vs' ∧
                 increments sink (trace st'.2) =
                   increments sink (trace st.2) ++
                   reported catalog (descriptors st.1) vs' ++ derived catalog vs') st)
    as Hfin.
  { intros Hcur.
    assert (thread_events_descriptors_opened st.1 = true) as Hop.
    { apply Hact. by rewrite Hcur. }
    eapply wp_mono; [|by apply (finalize_wp os catalog c vs sink st)].
    intros [] st' (vs' & new & -> & Hlen & Hr & _ & Hinc). split.
    - unfold invariant_kept. split_conj.
      + by eapply valid_update.
      + intros H. by cbn in H.
      + apply Hlive. right. by exists vs'.
    - exists vs'. split_conj; [done|cbn; apply lookup_insert_eq|].
      cbn [snd set_raw_event_values emits trace].
      by rewrite increments_app, Hinc, bool_decide_eq_true_2.
  }
  split_conj.
  - intros sh H. by cbn in H.
  - eapply wp_mono; [|by apply (initializeThreadLocalEvents_wp os catalog c vs st)].
    intros r st' (Hv' & Hop' & Hcur' & _ & Hraw & _ & Hkeep).
    unfold invariant_kept. split_conj; [done| |].
    + intros Hne. rewrite Hcur' in Hne. rewrite Hop'. by apply Hkeep, Hact.
    + apply Hlive. destruct Hraw as [?|?]; [by left|right; eauto].
  - eapply wp_mono; [|by apply (initializeProfileEvents_wp os catalog c vs st)].
    intros [] st' (Hv' & Hact' & _ & Hraw & _).
    unfold invariant_kept. split_conj; [done|done|].
    apply Hlive. destruct Hraw as [?|?]; [by left|right; eauto].
  - destruct (decide (current_thread_counters st.1 = Some c)) as [Hcur|Hcur].
    + eapply wp_mono; [|by apply Hfin]. by intros [] st' [? _].
    + unfold wp. rewrite finalizeProfileEvents_inactive by done.
      unfold invariant_kept. split_conj; [done|done|]. apply Hlive. by left.
  - destruct Hv as [Hd Hh].
    eapply wp_mono; [|by apply (PerfDescriptorsHolder_delete_wp os catalog st)].
    intros [] st' (new & -> & _). unfold invariant_kept. split_conj.
    + split; [apply length_replicate|done].
    + done.
    + apply Hlive. by left.
  - intros Hcur. apply Hfin in Hcur.
    apply wp_run in Hcur as ([] & st' & Hrun & _ & vs' & ? & ? & ?).
    by exists st', vs'.
Qed.

Lemma active_session_has_open_handles_witness :
  (∀ sh, active_implies_opened (thread_start raw_events_info, sh)) ∧
  wp os_seeded (initializeThreadLocalEvents raw_events_info 7%nat)
     (λ _ st', invariant_kept raw_events_info measuring st') measuring ∧
  wp os_seeded (initializeProfileEvents raw_events_info 7%nat)
     (λ _ st', invariant_kept raw_events_info measuring st') measuring ∧
  wp os_seeded (finalizeProfileEvents raw_events_info 7%nat 99%nat)
     (λ _ st', invariant_kept raw_events_info measuring st') measuring ∧
  wp os_seeded (PerfDescriptorsHolder_delete raw_events_info)
     (λ _ st', invariant_kept raw_events_info measuring st') measuring ∧
  (current_thread_counters measuring.1 = Some 7%nat →
   ∃ st' vs',
     run os_seeded (finalizeProfileEvents raw_events_info 7%nat 99%nat) measuring
     = Some (tt, st') ∧
     current_thread_counters st'.1 = None ∧
     raw_event_values st'.2 !! 7%nat = Some vs' ∧
     increments 99%nat (trace st'.2) =
       increments 99%nat (trace measuring.2) ++
       reported raw_events_info (descriptors measuring.1) vs' ++
       derived raw_events_info vs').
Proof.
  apply (active_session_has_open_handles os_seeded raw_events_info 7%nat zeros
           99%nat measuring).
  - valid_zero.
  - reflexivity.
  - intros _. reflexivity.
Defined.

(** ** The log-once flag *)

(** C9: threads that have just started call [initializeProfileEvents]
    concurrently, in a process that has just started and to which
    collection is unavailable.  Whatever the interleaving of their atomic
    steps, at most one line saying so is ever logged, none while the flag
    [perf_unavailability_logged] is clear, and once all the threads (at
    least one) have returned the flag is set and exactly one line has been
    logged.  Neither flag is ever cleared: each one goes from [false] to
    [true] at most once, in a compare-and-set. *)
Theorem unavailability_logged_once os catalog objects cs schedule m' :
  collection_unavailable os →
  sched os schedule (first_use catalog cs, process_start objects) = Some m' →
  (unavailability_lines (trace m'.2) ≤ 1)%nat ∧
  (perf_unavailability_logged m'.2 = false →
   unavailability_lines (trace m'.2) = 0%nat) ∧
  (cs ≠ [] → Forall finished m'.1 →
   perf_unavailability_logged m'.2 = true ∧
   unavailability_lines (trace m'.2) = 1%nat) ∧
  (∀ schedule' m'' f,
     sched os schedule' m' = Some m'' →
     get_flag f m'.2 = true → get_flag f m''.2 = true).
Proof.
  intros Hos Hs.
  assert (∀ schedule' m'' f,
            sched os schedule' m' = Some m'' →
            get_flag f m'.2 = true → get_flag f m''.2 = true) as Hmono.
  { apply sched_flags_monotone in Hs as [Hall _].
    - intros schedule' m'' f Hs' Hf.
      by apply (sched_flags_monotone _ _ _ _ Hall Hs').
    - cbn [fst]. unfold first_use. apply Forall_fmap, Forall_forall. intros c _.
      apply sets_only_initializeProfileEvents. }
  apply sched_invariant in Hs as (HJ & HK & Hlen).
  - unfold log_once_state in HJ. split_conj; [| | |exact Hmono].
    + destruct HJ as [(_ & -> & _)|[(_ & -> & _)|(_ & -> & _)]]; lia.
    + intros Hf.
      destruct HJ as [(_ & -> & _)|[(Hf' & _)|(Hf' & _)]]; [done|congruence..].
    + intros Hcs Hfin.
      assert (perf_unavailability_logged m'.2 = true) as Hf.
      { destruct HK as [Hf|Hall]; [done|].
        destruct (m'.1) as [|t ts] eqn:Hm'.
        - cbn [fst] in Hlen. unfold first_use in Hlen.
          rewrite length_fmap in Hlen. by destruct cs.
        - apply Forall_cons in Hall as [Ht _]. apply Forall_cons in Hfin as [Hft _].
          unfold finished in Hft. destruct (code t); [|done]. by cbn in Ht. }
      split; [done|].
      destruct HJ as [(Hf' & _)|[(_ & _ & i & t & Hi & Ho & _)|(_ & Hl & _)]];
        [congruence| |done].
      apply owes_not_finished in Ho. destruct Ho.
      by apply (Forall_lookup_1 _ _ _ _ Hfin Hi).
  - left. split_conj; [done|done|].
    cbn [fst]. unfold first_use. apply Forall_fmap, Forall_forall. intros c _.
    apply guarded_initializeProfileEvents.
  - right. cbn [fst]. unfold first_use. apply Forall_fmap, Forall_forall. intros c _.
    by apply must_try_first_use.
Qed.

Lemma unavailability_logged_once_witness :
  ∃ m',
    sched os_without_perf racing_schedule three_threads = Some m' ∧
    Forall finished m'.1 ∧
    perf_unavailability_logged m'.2 = true ∧
    unavailability_lines (trace m'.2) = 1%nat.
Proof.
  assert (∃ m', sched os_without_perf racing_schedule three_threads = Some m' ∧
                Forall finished m'.1) as (m' & Hs & Hfin).
  { eexists. split; [vm_compute; reflexivity|]. repeat constructor. }
  exists m'. split; [exact Hs|]. split; [exact Hfin|].
  apply (unavailability_logged_once os_without_perf raw_events_info
           {[ 7%nat := zeros; 8%nat := zeros; 9%nat := zeros ]}
           [7%nat; 8%nat; 9%nat] racing_schedule m').
  - left. reflexivity.
  - exact Hs.
  - discriminate.
  - exact Hfin.
Defined.

(** ** Actions a piece of code never performs *)

Lemma never_bind (P : ∀ R, action R → bool) {A B} (m : prog A) (f : A → prog B) :
  never P m → (∀ a, never P (f a)) → never P (bind m f).
Proof.
  intros Hm Hf. induction m as [a|R e k IH]; simpl; [apply Hf|].
  destruct Hm as [He Hk]. split; [done|]. intros r. by apply IH.
Qed.

Lemma never_for_range (P : ∀ R, action R → bool) lo n body :
  (∀ i, never P (body i)) → never P (for_range lo n body).
Proof.
  intros Hbody. revert lo. induction n as [|n IH]; intros lo; simpl; [done|].
  apply never_bind; [apply Hbody|]. intros _. apply IH.
Qed.

Lemma never_for_range_return (P : ∀ R, action R → bool) {A} lo n (body : nat → prog (option A)) :
  (∀ i, never P (body i)) → never P (for_range_return lo n body).
Proof.
  intros Hbody. revert lo. induction n as [|n IH]; intros lo; simpl; [done|].
  apply never_bind; [apply Hbody|]. intros [a|]; [done|apply IH].
Qed.

Lemma never_index (P : ∀ R, action R → bool) {A} (l : list A) i :
  P _ Undefined = false → never P (index l i).
Proof. intros HP. unfold index. destruct (l !! i); [done|]. split; [done|]. intros []. Qed.

Lemma never_Vis (P : ∀ R, action R → bool) {A R} (e : action R) (k : R → prog A) :
  P _ e = false → (∀ r, never P (k r)) → never P (Vis e k).
Proof. by split. Qed.

(** Proves that a program of the file never performs an action. *)
Ltac never_tac :=
  repeat first
    [ exact I
    | apply never_index; reflexivity
    | apply never_for_range; intros ?
    | apply never_for_range_return; intros ?
    | apply never_Vis; [reflexivity|intros ?]
    | apply never_bind; [|intros ?]
    | match goal with
      | |- never _ (if ?b then _ else _) => destruct b
      | |- never _ (match ?x with _ => _ end) => destruct x
      | |- never _ (act _) => unfold act
      | |- never _ (udiv _ _) => unfold udiv
      | |- never _ undefined => unfold undefined
      | |- never _ (LOG_WARNING _ _) => unfold LOG_WARNING
      | |- never _ (LOG_INFO _ _) => unfold LOG_INFO
      | |- never _ (perfEventOpenDisabled _ _ _ _) =>
          unfold perfEventOpenDisabled, openPerfEvent
      | |- never _ (getRawValue _ _ _ _) => unfold getRawValue
      | |- never _ (getPerfEventParanoid _) => unfold getPerfEventParanoid
      | |- never _ (initializeThreadLocalEvents _ _) =>
          unfold initializeThreadLocalEvents
      | |- never _ (initializeProfileEvents _ _) => unfold initializeProfileEvents
      | |- never _ (finalizeProfileEvents _ _ _) => unfold finalizeProfileEvents
      | |- never _ (PerfDescriptorsHolder_delete _) =>
          unfold PerfDescriptorsHolder_delete
      end ].

(** What every action other than those of [P] preserves, a run of a
    program that never performs one preserves. *)
Lemma run_never os (P : ∀ R, action R → bool) (Φ : State → State → Prop) :
  (∀ st, Φ st st) →
  (∀ st1 st2 st3, Φ st1 st2 → Φ st2 st3 → Φ st1 st3) →
  (∀ R (e : action R) st r st',
     P R e = false → handle os e st = Some (r, st') → Φ st st') →
  ∀ A (p : prog A) st a st',
    never P p → run os p st = Some (a, st') → Φ st st'.
Proof.
  intros Hrefl Htrans Hstep A p. induction p as [a0|R e k IH]; intros st a st' Hn Hrun.
  - simpl in Hrun. injection Hrun as <- <-. apply Hrefl.
  - simpl in Hrun. destruct Hn as [He Hk].
    destruct (handle os e st) as [[r st1]|] eqn:Hh; [|done].
    eapply Htrans; [by eapply Hstep|]. by eapply IH.
Qed.

(** ** Reading the level *)

(** What [getPerfEventParanoid] does and answers, by what libc answers. *)
Lemma getPerfEventParanoid_calls os result st :
  wp os (getPerfEventParanoid result)
     (λ a st', ∃ new,
        st' = (st.1, emits new st.2) ∧
        if os_fopen os (trace st.2) then
          match os_fgets os (trace st.2 ++ [EvFopen true]) 3 with
          | Some line =>
              let str := substring 0 2 line in
              let tr := trace st.2 ++ [EvFopen true; EvFgets 3 (Some line); EvFclose] in
              let value := to_Int64 (os_strtol os tr str) in
              new = [EvFopen true; EvFgets 3 (Some line); EvFclose; EvStrtol str value] ∧
              a = if (value =? 0) &&
                     negb (to_int (os_errno os (tr ++ [EvStrtol str value])) =? 0)
                  then (false, result) else (true, to_Int32 value)
          | None =>
              new = [EvFopen true; EvFgets 3 None; EvFclose] ∧ a = (false, result)
          end
        else new = [EvFopen false] ∧ a = (false, result)) st.
Proof.
  destruct st as [tl sh]. unfold getPerfEventParanoid. cbn [fst snd].
  wp_step. destruct (os_fopen os (trace sh)); cbn [negb].
  - wp_step. wp_step. cbn [emit emits trace].
    destruct (os_fgets os _ _) as [line|].
    + wp_step. cbn [emit emits trace]. rewrite <- !app_assoc. cbn [app].
      cbn [Nat.sub].
      set (value := to_Int64 _).
      destruct (value =? 0) eqn:Hv; cbn [andb].
      * wp_step. cbn [emit emits trace]. rewrite <- !app_assoc. cbn [app].
        destruct (negb _); wp_step; (eexists; split; [state_eq|done]).
      * wp_step. eexists. split; [state_eq|done].
    + wp_step. eexists. split; [state_eq|done].
  - wp_step. eexists. split; [state_eq|done].
Qed.

(** ** More bookkeeping on traces *)

Lemma opened_fds_app a b : opened_fds (a ++ b) = opened_fds a ++ opened_fds b.
Proof. apply omap_app. Qed.

Lemma open_targets_app a b : open_targets (a ++ b) = open_targets a ++ open_targets b.
Proof. apply omap_app. Qed.

Lemma failed_opens_app a b : failed_opens (a ++ b) = failed_opens a ++ failed_opens b.
Proof. apply omap_app. Qed.

Lemma unsupported_events_app a b :
  unsupported_events (a ++ b) = unsupported_events a ++ unsupported_events b.
Proof. apply omap_app. Qed.

Lemma read_values_app a b : read_values (a ++ b) = read_values a ++ read_values b.
Proof. apply omap_app. Qed.

Lemma handle_calls_app a b : handle_calls (a ++ b) = handle_calls a ++ handle_calls b.
Proof. apply omap_app. Qed.

(** A stretch of the trace with no [ioctl], no [close] and no
    [perf_event_open]: its calls on handles are its reads. *)
Lemma handle_calls_reads tr :
  ioctls tr = [] → closed_fds tr = [] → opened_fds tr = [] →
  handle_calls tr = ReadCall <$> (read_values tr).*1.
Proof.
  induction tr as [|e tr IH]; [done|]. intros Hio Hcl Hop.
  destruct e; try done; try (by apply IH).
  cbn. f_equal. by apply IH.
Qed.

(** A stretch with no read, no [close] and no [perf_event_open]: its calls
    on handles are its [ioctl]s. *)
Lemma handle_calls_ioctls tr :
  read_values tr = [] → closed_fds tr = [] → opened_fds tr = [] →
  handle_calls tr = (λ x, IoctlCall x.1 x.2) <$> ioctls tr.
Proof.
  induction tr as [|e tr IH]; [done|]. intros Hrd Hcl Hop.
  destruct e; try done; try (by apply IH).
  cbn. f_equal. by apply IH.
Qed.

Lemma stop_requests_calls (fds : list Z) :
  (λ x, IoctlCall x.1 x.2) <$> (fds ≫= stop_requests) = fds ≫= stop_calls.
Proof.
  induction fds as [|fd fds IH]; [done|]. cbn. by rewrite IH.
Qed.

Lemma unavailability_lines_app a b :
  unavailability_lines (a ++ b) = (unavailability_lines a + unavailability_lines b)%nat.
Proof. unfold unavailability_lines. by rewrite filter_app, length_app. Qed.

Lemma unavailability_lines_log new : log_lines new = [] → unavailability_lines new = 0%nat.
Proof.
  induction new as [|e new IH]; [done|]. destruct e; try done; apply IH.
Qed.

(** Splits the observations of a trace that ends in the events of one
    iteration. *)
Ltac split_trace :=
  rewrite ?opened_fds_app, ?open_targets_app, ?failed_opens_app,
    ?unsupported_events_app, ?read_values_app, ?opened_attrs_app, ?closed_fds_app,
    ?ioctls_app, ?failed_calls_app, ?warned_failures_app, ?log_lines_app,
    ?increments_app.

(** The events a shared state has gained. *)
Ltac events_of sh :=
  match sh with
  | emit ?e ?sh' => let l := events_of sh' in constr:(l ++ [e])
  | emits ?l _ => constr:(l)
  | set_raw_event_values _ ?sh' => events_of sh'
  | set_flag _ _ ?sh' => events_of sh'
  end.

(** Gives the events of the state reached as those the goal asks for. *)
Ltac trace_witness :=
  match goal with
  | |- ∃ _, (_, ?sh) = _ ∧ _ => let l := events_of sh in exists l
  end.

Section Calls.
Variable os : OS.
Variable catalog : list PerfEventInfo.

(** The loop of [initializeThreadLocalEvents], with what it asks of the
    kernel and what it logs. *)
Lemma open_loop_calls c vs p cap lg st :
  valid catalog st →
  raw_event_values st.2 !! c = Some vs →
  wp os (for_range 0 (NUMBER_OF_RAW_EVENTS catalog) (λ i,
           act (StoreRawValue c i 0);;
           event_info ← index catalog i;
           fd ← perfEventOpenDisabled p cap
                  (event_type event_info) (event_config event_info);
           act (SetDescriptor i fd);;
           if (fd =? -1) && lg
           then LOG_INFO PerfEventsCounters_getLogger
                  (MsgPerfEventUnsupported (event_type event_info)
                     (event_config event_info))
           else Ret tt))
     (λ _ st', ∃ new,
        st' = (set_descriptors (opened_fds new) st.1,
               set_raw_event_values
                 (<[c:=replicate (NUMBER_OF_RAW_EVENTS catalog) 0]> (raw_event_values st.2))
                 (emits new st.2)) ∧
        length (opened_fds new) = NUMBER_OF_RAW_EVENTS catalog ∧
        opened_attrs new = attr_of p cap <$> catalog ∧
        open_targets new = replicate (NUMBER_OF_RAW_EVENTS catalog) (0, -1, -1, 0) ∧
        unsupported_events new = (if lg then failed_opens new else []) ∧
        length (log_lines new) = length (unsupported_events new) ∧
        closed_fds new = [] ∧ ioctls new = []) st.
Proof.
  intros Hv Hc. destruct (Hv) as [Hd Hh]. destruct (Hh _ _ Hc) as [Hlen _].
  destruct st as [tl sh]. cbn [fst snd] in *.
  eapply wp_mono; [|apply (wp_for_range os (λ (i : nat) st', ∃ new,
    st' = (set_descriptors (opened_fds new ++ drop i (descriptors tl)) tl,
           set_raw_event_values
             (<[c:=replicate i 0 ++ drop i vs]> (raw_event_values sh)) (emits new sh)) ∧
    length (opened_fds new) = i ∧
    opened_attrs new = attr_of p cap <$> take i catalog ∧
    open_targets new = replicate i (0, -1, -1, 0) ∧
    unsupported_events new = (if lg then failed_opens new else []) ∧
    length (log_lines new) = length (unsupported_events new) ∧
    closed_fds new = [] ∧ ioctls new = []))].
  - intros [] st' (new & -> & Hn & Hat & H). cbn [plus] in *.
    rewrite !drop_ge, !app_nil_r by lia. rewrite take_ge in Hat by done.
    by exists new.
  - exists []. change (opened_fds []) with (@nil Z). cbn [app replicate].
    rewrite !drop_0, insert_id, emits_nil by done.
    rewrite set_raw_event_values_id, set_descriptors_id. split_conj; try done.
    by destruct lg.
  - intros i st [_ Hi] (new & -> & Hn & Hat & Htg & Hun & Hlog & Hcl & Hio).
    simpl in Hi.
    destruct (valid_entry catalog i Hi) as [info Hinfo].
    rewrite (take_S_r _ _ _ Hinfo), fmap_app.
    destruct (lookup_lt_is_Some_2 vs i) as [old Hold]; [lia|].
    destruct (lookup_lt_is_Some_2 (descriptors tl) i) as [fd0 Hfd0]; [lia|].
    wp_step. cbn [raw_event_values set_raw_event_values emits].
    rewrite lookup_insert_eq, lookup_prefix_drop, Hold by apply length_replicate.
    eapply wp_index; [done|].
    unfold perfEventOpenDisabled, openPerfEvent. wp_step.
    match goal with |- context [EvPerfEventOpen _ _ _ _ _ ?v] => generalize v end.
    intros fd. wp_step.
    cbn [descriptors set_descriptors]. rewrite lookup_prefix_drop, Hfd0 by done.
    destruct (fd =? -1) eqn:Hfd, lg; cbn [andb]; wp_step.
    all: trace_witness; split_conj;
      [ f_equal;
        [ unfold set_descriptors; cbn [descriptors thread_events_descriptors_opened
                                       current_thread_counters];
          rewrite insert_prefix_drop by (done || lia); split_trace;
          cbv [opened_fds omap list_omap]; cbn [app]; rewrite ?app_nil_r; reflexivity
        | state_eq; rewrite insert_insert_eq;
          rewrite !insert_prefix_drop by (rewrite ?length_replicate; lia);
          rewrite replicate_S_end, <- !app_assoc; reflexivity ]
      | | | | | | | ].
    all: split_trace; rewrite ?length_app, ?Hlog, ?Hun, ?Hcl, ?Hio, ?Htg, ?Hn, ?Hat;
      cbv [opened_fds opened_attrs open_targets failed_opens unsupported_events
           log_lines closed_fds ioctls omap list_omap pe_type pe_config];
      rewrite ?Hfd; cbn [app length]; rewrite ?app_nil_r, ?replicate_S_end;
      try reflexivity; try lia.
Qed.

(** [getPerfEventParanoid] only talks to libc. *)
Lemma getPerfEventParanoid_quiet result st :
  wp os (getPerfEventParanoid result)
     (λ _ st', ∃ new,
        st' = (st.1, emits new st.2) ∧
        opened_fds new = [] ∧ opened_attrs new = [] ∧ open_targets new = [] ∧
        failed_opens new = [] ∧ unsupported_events new = [] ∧
        log_lines new = [] ∧ closed_fds new = [] ∧ ioctls new = []) st.
Proof.
  eapply wp_mono; [|apply getPerfEventParanoid_calls].
  intros a st' (new & -> & H). exists new. split; [done|].
  destruct (os_fopen os _); [destruct (os_fgets os _ _)|];
    cbn zeta in H; by destruct H as [-> _].
Qed.

(** What [initializeThreadLocalEvents] does once it knows the level: what
    it asks of the kernel and what it logs. *)
Lemma after_probe_calls c vs ok p st :
  valid catalog st →
  raw_event_values st.2 !! c = Some vs →
  wp os (after_probe catalog c ok p)
     (λ r st', ∃ new,
        if r then
          st' = (set_opened true (set_descriptors (opened_fds new) st.1),
                 set_flag ParticularEventsUnavailabilityLogged true
                   (set_raw_event_values
                      (<[c:=replicate (NUMBER_OF_RAW_EVENTS catalog) 0]>
                         (raw_event_values st.2))
                      (emits new st.2))) ∧
          length (opened_fds new) = NUMBER_OF_RAW_EVENTS catalog ∧
          (∃ level cap, opened_attrs new = attr_of level cap <$> catalog) ∧
          open_targets new = replicate (NUMBER_OF_RAW_EVENTS catalog) (0, -1, -1, 0) ∧
          unsupported_events new =
            (if particular_events_unavailability_logged st.2 then []
             else failed_opens new) ∧
          length (log_lines new) = length (unsupported_events new) ∧
          closed_fds new = [] ∧ ioctls new = []
        else
          st' = (st.1, set_flag PerfUnavailabilityLogged true (emits new st.2)) ∧
          opened_fds new = [] ∧ unsupported_events new = [] ∧
          closed_fds new = [] ∧ ioctls new = [] ∧
          unavailability_lines new =
            (if perf_unavailability_logged st.2 then 0 else 1)%nat) st.
Proof.
  intros Hv Hc. destruct st as [tl [f1 f2 h tr]]. cbn [fst snd trace] in *.
  set (cap := os_hasLinuxCapability os tr CAP_SYS_ADMIN).
  unfold after_probe. destruct ok; cbn [negb orb].
  - wp_step. fold cap. destruct ((3 <=? p) && negb cap).
    + wp_step. cbn [get_flag perf_unavailability_logged].
      destruct f1; cbn [bool_decide decide_rel]; wp_step; [|wp_step];
        (eexists [_]; split; [state_eq|done]) ||
        (eexists [_; _]; split; [state_eq|done]).
    + wp_step. cbn [get_flag particular_events_unavailability_logged].
      set (lg := bool_decide (f2 = false)).
      assert (∀ sh', raw_event_values sh' = h →
        trace sh' = tr ++ [EvHasLinuxCapability CAP_SYS_ADMIN cap] →
        perf_unavailability_logged sh' = f1 →
        particular_events_unavailability_logged sh' = true →
        wp os
        (for_range 0 (NUMBER_OF_RAW_EVENTS catalog) (λ i,
           act (StoreRawValue c i 0);;
           event_info ← index catalog i;
           fd ← perfEventOpenDisabled p cap
                  (event_type event_info) (event_config event_info);
           act (SetDescriptor i fd);;
           if (fd =? -1) && lg
           then LOG_INFO PerfEventsCounters_getLogger
                  (MsgPerfEventUnsupported (event_type event_info)
                     (event_config event_info))
           else Ret tt);; act (SetOpened true);; Ret true)
        (λ r st', ∃ new, r = true ∧
           st' = (set_opened true (set_descriptors (opened_fds new) tl),
                  {| perf_unavailability_logged := f1;
                     particular_events_unavailability_logged := true;
                     raw_event_values :=
                       <[c:=replicate (NUMBER_OF_RAW_EVENTS catalog) 0]> h;
                     trace := tr ++ new |}) ∧
           length (opened_fds new) = NUMBER_OF_RAW_EVENTS catalog ∧
           (∃ level cap, opened_attrs new = attr_of level cap <$> catalog) ∧
           open_targets new = replicate (NUMBER_OF_RAW_EVENTS catalog) (0, -1, -1, 0) ∧
           unsupported_events new = (if lg then failed_opens new else []) ∧
           length (log_lines new) = length (unsupported_events new) ∧
           closed_fds new = [] ∧ ioctls new = [])
        (tl, sh')) as Hloop.
      { intros sh' Hh' Htr' Hf1' Hf2'.
        wp_call open_loop_calls;
          [|eapply valid_same; [exact Hv|done|done]|cbn [snd]; by rewrite Hh'].
        intros [] st1 (new & -> & Hlen & Hat & Htg & Hun & Hlog & Hcl & Hio). wp_step.
        exists (EvHasLinuxCapability CAP_SYS_ADMIN cap :: new).
        split_conj; try done; [|by exists p, cap].
        destruct sh'. simpl in *. subst. state_eq. }
      destruct f2; subst lg; cbn [bool_decide decide_rel] in Hloop |- *;
        (eapply wp_mono; [|by apply Hloop]);
        intros r st' (new & -> & -> & H); by exists new.
  - wp_step. cbn [get_flag perf_unavailability_logged].
    destruct f1; cbn [bool_decide decide_rel]; wp_step; [|wp_step];
      (eexists []; split; [state_eq; by rewrite app_nil_r|done]) ||
      (eexists [_]; split; [state_eq|done]).
Qed.

(** The first call of [initializeThreadLocalEvents] on a thread. *)
Lemma initializeThreadLocalEvents_calls c vs st :
  valid catalog st →
  raw_event_values st.2 !! c = Some vs →
  thread_events_descriptors_opened st.1 = false →
  wp os (initializeThreadLocalEvents catalog c)
     (λ r st', ∃ new,
        if r then
          st' = (set_opened true (set_descriptors (opened_fds new) st.1),
                 set_flag ParticularEventsUnavailabilityLogged true
                   (set_raw_event_values
                      (<[c:=replicate (NUMBER_OF_RAW_EVENTS catalog) 0]>
                         (raw_event_values st.2))
                      (emits new st.2))) ∧
          length (opened_fds new) = NUMBER_OF_RAW_EVENTS catalog ∧
          (∃ level cap, opened_attrs new = attr_of level cap <$> catalog) ∧
          open_targets new = replicate (NUMBER_OF_RAW_EVENTS catalog) (0, -1, -1, 0) ∧
          unsupported_events new =
            (if particular_events_unavailability_logged st.2 then []
             else failed_opens new) ∧
          length (log_lines new) = length (unsupported_events new) ∧
          closed_fds new = [] ∧ ioctls new = []
        else
          st' = (st.1, set_flag PerfUnavailabilityLogged true (emits new st.2)) ∧
          opened_fds new = [] ∧ unsupported_events new = [] ∧
          closed_fds new = [] ∧ ioctls new = [] ∧
          unavailability_lines new =
            (if perf_unavailability_logged st.2 then 0 else 1)%nat) st.
Proof.
  intros Hv Hc Hop. rewrite initializeThreadLocalEvents_after_probe.
  destruct st as [tl sh]. cbn [fst snd] in *.
  wp_step. rewrite Hop.
  wp_call getPerfEventParanoid_quiet.
  intros [ok p] st1 (new1 & -> & Hfd1 & Hat1 & Htg1 & Hfo1 & Hun1 & Hlog1 & Hcl1 & Hio1).
  cbn [fst snd].
  eapply wp_mono; [|eapply (after_probe_calls c vs); [by eapply valid_same|done]].
  intros r st2 [new2 H]. exists (new1 ++ new2). cbn [fst snd] in *.
  destruct r.
  - destruct H as (-> & Hlen & Hat & Htg & Hun & Hlog & Hcl & Hio).
    split_trace. rewrite Hfd1, Hat1, Htg1, Hfo1, Hun1, Hlog1, Hcl1, Hio1. cbn [app].
    split_conj; try done.
    destruct sh. state_eq.
  - destruct H as (-> & Hfd & Hun & Hcl & Hio & Hlines).
    split_trace. rewrite Hfd1, Hun1, Hcl1, Hio1, Hfd, Hun, Hcl, Hio.
    rewrite unavailability_lines_app, (unavailability_lines_log _ Hlog1), Hlines.
    split_conj; try done. destruct sh. state_eq.
Qed.
End Calls.

(** A program that neither calls the kernel on a handle nor warns of such
    a call leaves no trace of one. *)
Lemma run_keeps_handles os {A} (p : prog A) st a st' :
  never (λ R e, uses_handle e || warns_of_failure e) p →
  run os p st = Some (a, st') →
  ∃ new, trace st'.2 = trace st.2 ++ new ∧
         ioctls new = [] ∧ read_values new = [] ∧ failed_calls new = [] ∧
         warned_failures new = [] ∧ closed_fds new = [] ∧ opened_fds new = [].
Proof.
  apply (run_never os (λ R e, uses_handle e || warns_of_failure e)
           (λ st st', ∃ new, trace st'.2 = trace st.2 ++ new ∧
              ioctls new = [] ∧ read_values new = [] ∧ failed_calls new = [] ∧
              warned_failures new = [] ∧ closed_fds new = [] ∧ opened_fds new = [])).
  - intros st0. exists []. by rewrite app_nil_r.
  - intros st1 st2 st3 (n1 & -> & H1) (n2 & -> & H2). exists (n1 ++ n2).
    rewrite <- app_assoc. split; [done|]. split_trace.
    destruct H1 as (-> & -> & -> & -> & -> & ->).
    by destruct H2 as (-> & -> & -> & -> & -> & ->).
  - intros R e [tl sh] r st0 He Hh.
    destruct e; cbn [handle] in Hh; unfold syscall in Hh;
      repeat case_match; simplify_eq; cbn [fst snd emit emits trace];
      try (by exists []; rewrite app_nil_r); try (by eexists [_]).
    + by destruct f; exists []; rewrite app_nil_r.
    + eexists [_]. split; [done|]. by destruct msg, prio.
Qed.

Section Sessions.
Variable os : OS.
Variable catalog : list PerfEventInfo.

(** The loop of [initializeProfileEvents] that enables the valid handles,
    with what it asks of the kernel. *)
Lemma enable_loop_calls st :
  valid catalog st →
  wp os (for_range 0 (NUMBER_OF_RAW_EVENTS catalog) (λ i,
           fd ← act (GetDescriptor i);
           if negb (fd =? -1) then act (Ioctl fd PERF_EVENT_IOC_ENABLE);; Ret tt
           else Ret tt))
     (λ _ st', ∃ new,
        st' = (st.1, emits new st.2) ∧
        ioctls new = (λ fd, (fd, PERF_EVENT_IOC_ENABLE)) <$>
                       filter is_valid_fd (descriptors st.1) ∧
        length new = length (ioctls new)) st.
Proof.
  intros Hv. destruct (Hv) as [Hd _]. destruct st as [tl sh]. cbn [fst snd] in *.
  set (ds := descriptors tl) in *.
  eapply wp_mono; [|apply (wp_for_range os (λ (i : nat) st', ∃ new,
    st' = (tl, emits new sh) ∧
    ioctls new = (λ fd, (fd, PERF_EVENT_IOC_ENABLE)) <$> filter is_valid_fd (take i ds) ∧
    length new = length (ioctls new)))].
  - intros [] st' (new & -> & H). cbn [plus] in H. rewrite take_ge in H by lia.
    by exists new.
  - exists []. by rewrite emits_nil.
  - intros i st [_ Hi] (new & -> & Hio & Hlen). simpl in Hi.
    destruct (lookup_lt_is_Some_2 ds i) as [fd Hfd]; [lia|].
    rewrite (take_S_r _ _ _ Hfd), filter_valid_snoc.
    wp_step. fold ds. rewrite Hfd.
    destruct (fd =? -1); cbn [negb].
    + wp_step. exists new. by rewrite app_nil_r.
    + wp_step. wp_step. trace_witness. split; [state_eq|].
      split_trace. split; [by rewrite Hio, fmap_app|by rewrite !length_app, Hlen].
Qed.

(** The end of [initializeProfileEvents]: the values are reset, the valid
    handles enabled and the session becomes the active one. *)
Lemma start_measuring_calls c vs st :
  valid catalog st →
  raw_event_values st.2 !! c = Some vs →
  wp os (for_range 0 (NUMBER_OF_RAW_EVENTS catalog)
           (λ i, act (StoreRawValue c i 0));;
         for_range 0 (NUMBER_OF_RAW_EVENTS catalog) (λ i,
           fd ← act (GetDescriptor i);
           if negb (fd =? -1) then act (Ioctl fd PERF_EVENT_IOC_ENABLE);; Ret tt
           else Ret tt);;
         act (SetCurrent (Some c)))
     (λ _ st', ∃ new,
        st' = (set_current (Some c) st.1,
               set_raw_event_values
                 (<[c:=replicate (NUMBER_OF_RAW_EVENTS catalog) 0]> (raw_event_values st.2))
                 (emits new st.2)) ∧
        ioctls new = (λ fd, (fd, PERF_EVENT_IOC_ENABLE)) <$>
                       filter is_valid_fd (descriptors st.1) ∧
        length new = length (ioctls new)) st.
Proof.
  intros Hv Hc. destruct (Hv) as [Hd Hh]. destruct (Hh _ _ Hc) as [Hlen _].
  wp_call zero_loop_wp; [|done..]. intros [] st1 ->.
  wp_call enable_loop_calls.
  2:{ eapply (valid_resize catalog st _ _ c);
        [done|done|done|apply length_replicate|apply zeros_range]. }
  intros [] st2 (new & -> & Hio & Hn). cbn [fst snd].
  wp_step. by exists new.
Qed.

(** A trace that holds [ioctl] calls only. *)
Lemma only_ioctls new :
  length new = length (ioctls new) →
  opened_fds new = [] ∧ closed_fds new = [] ∧ read_values new = [] ∧
  log_lines new = [] ∧ ∀ s, increments s new = [].
Proof.
  induction new as [|e new IH]; [done|].
  assert (length (ioctls new) ≤ length new)%nat as Hle.
  { clear. induction new as [|e new IH]; [done|]. destruct e; simpl in *; lia. }
  destruct e; simpl; intros Hlen; try lia.
  apply IH. lia.
Qed.
End Sessions.

(** ** The slots that hold a handle *)

Lemma valid_slots_snoc ds vs fd v :
  length ds = length vs →
  valid_slots (ds ++ [fd]) (vs ++ [v]) =
  valid_slots ds vs ++ (if fd =? -1 then [] else [(fd, v)]).
Proof.
  intros Hlen. unfold valid_slots. rewrite zip_with_app by done.
  rewrite omap_app. f_equal. cbn. by destruct (fd =? -1).
Qed.

Lemma valid_slots_fst ds vs :
  length ds = length vs → (valid_slots ds vs).*1 = filter is_valid_fd ds.
Proof.
  revert vs. induction ds as [|fd ds IH]; intros [|v vs] Hlen; try done.
  injection Hlen as Hlen. unfold valid_slots in *. cbn [zip_with omap list_omap fst].
  unfold is_valid_fd at 1.
  destruct (Z.eqb_spec fd (-1)) as [->|Hne].
  - rewrite filter_cons_False by (intros H; by apply H). by apply IH.
  - rewrite filter_cons_True by done. cbn. f_equal. by apply IH.
Qed.

Section Finalize.
Variable os : OS.
Variable catalog : list PerfEventInfo.

(** The first loop of [finalizeProfileEvents], with what it reads and what
    it keeps. *)
Lemma read_loop_calls c vs st :
  valid catalog st →
  raw_event_values st.2 !! c = Some vs →
  wp os (for_range 0 (NUMBER_OF_RAW_EVENTS catalog) (λ i,
           fd ← act (GetDescriptor i);
           if fd =? -1 then Ret tt else
           res ← act (Read fd);
           match res with
           | Some v => act (StoreRawValue c i v)
           | None =>
               LOG_WARNING PerfEventsCounters_getLogger (MsgCantReadEventValue fd);;
               act (StoreRawValue c i 0)
           end))
     (λ _ st', ∃ vs' new,
        st' = (st.1, set_raw_event_values (<[c:=vs']> (raw_event_values st.2))
                       (emits new st.2)) ∧
        length vs' = NUMBER_OF_RAW_EVENTS catalog ∧ Forall is_UInt64 vs' ∧
        read_values new = valid_slots (descriptors st.1) vs' ∧
        (∀ i, descriptors st.1 !! i = Some (-1) → vs' !! i = vs !! i) ∧
        failed_calls new = warned_failures new ∧
        ioctls new = [] ∧ closed_fds new = [] ∧ opened_fds new = [] ∧
        (∀ s, increments s new = [])) st.
Proof.
  intros Hv Hc. destruct (Hv) as [Hd Hh]. destruct (Hh _ _ Hc) as [Hlen Hrange].
  destruct st as [tl sh]. cbn [fst snd] in *.
  set (ds := descriptors tl) in *.
  eapply wp_mono; [|apply (wp_for_range os (λ (i : nat) st', ∃ pre new,
    st' = (tl, set_raw_event_values (<[c:=pre ++ drop i vs]> (raw_event_values sh))
                 (emits new sh)) ∧
    length pre = i ∧ Forall is_UInt64 pre ∧
    read_values new = valid_slots (take i ds) pre ∧
    (∀ j, ds !! j = Some (-1) → (j < i)%nat → pre !! j = vs !! j) ∧
    failed_calls new = warned_failures new ∧
    ioctls new = [] ∧ closed_fds new = [] ∧ opened_fds new = [] ∧
    (∀ s, increments s new = [])))].
  - intros [] st' (pre & new & -> & Hpre & Hr & Hrd & Hkeep & H). cbn [plus] in *.
    rewrite drop_ge, app_nil_r by lia. rewrite take_ge in Hrd by lia.
    exists pre, new. split_conj; try done; try apply H.
    intros i Hi. apply Hkeep; [done|]. apply lookup_lt_Some in Hi. lia.
  - exists [], []. cbn [app]. rewrite drop_0, insert_id, emits_nil by done.
    rewrite set_raw_event_values_id. split_conj; try done. intros; lia.
  - intros i st [_ Hi]
      (pre & new & -> & Hpre & Hr & Hrd & Hkeep & Hfail & Hio & Hcl & Hop & Hinc).
    simpl in Hi.
    destruct (lookup_lt_is_Some_2 ds i) as [fd Hfd]; [lia|].
    destruct (lookup_lt_is_Some_2 vs i) as [old Hold]; [lia|].
    assert (is_UInt64 old) as Hold_range by (by eapply Forall_lookup_1 in Hrange).
    assert (length (take i ds) = length pre) as Htake.
    { rewrite length_take. lia. }
    assert (∀ x, is_UInt64 x → (fd = -1 → x = old) →
      length (pre ++ [x]) = S i ∧ Forall is_UInt64 (pre ++ [x]) ∧
      ∀ j, ds !! j = Some (-1) → (j < S i)%nat → (pre ++ [x]) !! j = vs !! j)
      as Hext.
    { intros x Hx Hsame. split_conj.
      - rewrite length_app. simpl. lia.
      - apply Forall_app. by split; [|constructor].
      - intros j Hj Hlt. destruct (decide (j = i)) as [->|Hne].
        + rewrite lookup_app_r by lia.
          replace (i - length pre)%nat with 0%nat by lia.
          rewrite Hold, Hsame; [done|congruence].
        + rewrite lookup_app_l by lia. apply Hkeep; [done|lia]. }
    rewrite (take_S_r _ _ _ Hfd).
    wp_step. fold ds. rewrite Hfd.
    destruct (Z.eqb_spec fd (-1)) as [Hm|Hm].
    + wp_step. destruct (Hext old) as (? & ? & ?); [done|done|].
      exists (pre ++ [old]), new. rewrite valid_slots_snoc by done.
      replace (fd =? -1) with true by (symmetry; by apply Z.eqb_eq).
      rewrite app_nil_r. split_conj; try done.
      by rewrite (drop_S vs old i), <- app_assoc.
    + wp_step.
      destruct (os_read os _ fd) as [v|] eqn:Hread; cbn [fmap option_fmap option_map].
      * wp_step. cbn [raw_event_values set_raw_event_values emit emits].
        rewrite lookup_insert_eq, lookup_prefix_drop, Hold by done.
        destruct (Hext (to_UInt64 v)) as (? & ? & ?); [apply to_UInt64_range|done|].
        exists (pre ++ [to_UInt64 v]), (new ++ [EvRead fd (Some (to_UInt64 v))]).
        rewrite valid_slots_snoc by done.
        replace (fd =? -1) with false by (symmetry; by apply Z.eqb_neq).
        split_trace. rewrite Hrd, Hfail, Hio, Hcl, Hop.
        split_conj; try done.
        -- unfold set_raw_event_values, emits. simpl.
           do 2 f_equal; [|by rewrite <- app_assoc].
           by rewrite insert_insert_eq, insert_prefix_drop by lia.
        -- intros s. by rewrite increments_app, Hinc.
      * wp_step. wp_step. cbn [raw_event_values set_raw_event_values emit emits].
        rewrite lookup_insert_eq, lookup_prefix_drop, Hold by done.
        destruct (Hext 0) as (? & ? & ?); [unfold is_UInt64; lia|done|].
        exists (pre ++ [0]),
          (new ++ [EvRead fd None;
                   EvLog PRIO_WARNING PerfEventsCounters_getLogger
                     (MsgCantReadEventValue fd)]).
        rewrite valid_slots_snoc by done.
        replace (fd =? -1) with false by (symmetry; by apply Z.eqb_neq).
        split_trace. rewrite Hrd, Hfail, Hio, Hcl, Hop.
        split_conj; try done.
        -- unfold set_raw_event_values, emits. simpl.
           do 2 f_equal; [|by rewrite <- !app_assoc].
           by rewrite insert_insert_eq, insert_prefix_drop by lia.
        -- intros s. by rewrite increments_app, Hinc.
Qed.

(** The second loop of [finalizeProfileEvents], with what it asks of the
    kernel. *)
Lemma process_loop_calls c vs sink st :
  valid catalog st →
  raw_event_values st.2 !! c = Some vs →
  wp os (for_range 0 (NUMBER_OF_RAW_EVENTS catalog) (λ i,
           fd ← act (GetDescriptor i);
           if fd =? -1 then Ret tt else
           event_info ← index catalog i;
           v ← act (LoadRawValue c i);
           act (Increment sink (profile_event event_info) v);;
           r ← act (Ioctl fd PERF_EVENT_IOC_DISABLE);
           (if negb (r =? 0)
            then LOG_WARNING PerfEventsCounters_getLogger (MsgCantDisable fd)
            else Ret tt);;
           r ← act (Ioctl fd PERF_EVENT_IOC_RESET);
           (if negb (r =? 0)
            then LOG_WARNING PerfEventsCounters_getLogger (MsgCantReset fd)
            else Ret tt)))
     (λ _ st', ∃ new,
        st' = (st.1, emits new st.2) ∧
        (∀ s, increments s new =
              if bool_decide (sink = s)
              then reported catalog (descriptors st.1) vs else []) ∧
        ioctls new = filter is_valid_fd (descriptors st.1) ≫= stop_requests ∧
        failed_calls new = warned_failures new ∧
        read_values new = [] ∧ closed_fds new = [] ∧ opened_fds new = []) st.
Proof.
  intros Hv Hc. destruct (Hv) as [Hd Hh]. destruct (Hh _ _ Hc) as [Hlen _].
  destruct st as [tl sh]. cbn [fst snd] in *.
  set (ds := descriptors tl) in *.
  set (f := λ x : PerfEventInfo * (Z * Z),
              if x.2.1 =? -1 then None else Some (profile_event x.1, x.2.2)).
  eapply wp_mono; [|apply (wp_for_range os (λ (i : nat) st', ∃ new,
    st' = (tl, emits new sh) ∧
    (∀ s, increments s new =
          if bool_decide (sink = s)
          then omap f (take i (zip catalog (zip ds vs))) else []) ∧
    ioctls new = filter is_valid_fd (take i ds) ≫= stop_requests ∧
    failed_calls new = warned_failures new ∧
    read_values new = [] ∧ closed_fds new = [] ∧ opened_fds new = []))].
  - intros [] st' (new & -> & Hinc & Hio & H). cbn [plus] in *.
    rewrite take_ge in Hio by lia. exists new. split_conj; try done; try apply H.
    intros s. rewrite Hinc. case_bool_decide; [|done].
    unfold reported. fold f. rewrite take_ge; [done|].
    rewrite !length_zip_with. unfold NUMBER_OF_RAW_EVENTS in *. lia.
  - exists []. rewrite emits_nil. split_conj; try done.
    intros s. simpl. by case_bool_decide.
  - intros i st [_ Hi] (new & -> & Hinc & Hio & Hfail & Hrd & Hcl & Hop). simpl in Hi.
    destruct (lookup_lt_is_Some_2 ds i) as [fd Hfd]; [lia|].
    destruct (lookup_lt_is_Some_2 vs i) as [v Hval]; [lia|].
    destruct (valid_entry catalog i Hi) as [info Hinfo].
    rewrite (take_zip3_S catalog _ _ _ _ _ _ Hinfo Hfd Hval), omap_app.
    assert (omap f [(info, (fd, v))] =
            if fd =? -1 then [] else [(profile_event info, v)]) as ->.
    { unfold f. cbv [omap list_omap fst snd]. by destruct (fd =? -1). }
    rewrite (take_S_r _ _ _ Hfd), filter_valid_snoc, bind_app.
    wp_step. fold ds. rewrite Hfd.
    destruct (Z.eqb_spec fd (-1)) as [Hm|Hm].
    + wp_step. exists new. split_conj; try done.
      * intros s. rewrite Hinc. case_bool_decide; [|done]. by rewrite app_nil_r.
      * by rewrite Hio, app_nil_r.
    + eapply wp_index; [done|]. wp_step.
      cbn [raw_event_values emits]. rewrite Hc, Hval.
      wp_step. wp_step.
      match goal with |- context [EvIoctl _ PERF_EVENT_IOC_DISABLE ?v] =>
        generalize v end.
      intros r1. wp_if; wp_step; try wp_step.
      all: match goal with |- context [EvIoctl _ PERF_EVENT_IOC_RESET ?v] =>
             generalize v end; intros r2.
      all: wp_if; try wp_step.
      all: trace_witness; split_conj; [state_eq| | | | | | ].
      all: try (intros s); split_trace; rewrite ?Hinc, ?Hio, ?Hfail, ?Hrd, ?Hcl, ?Hop;
        cbv [increments ioctls failed_calls warned_failures read_values closed_fds
             opened_fds omap list_omap stop_requests];
        cbn [mbind list_bind app];
        repeat match goal with H : negb ?b = _ |- _ =>
                 destruct b; simpl in H; try discriminate H; clear H end;
        try case_bool_decide; rewrite ?app_nil_r; try reflexivity.
    all: by rewrite <- app_assoc.
Qed.

(** [finalizeProfileEvents] on the active session of a thread whose handles
    are open: the state it leaves, what it asks of the kernel and what it
    sends to the sink. *)
Lemma finalize_calls c vs sink st :
  valid catalog st →
  raw_event_values st.2 !! c = Some vs →
  current_thread_counters st.1 = Some c →
  thread_events_descriptors_opened st.1 = true →
  wp os (finalizeProfileEvents catalog c sink)
     (λ _ st', ∃ vs' new,
        st' = (set_current None st.1,
               set_raw_event_values (<[c:=vs']> (raw_event_values st.2))
                 (emits new st.2)) ∧
        length vs' = NUMBER_OF_RAW_EVENTS catalog ∧ Forall is_UInt64 vs' ∧
        read_values new = valid_slots (descriptors st.1) vs' ∧
        (∀ i, descriptors st.1 !! i = Some (-1) → vs' !! i = vs !! i) ∧
        ioctls new = filter is_valid_fd (descriptors st.1) ≫= stop_requests ∧
        failed_calls new = warned_failures new ∧
        closed_fds new = [] ∧ opened_fds new = [] ∧
        (∀ s, increments s new =
              if bool_decide (sink = s)
              then reported catalog (descriptors st.1) vs' ++ derived catalog vs'
              else []) ∧
        handle_calls new =
          (ReadCall <$> filter is_valid_fd (descriptors st.1)) ++
          (filter is_valid_fd (descriptors st.1) ≫= stop_calls)) st.
Proof.
  intros Hv Hc Hcur Hop. destruct st as [tl sh]. cbn [fst snd] in *.
  unfold finalizeProfileEvents.
  wp_step. rewrite Hcur, bool_decide_eq_false_2 by (intros H; by apply H).
  wp_step. rewrite Hop. cbn [negb].
  wp_call read_loop_calls; [|done..].
  intros [] st1 (vs' & new1 & -> & Hlen' & Hr' & Hrd1 & Hkeep & Hfail1 & Hio1 &
                 Hcl1 & Hop1 & Hinc1).
  cbn [fst snd] in *.
  assert (valid catalog
            (tl, set_raw_event_values (<[c:=vs']> (raw_event_values sh)) (emits new1 sh)))
    as Hv1 by (by eapply valid_update).
  wp_call process_loop_calls; [|done|cbn; apply lookup_insert_eq].
  intros [] st2 (new2 & -> & Hinc2 & Hio2 & Hfail2 & Hrd2 & Hcl2 & Hop2).
  cbn [fst snd] in *.
  match goal with |- wp _ ?p _ ?s =>
    pose proof (derived_wp os catalog c vs' sink s) as Hwp;
    assert (never (λ R e, uses_handle e || warns_of_failure e) p) as Hnever
      by never_tac
  end.
  apply wp_run in Hwp as ([] & st3 & Hrun & new3 & -> & Hinc3);
    [|cbn; apply lookup_insert_eq|done].
  apply wp_run. eexists tt, _. split; [exact Hrun|].
  apply (run_keeps_handles os _ _ _ _ Hnever) in Hrun
    as (new3' & Htr & Hio3 & Hrd3 & Hfail3 & Hwarn3 & Hcl3 & Hop3).
  cbn [fst snd trace emits set_raw_event_values] in Htr.
  apply app_inv_head in Htr as <-.
  assert (handle_calls (new1 ++ new2 ++ new3) =
          (ReadCall <$> filter is_valid_fd (descriptors tl)) ++
          (filter is_valid_fd (descriptors tl) ≫= stop_calls)) as Hcalls.
  { rewrite !handle_calls_app, (handle_calls_reads new1), (handle_calls_ioctls new2),
      (handle_calls_ioctls new3) by done.
    rewrite Hrd1, Hio2, Hio3, valid_slots_fst, stop_requests_calls, app_nil_r;
      [done|]. destruct Hv as [Hd _]. cbn [fst] in Hd. congruence. }
  exists vs', (new1 ++ new2 ++ new3). rewrite Hcalls. split_trace.
  rewrite Hrd1, Hrd2, Hrd3, Hio1, Hio2, Hio3, Hfail1, Hfail2, Hfail3, Hwarn3,
    Hcl1, Hcl2, Hcl3, Hop1, Hop2, Hop3, !app_nil_r.
  split_conj; try done.
  - unfold emits, set_raw_event_values. simpl. by rewrite <- !app_assoc.
  - intros s. rewrite !increments_app, Hinc1, Hinc2, Hinc3. by case_bool_decide.
Qed.
End Finalize.

(** ** The holder across the calls of a thread *)

Section Holder.
Variable os : OS.
Variable catalog : list PerfEventInfo.

Lemma initializeThreadLocalEvents_opened c st :
  thread_events_descriptors_opened st.1 = true →
  run os (initializeThreadLocalEvents catalog c) st = Some (true, st).
Proof. intros Hop. unfold initializeThreadLocalEvents. simpl. by rewrite Hop. Qed.

(** [initializeProfileEvents] on an idle thread whose handles are open. *)
Lemma initializeProfileEvents_reuse c vs st :
  valid catalog st →
  raw_event_values st.2 !! c = Some vs →
  current_thread_counters st.1 = None →
  thread_events_descriptors_opened st.1 = true →
  wp os (initializeProfileEvents catalog c)
     (λ _ st', ∃ new,
        st' = (set_current (Some c) st.1,
               set_raw_event_values
                 (<[c:=replicate (NUMBER_OF_RAW_EVENTS catalog) 0]> (raw_event_values st.2))
                 (emits new st.2)) ∧
        ioctls new = (λ fd, (fd, PERF_EVENT_IOC_ENABLE)) <$>
                       filter is_valid_fd (descriptors st.1) ∧
        length new = length (ioctls new)) st.
Proof.
  intros Hv Hc Hcur Hop. unfold initializeProfileEvents.
  destruct st as [tl sh]. cbn [fst snd] in *.
  wp_step. rewrite Hcur.
  rewrite bool_decide_eq_false_2 by done.
  rewrite bool_decide_eq_false_2 by (intros H; by apply H).
  rewrite wp_bind. unfold wp at 1.
  rewrite initializeThreadLocalEvents_opened by done. cbn [negb].
  by apply (start_measuring_calls os catalog c vs).
Qed.

(** What [initializeProfileEvents] does to the holder. *)
Lemma initializeProfileEvents_holder c vs st :
  valid catalog st →
  raw_event_values st.2 !! c = Some vs →
  wp os (initializeProfileEvents catalog c)
     (λ _ st', ∃ new,
        trace st'.2 = trace st.2 ++ new ∧ closed_fds new = [] ∧
        ((descriptors st'.1 = descriptors st.1 ∧
          thread_events_descriptors_opened st'.1 = thread_events_descriptors_opened st.1 ∧
          opened_fds new = []) ∨
         (thread_events_descriptors_opened st.1 = false ∧
          thread_events_descriptors_opened st'.1 = true ∧
          descriptors st'.1 = opened_fds new ∧
          length (opened_fds new) = NUMBER_OF_RAW_EVENTS catalog))) st.
Proof.
  intros Hv Hc.
  destruct (current_thread_counters st.1) as [c0|] eqn:Hcur.
  - unfold initializeProfileEvents. destruct st as [tl sh]. cbn [fst snd] in *.
    wp_step. rewrite Hcur. case_bool_decide.
    + wp_step. exists []. rewrite app_nil_r. split_conj; try done. by left.
    + rewrite bool_decide_eq_true_2 by done. wp_step. eexists [_].
      split_conj; try done. by left.
  - destruct (thread_events_descriptors_opened st.1) eqn:Hop.
    + eapply wp_mono; [|by apply (initializeProfileEvents_reuse c vs)].
      intros [] st' (new & -> & Hio & Hn).
      destruct (only_ioctls new Hn) as (Hfd & Hcl & _).
      exists new. split_conj; try done. by left.
    + unfold initializeProfileEvents. destruct st as [tl sh]. cbn [fst snd] in *.
      wp_step. rewrite Hcur.
      rewrite bool_decide_eq_false_2 by done.
      rewrite bool_decide_eq_false_2 by (intros H; by apply H).
      wp_call initializeThreadLocalEvents_calls; [|done..].
      intros r st1 [new1 H]. cbn [fst snd] in H. destruct r; cbn [negb].
      * destruct H as (-> & Hlen & _ & _ & _ & _ & Hcl1 & _).
        eapply wp_mono; [|eapply (start_measuring_calls os catalog c)].
        -- intros [] st2 (new2 & -> & Hio & Hn).
           destruct (only_ioctls new2 Hn) as (Hfd2 & Hcl2 & _).
           exists (new1 ++ new2). split_trace. rewrite Hcl1, Hcl2, Hfd2, app_nil_r.
           split_conj; [destruct sh; state_eq|done|].
           right. cbn. by rewrite app_nil_r.
        -- eapply (valid_resize catalog (tl, sh) _ _ c);
             [done|done|by destruct sh|apply length_replicate|apply zeros_range].
        -- destruct sh. cbn. apply lookup_insert_eq.
      * destruct H as (-> & Hfd & _ & Hcl & _). wp_step.
        exists new1. split_conj; [by destruct sh|done|]. by left.
Qed.

(** The first [initializeProfileEvents] of a thread: all or nothing. *)
Lemma initializeProfileEvents_first c vs st :
  valid catalog st →
  raw_event_values st.2 !! c = Some vs →
  current_thread_counters st.1 = None →
  thread_events_descriptors_opened st.1 = false →
  wp os (initializeProfileEvents catalog c)
     (λ _ st', ∃ new,
       trace st'.2 = trace st.2 ++ new ∧
       ((current_thread_counters st'.1 = Some c ∧
         thread_events_descriptors_opened st'.1 = true ∧
         descriptors st'.1 = opened_fds new ∧
         ioctls new = (λ fd, (fd, PERF_EVENT_IOC_ENABLE)) <$>
                        filter is_valid_fd (opened_fds new) ∧
         raw_event_values st'.2 !! c = Some (replicate (NUMBER_OF_RAW_EVENTS catalog) 0)) ∨
        (st'.1 = st.1 ∧
         raw_event_values st'.2 = raw_event_values st.2 ∧
         opened_fds new = [] ∧ ioctls new = [] ∧
         perf_unavailability_logged st'.2 = true ∧
         unavailability_lines new =
           (if perf_unavailability_logged st.2 then 0 else 1)%nat))) st.
Proof.
  intros Hv Hc Hcur Hop.
  unfold initializeProfileEvents. destruct st as [tl sh]. cbn [fst snd] in *.
  wp_step. rewrite Hcur.
  rewrite bool_decide_eq_false_2 by done.
  rewrite bool_decide_eq_false_2 by (intros H; by apply H).
  wp_call initializeThreadLocalEvents_calls; [|done..].
  intros r st1 [new1 H]. cbn [fst snd] in H. destruct r; cbn [negb].
  - destruct H as (-> & Hlen & _ & _ & _ & _ & _ & Hio1).
    eapply wp_mono; [|eapply (start_measuring_calls os catalog c)].
    + intros [] st2 (new2 & -> & Hio & Hn).
      destruct (only_ioctls new2 Hn) as (Hfd2 & _).
      exists (new1 ++ new2). split; [destruct sh; state_eq|]. left.
      split_trace. rewrite Hfd2, Hio1, Hio, app_nil_r. cbn [app].
      split_conj; try done. cbn. apply lookup_insert_eq.
    + eapply (valid_resize catalog (tl, sh) _ _ c);
        [done|done|by destruct sh|apply length_replicate|apply zeros_range].
    + destruct sh. cbn. apply lookup_insert_eq.
  - destruct H as (-> & Hfd & _ & _ & Hio & Hlines). wp_step.
    exists new1. split; [by destruct sh|]. right.
    split_conj; try done; by destruct sh.
Qed.

Lemma live_kept (st st' : State) c vs' :
  raw_event_values st'.2 = raw_event_values st.2 ∨
  raw_event_values st'.2 = <[c:=vs']> (raw_event_values st.2) →
  ∀ c', live c' st → live c' st'.
Proof. intros [Heq|Heq] c'; unfold live; rewrite Heq; [done|apply live_insert]. Qed.

(** Every call of the public interface on a live object has the effect
    described by [call_effect]. *)
Lemma perform_effect x st :
  valid catalog st →
  active_implies_opened st →
  live (counters_of x) st →
  wp os (perform catalog x) (λ _ st', call_effect catalog st st') st.
Proof.
  intros Hv Hact [vs Hc]. destruct x as [c|c sink]; cbn [perform counters_of] in *.
  - pose proof (initializeProfileEvents_wp os catalog c vs st Hv Hc Hact) as H1.
    pose proof (initializeProfileEvents_holder c vs st Hv Hc) as H2.
    apply wp_run in H1 as ([] & st' & Hrun & Hv' & Hact' & _ & Hraw & _).
    apply wp_run in H2 as ([] & st'' & Hrun' & Hnew).
    rewrite Hrun in Hrun'. injection Hrun' as <-.
    apply wp_run. exists tt, st'. split; [done|]. unfold call_effect.
    split_conj; [done|done| |done]. by eapply live_kept.
  - destruct (decide (current_thread_counters st.1 = Some c)) as [Hcur|Hcur].
    + assert (thread_events_descriptors_opened st.1 = true) as Hop.
      { apply Hact. by rewrite Hcur. }
      eapply wp_mono; [|by apply (finalize_calls os catalog c vs sink st)].
      intros [] st' (vs' & new & -> & Hlen & Hr & _ & _ & _ & _ & Hcl & Hfd & _).
      unfold call_effect. split_conj.
      * by eapply valid_update.
      * intros H. by cbn in H.
      * eapply live_kept. by right.
      * exists new. split_conj; [done|done|]. by left.
    + unfold wp. rewrite finalizeProfileEvents_inactive by done.
      unfold call_effect. split_conj; [done|done|done|]. exists []. rewrite app_nil_r.
      split_conj; [done|done|]. by left.
Qed.

(** A call keeps what the holder owns. *)
Lemma call_effect_owns tr0 st st' :
  call_effect catalog st st' → holder_owns catalog tr0 st → holder_owns catalog tr0 st'.
Proof.
  intros (_ & _ & _ & new2 & Htr2 & Hcl2 & Hcases) (new1 & Htr1 & Hcl1 & Hown).
  exists (new1 ++ new2). rewrite Htr2, Htr1, <- app_assoc. split_trace.
  rewrite Hcl1, Hcl2. split_conj; [done|done|].
  destruct Hcases as [(Hd & Hop & Hfd)|(Hop & Hop' & Hd & Hlen)].
  - rewrite Hop, Hd, Hfd, app_nil_r. done.
  - rewrite Hop in Hown. destruct Hown as [_ ->]. by rewrite Hop', Hd.
Qed.

(** The calls of a thread, one after the other. *)
Lemma perform_all_owns xs tr0 st :
  valid catalog st →
  active_implies_opened st →
  (∀ x, x ∈ xs → live (counters_of x) st) →
  holder_owns catalog tr0 st →
  wp os (perform_all catalog xs)
     (λ _ st', valid catalog st' ∧ holder_owns catalog tr0 st') st.
Proof.
  revert st. induction xs as [|x xs IH]; intros st Hv Hact Hlive Hown.
  - cbn [perform_all]. by rewrite wp_ret.
  - cbn [perform_all]. wp_call perform_effect; [|done|done|].
    + intros [] st1 Heff. pose proof Heff as (Hv1 & Hact1 & Hlive1 & _).
      apply IH; [done|done| |by eapply call_effect_owns].
      intros y Hy. apply Hlive1, Hlive. apply elem_of_cons; by right.
    + apply Hlive, elem_of_cons; by left.
Qed.

Lemma thread_start_owns sh :
  holder_owns catalog (trace sh) (thread_start catalog, sh).
Proof. exists []. by rewrite app_nil_r. Qed.

Lemma thread_start_idle sh : active_implies_opened (thread_start catalog, sh).
Proof. intros H. by cbn in H. Qed.

Lemma opened_fds_attrs new : opened_attrs new = [] → opened_fds new = [].
Proof.
  induction new as [|e new IH]; [done|]. destruct e; simpl; try done.
Qed.
End Holder.

(** ** The second log-once flag under interleaving *)

Lemma silent_bind {A B} (m : prog A) (f : A → prog B) :
  silent m → (∀ a, silent (f a)) → silent (bind m f).
Proof.
  intros Hm Hf. induction m as [a|R e k IH]; simpl; [apply Hf|].
  destruct Hm as (He & Hflag & Hk). split_conj; [done|done|]. intros r. by apply IH.
Qed.

Lemma silent_for_range lo n body :
  (∀ i, silent (body i)) → silent (for_range lo n body).
Proof.
  intros Hbody. revert lo. induction n as [|n IH]; intros lo; simpl; [done|].
  apply silent_bind; [apply Hbody|]. intros _. apply IH.
Qed.

Lemma silent_index {A} (l : list A) i : silent (index l i).
Proof.
  unfold index. destruct (l !! i); [done|]. simpl. split_conj; [done|done|].
  intros [].
Qed.

Lemma silent_Vis {A R} (e : action R) (k : R → prog A) :
  is_event_line e = false → on_particular e = false → (∀ r, silent (k r)) →
  silent (Vis e k).
Proof. by split_conj. Qed.

(** Proves that a program of the file is [silent]. *)
Ltac silent_tac :=
  repeat first
    [ exact I
    | apply silent_index
    | apply silent_for_range; intros ?
    | apply silent_Vis; [reflexivity|reflexivity|intros ?]
    | apply silent_bind; [|intros ?]
    | match goal with
      | |- silent (if ?b then _ else _) => destruct b
      | |- silent (match ?x with _ => _ end) => destruct x
      | |- silent (act _) => unfold act
      | |- silent (LOG_WARNING _ _) => unfold LOG_WARNING
      | |- silent (LOG_INFO _ _) => unfold LOG_INFO
      | |- silent (perfEventOpenDisabled _ _ _ _) =>
          unfold perfEventOpenDisabled, openPerfEvent
      | |- silent (getPerfEventParanoid _) => unfold getPerfEventParanoid
      end ].

Lemma may_report_mono {A} (p : prog A) n n' :
  (n ≤ n')%nat → may_report n p → may_report n' p.
Proof.
  revert n n'. induction p as [a|R e k IH]; intros n n' Hle; [done|].
  cbn [may_report]. destruct (is_event_line e).
  - destruct n as [|n]; [done|]. destruct n' as [|n']; [lia|].
    intros Hk r. apply (IH r n n'); [lia|apply Hk].
  - intros [He Hk]. split; [done|]. intros r. by apply (IH r n n').
Qed.

Lemma silent_may_report {A} (p : prog A) n : silent p → may_report n p.
Proof.
  induction p as [a|R e k IH]; [done|]. intros (He & Hflag & Hk).
  cbn [may_report]. rewrite He. split; [done|]. intros r. by apply IH.
Qed.

Lemma may_report_bind {A B} (m : prog A) (f : A → prog B) a b :
  may_report a m → (∀ x, may_report b (f x)) → may_report (a + b) (bind m f).
Proof.
  revert a. induction m as [x|R e k IH]; intros a Hm Hf; cbn [bind].
  - eapply may_report_mono; [|apply Hf]. lia.
  - cbn [may_report] in *. destruct (is_event_line e).
    + destruct a as [|a]; [done|]. cbn [plus]. intros r. by apply IH.
    + destruct Hm as [He Hk]. split; [done|]. intros r. by apply IH.
Qed.

Lemma may_report_for_range lo n body :
  (∀ i, may_report 1 (body i)) → may_report n (for_range lo n body).
Proof.
  intros Hbody. revert lo. induction n as [|n IH]; intros lo; simpl; [done|].
  apply (may_report_bind _ _ 1 n); [apply Hbody|]. intros _. apply IH.
Qed.

Lemma may_report_Vis {A R} (e : action R) (k : R → prog A) n :
  is_event_line e = false → on_particular e = false → (∀ r, may_report n (k r)) →
  may_report n (Vis e k).
Proof. intros He Hflag Hk. cbn [may_report]. by rewrite He. Qed.

Lemma may_report_index_bind {A B} (l : list A) i (f : A → prog B) n :
  (∀ x, may_report n (f x)) → may_report n (bind (index l i) f).
Proof.
  intros Hf. unfold index. destruct (l !! i); [apply Hf|].
  apply may_report_Vis; [done|done|]. intros [].
Qed.

Lemma report_branches_None {A R} (e : action R) (k : R → prog A) :
  on_particular e = false → report_branches e k = None.
Proof. destruct e; try done. by destruct f. Qed.

Lemma silent_permitted {A} (p : prog A) n : silent p → permitted n p.
Proof.
  induction p as [a|R e k IH]; [done|]. intros (He & Hflag & Hk).
  cbn [permitted]. rewrite report_branches_None by done.
  split_conj; [done|done|]. intros r. by apply IH.
Qed.

Lemma report_branches_bind {A B R} (e : action R) (k : R → prog A) (f : A → prog B) :
  report_branches e (λ r, bind (k r) f) =
  (λ x, (bind x.1 f, bind x.2 f)) <$> report_branches e k.
Proof. destruct e; try done. by destruct f0, expected, desired. Qed.

Lemma permitted_bind_silent {A B} (m : prog A) (f : A → prog B) n :
  permitted n m → (∀ a, silent (f a)) → permitted n (bind m f).
Proof.
  intros Hm Hf. induction m as [a|R e k IH]; [apply silent_permitted, Hf|].
  cbn [bind permitted] in *. rewrite report_branches_bind.
  destruct (report_branches e k) as [[stored lost]|]; simpl.
  - destruct Hm as [Ho Hq]. split; [|by apply silent_bind].
    replace n with (n + 0)%nat by lia. apply may_report_bind; [done|].
    intros a. by apply silent_may_report.
  - destruct Hm as (He & Hflag & Hk). split_conj; [done|done|].
    intros r. by apply IH.
Qed.

Lemma silent_bind_permitted {A B} (m : prog A) (f : A → prog B) n :
  silent m → (∀ a, permitted n (f a)) → permitted n (bind m f).
Proof.
  intros Hm Hf. induction m as [a|R e k IH]; simpl; [apply Hf|].
  destruct Hm as (He & Hflag & Hk). rewrite report_branches_None by done.
  split_conj; [done|done|]. intros r. by apply IH.
Qed.

Lemma permitted_Vis {A R} (e : action R) (k : R → prog A) n :
  is_event_line e = false → on_particular e = false → (∀ r, permitted n (k r)) →
  permitted n (Vis e k).
Proof. intros He Hflag Hk. simpl. by rewrite report_branches_None. Qed.

Lemma permitted_initializeThreadLocalEvents catalog c :
  permitted (NUMBER_OF_RAW_EVENTS catalog) (initializeThreadLocalEvents catalog c).
Proof.
  unfold initializeThreadLocalEvents.
  apply permitted_Vis; [done|done|]. intros opened. cbn [bind].
  destruct opened; [done|].
  apply silent_bind_permitted; [silent_tac|].
  intros [ok p]. destruct (negb ok); [apply silent_permitted; silent_tac|].
  apply permitted_Vis; [done|done|]. intros cap. cbn [bind].
  destruct (_ && _); [apply silent_permitted; silent_tac|].
  unfold act. cbn [bind permitted report_branches]. split.
  - apply (may_report_mono _ (NUMBER_OF_RAW_EVENTS catalog + 0)); [lia|].
    apply may_report_bind; [|intros _; apply silent_may_report; silent_tac].
    apply may_report_for_range. intros i.
    unfold act, perfEventOpenDisabled, openPerfEvent, LOG_INFO. cbn [bind].
    apply may_report_Vis; [done|done|]. intros _.
    apply may_report_index_bind. intros info. cbn [bind].
    apply may_report_Vis; [done|done|]. intros fd.
    apply may_report_Vis; [done|done|]. intros _.
    destruct (_ && _); [|done]. by cbn.
  - apply silent_bind; [|intros _; silent_tac].
    apply silent_for_range. intros i.
    unfold act, perfEventOpenDisabled, openPerfEvent. cbn [bind].
    apply silent_Vis; [done|done|]. intros _.
    apply silent_bind; [apply silent_index|]. intros info. cbn [bind].
    apply silent_Vis; [done|done|]. intros fd.
    apply silent_Vis; [done|done|]. intros _.
    by rewrite andb_false_r.
Qed.

Lemma permitted_initializeProfileEvents catalog c :
  permitted (NUMBER_OF_RAW_EVENTS catalog) (initializeProfileEvents catalog c).
Proof.
  unfold initializeProfileEvents.
  apply permitted_Vis; [done|done|]. intros current. cbn [bind].
  destruct (bool_decide _); [done|].
  destruct (bool_decide _); [apply silent_permitted; silent_tac|].
  apply permitted_bind_silent; [apply permitted_initializeThreadLocalEvents|].
  intros ok. silent_tac.
Qed.

Section ReportOnce.
Variable os : OS.

(** An action that does not concern the second flag leaves it and the
    events reported alone. *)
Lemma handle_unreported {R} (e : action R) tl sh r st' :
  is_event_line e = false → on_particular e = false →
  handle os e (tl, sh) = Some (r, st') →
  particular_events_unavailability_logged st'.2 =
    particular_events_unavailability_logged sh ∧
  unsupported_events (trace st'.2) = unsupported_events (trace sh).
Proof.
  destruct e; intros He Hflag Hh; cbn [handle] in Hh; unfold syscall in Hh;
    repeat case_match; simplify_eq; cbn [fst snd emit emits trace];
    rewrite ?unsupported_events_app, ?app_nil_r; try done.
  - by destruct f.
  - destruct msg; try done; by rewrite app_nil_r.
Qed.

(** The attempt stores exactly when the flag is clear. *)
Lemma handle_report_try {A R} (e : action R) (k : R → prog A) stored lost tl sh r st' :
  report_branches e k = Some (stored, lost) →
  handle os e (tl, sh) = Some (r, st') →
  (particular_events_unavailability_logged sh = false ∧ k r = stored ∧
   st' = (tl, set_flag ParticularEventsUnavailabilityLogged true sh)) ∨
  (particular_events_unavailability_logged sh = true ∧ k r = lost ∧ st' = (tl, sh)).
Proof.
  destruct e; try done. destruct f, expected, desired; try done.
  intros [= <- <-]. simpl.
  destruct (particular_events_unavailability_logged sh) eqn:Hf; simpl.
  - intros [= <- <-]. by right.
  - intros [= <- <-]. by left.
Qed.

(** A line about an unsupported event. *)
Lemma handle_event_line {R} (e : action R) tl sh r st' :
  is_event_line e = true →
  handle os e (tl, sh) = Some (r, st') →
  particular_events_unavailability_logged st'.2 =
    particular_events_unavailability_logged sh ∧
  length (unsupported_events (trace st'.2)) = S (length (unsupported_events (trace sh))).
Proof.
  destruct e; try done. simpl. intros He [= <- <-]. simpl.
  rewrite unsupported_events_app, length_app. split; [done|].
  destruct msg; try done. simpl. lia.
Qed.

(** One step of one thread keeps the process within its [n] lines. *)
Lemma step_reports_within {A} n (m : machine A) i th th' sh' :
  reports_within n m →
  m.1 !! i = Some th →
  step_thread os th m.2 = Some (th', sh') →
  reports_within n (<[i:=th']> m.1, sh').
Proof.
  destruct m as [ts sh]. destruct th as [tl p]. cbn [fst snd].
  intros HJ Hth Hstep. unfold step_thread in Hstep. cbn [code locals] in Hstep.
  destruct p as [a|R e k]; [done|].
  destruct (handle os e (tl, sh)) as [[r st']|] eqn:Hh; [|done].
  injection Hstep as <- <-.
  unfold reports_within in *. cbn [fst snd] in *.
  destruct HJ as [(Hf & Hl & Hall)|(Hf & j & tj & b & Hj & Hjo & Hb & Hothers)].
  - (* the flag is clear *)
    pose proof (Forall_lookup_1 _ _ _ _ Hall Hth) as Hg. cbn [code permitted] in Hg.
    destruct (report_branches e k) as [[stored lost]|] eqn:Htry.
    + destruct Hg as [Ho Hq].
      destruct (handle_report_try _ _ _ _ _ _ _ _ Htry Hh) as [(_ & Hk & ->)|(Hf' & _)];
        [|congruence].
      right. split; [done|].
      exists i, (Thread tl (k r)), n. split_conj.
      * apply list_lookup_insert_eq. by eapply lookup_lt_Some.
      * by rewrite Hk.
      * cbn [snd].
        change (trace (set_flag ParticularEventsUnavailabilityLogged true sh))
          with (trace sh).
        rewrite Hl. simpl. lia.
      * intros j' t' Hne Hj'. rewrite list_lookup_insert_ne in Hj' by done.
        by apply (Forall_lookup_1 _ _ _ _ Hall Hj').
    + destruct Hg as (He & Hflag & Hk).
      destruct (handle_unreported _ _ _ _ _ He Hflag Hh) as [Hf' Hl'].
      left. split_conj; [congruence|congruence|].
      apply Forall_insert; [done|]. apply Hk.
  - (* one thread has won the flag *)
    right. destruct (decide (i = j)) as [->|Hne].
    + assert (tj = Thread tl (Vis e k)) as -> by congruence.
      cbn [code may_report] in Hjo. destruct (is_event_line e) eqn:Hline.
      * destruct (handle_event_line _ _ _ _ _ Hline Hh) as [Hf' Hl'].
        destruct b as [|b]; [done|].
        split; [congruence|]. exists j, (Thread st'.1 (k r)), b. split_conj.
        -- apply list_lookup_insert_eq. by eapply lookup_lt_Some.
        -- apply Hjo.
        -- rewrite Hl'. lia.
        -- intros j' t' Hne' Hj'. rewrite list_lookup_insert_ne in Hj' by done.
           by eapply Hothers.
      * destruct Hjo as [Hflag Hk].
        destruct (handle_unreported _ _ _ _ _ Hline Hflag Hh) as [Hf' Hl'].
        split; [congruence|]. exists j, (Thread st'.1 (k r)), b. split_conj.
        -- apply list_lookup_insert_eq. by eapply lookup_lt_Some.
        -- apply Hk.
        -- by rewrite Hl'.
        -- intros j' t' Hne' Hj'. rewrite list_lookup_insert_ne in Hj' by done.
           by eapply Hothers.
    + pose proof (Hothers _ _ Hne Hth) as Hg. cbn [code permitted] in Hg.
      assert (particular_events_unavailability_logged st'.2 = true ∧
              unsupported_events (trace st'.2) = unsupported_events (trace sh) ∧
              permitted n (k r)) as (Hf' & Hl' & Hg').
      { destruct (report_branches e k) as [[stored lost]|] eqn:Htry.
        - destruct Hg as [Ho Hq].
          destruct (handle_report_try _ _ _ _ _ _ _ _ Htry Hh)
            as [(Hf' & _)|(_ & Hk & ->)]; [congruence|].
          split_conj; [done|done|]. rewrite Hk. by apply silent_permitted.
        - destruct Hg as (He & Hflag & Hk).
          destruct (handle_unreported _ _ _ _ _ He Hflag Hh) as [Hf' Hl'].
          split_conj; [congruence|done|apply Hk]. }
      split; [done|]. exists j, tj, b.
      split_conj; [by rewrite list_lookup_insert_ne|done|by rewrite Hl'|].
      intros j' t' Hne' Hj'. destruct (decide (j' = i)) as [->|Hne''].
      * rewrite list_lookup_insert_eq in Hj' by (by eapply lookup_lt_Some).
        by injection Hj' as <-.
      * rewrite list_lookup_insert_ne in Hj' by done. by eapply Hothers.
Qed.

Lemma sched_reports_within {A} n schedule (m m' : machine A) :
  reports_within n m →
  sched os schedule m = Some m' →
  reports_within n m'.
Proof.
  revert m. induction schedule as [|i schedule IH]; intros m HJ Hs; simpl in Hs.
  - by injection Hs as <-.
  - destruct (m.1 !! i) as [th|] eqn:Hth; [|done].
    destruct (step_thread os th m.2) as [[th' sh']|] eqn:Hstep; [|done].
    apply IH in Hs; [done|]. by eapply step_reports_within.
Qed.
End ReportOnce.

(** ** Threads to which collection is unavailable *)

(** Runs the next action of a thread that stays out of the kernel. *)
Ltac out_step :=
  cbn [stays_out]; split; [reflexivity|]; split; [reflexivity|];
  let sh := fresh "sh" in
  let r := fresh "r" in
  let st' := fresh "st" in
  let Hh := fresh "Hh" in
  intros sh r st' Hh; cbn [handle] in Hh; unfold syscall in Hh;
  cbn [fst snd trace emit emits] in Hh.

(** The attempt on the flag, the line, and the return. *)
Ltac out_fail :=
  out_step;
  match goal with H : context [bool_decide ?P] |- _ => destruct (bool_decide P) end;
  match goal with H : Some _ = Some _ |- _ => injection H as <- <- end;
  cbn [bind negb fst]; [|exact I];
  out_step;
  match goal with H : Some _ = Some _ |- _ => injection H as <- <- end;
  cbn [bind negb]; exact I.

(** A thread that has just started and calls [initializeProfileEvents] in a
    process to which collection is unavailable asks nothing of the kernel
    about handles and keeps its thread-local variables, whatever the other
    threads do in between. *)
Lemma stays_out_first_use os catalog c :
  collection_unavailable os →
  stays_out os (initializeProfileEvents catalog c) (thread_start catalog).
Proof.
  intros Hos.
  unfold initializeProfileEvents, initializeThreadLocalEvents, getPerfEventParanoid,
    LOG_INFO, act.
  cbn [bind].
  out_step. injection Hh as <- <-. cbn [fst thread_start current_thread_counters].
  rewrite bool_decide_eq_false_2 by done.
  rewrite bool_decide_eq_false_2 by (intros H; by apply H).
  cbn [bind]. out_step. injection Hh as <- <-.
  cbn [fst thread_start thread_events_descriptors_opened bind].
  out_step. injection Hh as <- <-. cbn [fst].
  destruct Hos as [Hfopen|(Hfopen & Hfgets & Hstrtol & Hcap)].
  - rewrite Hfopen. cbn [negb bind]. out_fail.
  - rewrite Hfopen. cbn [negb bind]. out_step. injection Hh as <- <-. cbn [fst].
    out_step. injection Hh as <- <-. cbn [fst].
    match goal with |- context [os_fgets os ?tr ?n] =>
      destruct (Hfgets tr n) as [str ->] end.
    cbn [bind]. out_step. injection Hh as <- <-. cbn [fst].
    match goal with |- context [os_strtol os ?tr ?s] =>
      pose proof (Hstrtol tr s) as Hv; generalize dependent (os_strtol os tr s) end.
    intros v Hv. rewrite to_Int64_small by lia.
    replace (v =? 0) with false by (symmetry; apply Z.eqb_neq; lia).
    cbn [bind andb]. out_step. injection Hh as <- <-. cbn [fst]. rewrite Hcap.
    rewrite to_Int32_small by lia.
    replace (3 <=? v) with true by (symmetry; apply Z.leb_le; lia).
    cbn [negb andb bind]. out_fail.
Qed.

Section StaysOut.
Variable os : OS.

(** An action that neither calls the kernel on a handle nor writes a
    thread-local variable. *)
Lemma handle_stays_out {R} (e : action R) tl sh r st' :
  uses_handle e = false → writes_locals e = false →
  handle os e (tl, sh) = Some (r, st') →
  st'.1 = tl ∧
  opened_fds (trace st'.2) = opened_fds (trace sh) ∧
  ioctls (trace st'.2) = ioctls (trace sh) ∧
  read_values (trace st'.2) = read_values (trace sh).
Proof.
  destruct e; intros He Hw Hh; cbn [handle] in Hh; unfold syscall in Hh;
    repeat case_match; simplify_eq; cbn [fst snd emit emits trace];
    rewrite ?opened_fds_app, ?ioctls_app, ?read_values_app, ?app_nil_r; try done.
  by destruct f.
Qed.

Lemma sched_stays_out {A} tl0 schedule (m m' : machine A) :
  Forall (λ t, locals t = tl0 ∧ stays_out os (code t) (locals t)) m.1 →
  sched os schedule m = Some m' →
  Forall (λ t, locals t = tl0) m'.1 ∧
  opened_fds (trace m'.2) = opened_fds (trace m.2) ∧
  ioctls (trace m'.2) = ioctls (trace m.2) ∧
  read_values (trace m'.2) = read_values (trace m.2).
Proof.
  revert m. induction schedule as [|i schedule IH]; intros [ts sh] Hall Hs;
    simpl in Hs.
  - injection Hs as <-. split; [|done]. eapply Forall_impl; [done|]. by intros t [? _].
  - destruct (ts !! i) as [[tl p]|] eqn:Hth; [|done].
    unfold step_thread in Hs. cbn [code locals] in Hs.
    destruct p as [a|R e k]; [done|].
    destruct (handle os e (tl, sh)) as [[r st']|] eqn:Hh; [|done].
    pose proof (Forall_lookup_1 _ _ _ _ Hall Hth) as [Htl (He & Hw & Hk)].
    cbn [locals] in *.
    destruct (handle_stays_out _ _ _ _ _ He Hw Hh) as (Hsame & Hfd & Hio & Hrd).
    apply IH in Hs as (Hall' & Hfd' & Hio' & Hrd').
    + cbn [snd] in *. split_conj; [done|congruence..].
    + cbn [fst]. apply Forall_insert; [done|]. cbn [locals code]. split.
      * congruence.
      * by eapply Hk.
Qed.
End StaysOut.

(** ** What the sink receives *)

(** The raw increments carry metrics of the catalog, in catalog order. *)
Lemma reported_sublist catalog ds vs :
  (reported catalog ds vs).*1 `sublist_of` profile_event <$> catalog.
Proof.
  unfold reported. revert ds vs.
  induction catalog as [|info catalog IH]; intros ds vs; [done|].
  destruct ds as [|fd ds]; [apply sublist_nil_l|].
  destruct vs as [|v vs]; [apply sublist_nil_l|].
  cbn [zip_with omap list_omap fmap list_fmap fst snd].
  destruct (fd =? -1).
  - apply sublist_cons, IH.
  - cbn. apply sublist_skip, IH.
Qed.

Lemma reported_range catalog ds vs :
  Forall is_UInt64 vs → Forall (λ x, is_UInt64 x.2) (reported catalog ds vs).
Proof.
  intros Hvs. unfold reported. apply Forall_forall. intros x Hx.
  apply list_elem_of_omap in Hx as ([info [fd v]] & Hin & Hf).
  simpl in Hf. destruct (fd =? -1); [done|]. injection Hf as <-. simpl.
  apply elem_of_zip_r, elem_of_zip_r in Hin.
  by eapply Forall_forall in Hvs.
Qed.

Lemma find_raw_value_range catalog vs ty cfg :
  Forall is_UInt64 vs → is_UInt64 (find_raw_value catalog vs ty cfg).
Proof.
  intros Hvs. unfold find_raw_value.
  destruct (list_find _ catalog) as [[i info]|]; [|unfold is_UInt64; lia].
  destruct (vs !! i) as [v|] eqn:Hv; simpl; [|unfold is_UInt64; lia].
  by eapply Forall_lookup_1 in Hvs.
Qed.

Lemma ratio_range n d : is_UInt64 n → is_UInt64 d → 0 ≤ ratio n d ≤ n.
Proof.
  unfold is_UInt64, ratio. intros Hn Hd. destruct (Z.eqb_spec d 0); [lia|].
  split; [apply Z.div_pos; lia|]. apply Z.div_le_upper_bound; nia.
Qed.

(** [initializeProfileEvents] on an idle thread: what it enables. *)
Lemma initializeProfileEvents_enables os catalog c vs st :
  valid catalog st →
  raw_event_values st.2 !! c = Some vs →
  current_thread_counters st.1 = None →
  wp os (initializeProfileEvents catalog c)
     (λ _ st', valid catalog st' ∧ ∃ new,
        trace st'.2 = trace st.2 ++ new ∧
        ((current_thread_counters st'.1 = Some c ∧
          thread_events_descriptors_opened st'.1 = true ∧
          is_Some (raw_event_values st'.2 !! c) ∧
          ioctls new = (λ fd, (fd, PERF_EVENT_IOC_ENABLE)) <$>
                         filter is_valid_fd (descriptors st'.1)) ∨
         (current_thread_counters st'.1 = None ∧
          thread_events_descriptors_opened st'.1 = false ∧
          ioctls new = []))) st.
Proof.
  intros Hv Hc Hcur.
  assert (active_implies_opened st) as Hact by (intros H; by rewrite Hcur in H).
  pose proof (initializeProfileEvents_wp os catalog c vs st Hv Hc Hact) as H1.
  apply wp_run in H1 as ([] & st' & Hrun & Hv' & _).
  apply wp_run. exists tt, st'. split; [done|]. split; [done|].
  destruct (thread_events_descriptors_opened st.1) eqn:Hop.
  - pose proof (initializeProfileEvents_reuse os catalog c vs st Hv Hc Hcur Hop) as H2.
    apply wp_run in H2 as ([] & st'' & Hrun' & new & -> & Hio & _).
    rewrite Hrun in Hrun'. injection Hrun' as ->.
    exists new. split; [done|]. left. split_conj; [done|done| |done].
    cbn. rewrite lookup_insert_eq. by eexists.
  - pose proof (initializeProfileEvents_first os catalog c vs st Hv Hc Hcur Hop) as H2.
    apply wp_run in H2 as ([] & st'' & Hrun' & new & Htr & Hcases).
    rewrite Hrun in Hrun'. injection Hrun' as <-.
    exists new. split; [done|].
    destruct Hcases as [(Hcur' & Hop' & Hd & Hio & Hc')|(Htl & _ & _ & Hio & _)].
    + left. rewrite Hd. split_conj; [done|done|by eexists|done].
    + right. rewrite Htl. by split_conj.
Qed.

(** * Further properties of the file *)

(** ** The handles over the life of a thread *)

(** X1: a thread that has just started makes any sequence of calls of
    [initializeProfileEvents] and [finalizeProfileEvents] on live objects
    and exits.  It runs without undefined behaviour, and the descriptors it
    passes to [close] are exactly the valid ones among those
    [perf_event_open] returned to it, in the same order: every handle it
    opened is closed once, at exit, and nothing else is closed. *)
Theorem thread_life_closes_opened_handles os catalog xs sh :
  valid catalog (thread_start catalog, sh) →
  (∀ x, x ∈ xs → live (counters_of x) (thread_start catalog, sh)) →
  ∃ st' new,
    run os (thread_life catalog xs) (thread_start catalog, sh) = Some (tt, st') ∧
    trace st'.2 = trace sh ++ new ∧
    closed_fds new = filter is_valid_fd (opened_fds new) ∧
    descriptors st'.1 = PerfDescriptorsHolder_new catalog.
Proof.
  intros Hv Hlive. unfold thread_life.
  pose proof (perform_all_owns os catalog xs (trace sh) _ Hv
                (thread_start_idle catalog sh) Hlive (thread_start_owns catalog sh))
    as Hwp.
  apply wp_run in Hwp as ([] & st1 & Hrun1 & Hv1 & new1 & Htr1 & Hcl1 & Hown).
  destruct Hv1 as [Hd1 _].
  pose proof (PerfDescriptorsHolder_delete_wp os catalog st1 Hd1) as Hwp.
  apply wp_run in Hwp as ([] & st2 & Hrun2 & new2 & -> & Hcl2 & _ & _ & _ & _ & Hop2 & _).
  apply opened_fds_attrs in Hop2.
  exists (set_descriptors (replicate (NUMBER_OF_RAW_EVENTS catalog) (-1)) st1.1,
          emits new2 st1.2), (new1 ++ new2).
  split_conj.
  - by rewrite run_bind, Hrun1.
  - cbn. by rewrite Htr1, <- app_assoc.
  - rewrite closed_fds_app, opened_fds_app, Hcl1, Hcl2, Hop2, app_nil_r. cbn [app].
    destruct (thread_events_descriptors_opened st1.1).
    + destruct Hown as [-> _]. done.
    + destruct Hown as [-> ->]. apply filter_valid_released.
  - done.
Qed.

Lemma thread_life_closes_opened_handles_witness :
  ∃ st' new,
    run os_level2 (thread_life raw_events_info two_sessions) fresh = Some (tt, st') ∧
    trace st'.2 = trace fresh.2 ++ new ∧
    closed_fds new = filter is_valid_fd (opened_fds new) ∧
    descriptors st'.1 = PerfDescriptorsHolder_new raw_events_info.
Proof.
  apply (thread_life_closes_opened_handles os_level2 raw_events_info two_sessions
           (process_start {[ 7%nat := zeros; 8%nat := zeros ]})).
  - valid_zero.
  - intros x Hx. unfold two_sessions in Hx.
    repeat (apply elem_of_cons in Hx as [->|Hx]; [by eexists|]).
    by apply elem_of_nil in Hx.
Defined.

(** X2: at any point of the life of a thread, after any sequence of calls
    on live objects, the thread has closed nothing, and its holder is
    either unfilled, in which case the thread has opened no handle, or
    holds exactly the descriptors [perf_event_open] returned to the thread,
    one per catalog entry: the handles are opened at most once per thread,
    however many sessions it measures. *)
Theorem holder_holds_what_was_opened os catalog xs sh :
  valid catalog (thread_start catalog, sh) →
  (∀ x, x ∈ xs → live (counters_of x) (thread_start catalog, sh)) →
  ∃ st' new,
    run os (perform_all catalog xs) (thread_start catalog, sh) = Some (tt, st') ∧
    trace st'.2 = trace sh ++ new ∧
    closed_fds new = [] ∧
    if thread_events_descriptors_opened st'.1
    then descriptors st'.1 = opened_fds new ∧
         length (opened_fds new) = NUMBER_OF_RAW_EVENTS catalog
    else descriptors st'.1 = PerfDescriptorsHolder_new catalog ∧ opened_fds new = [].
Proof.
  intros Hv Hlive.
  pose proof (perform_all_owns os catalog xs (trace sh) _ Hv
                (thread_start_idle catalog sh) Hlive (thread_start_owns catalog sh))
    as Hwp.
  apply wp_run in Hwp as ([] & st1 & Hrun1 & _ & new1 & Htr1 & Hcl1 & Hown).
  by exists st1, new1.
Qed.

Lemma holder_holds_what_was_opened_witness :
  ∃ st' new,
    run os_level2 (perform_all raw_events_info two_sessions) fresh = Some (tt, st') ∧
    trace st'.2 = trace fresh.2 ++ new ∧
    closed_fds new = [] ∧
    if thread_events_descriptors_opened st'.1
    then descriptors st'.1 = opened_fds new ∧
         length (opened_fds new) = NUMBER_OF_RAW_EVENTS raw_events_info
    else descriptors st'.1 = PerfDescriptorsHolder_new raw_events_info ∧
         opened_fds new = [].
Proof.
  apply (holder_holds_what_was_opened os_level2 raw_events_info two_sessions
           (process_start {[ 7%nat := zeros; 8%nat := zeros ]})).
  - valid_zero.
  - intros x Hx. unfold two_sessions in Hx.
    repeat (apply elem_of_cons in Hx as [->|Hx]; [by eexists|]).
    by apply elem_of_nil in Hx.
Defined.

(** ** Opening the handles *)

(** X3: the first call of [initializeThreadLocalEvents] on a thread, when
    it succeeds, asks for exactly one handle per catalog entry, in catalog
    order, with the type and the configuration of the entry, each for the
    calling thread on any cpu, outside any group and without flags.  It
    stores the descriptors the kernel returned in the holder, in that order
    ([-1] where the kernel refused), and leaves every value of the counters
    object at 0.  When it fails it asks for no handle. *)
Theorem open_all_fills_holder os catalog c vs st :
  valid catalog st →
  raw_event_values st.2 !! c = Some vs →
  thread_events_descriptors_opened st.1 = false →
  ∃ r st' new,
    run os (initializeThreadLocalEvents catalog c) st = Some (r, st') ∧
    trace st'.2 = trace st.2 ++ new ∧
    if r then
      descriptors st'.1 = opened_fds new ∧
      (λ a, (pe_type a, pe_config a)) <$> opened_attrs new = keys catalog ∧
      open_targets new = replicate (NUMBER_OF_RAW_EVENTS catalog) (0, -1, -1, 0) ∧
      raw_event_values st'.2 !! c = Some (replicate (NUMBER_OF_RAW_EVENTS catalog) 0)
    else opened_fds new = [].
Proof.
  intros Hv Hc Hop.
  pose proof (initializeThreadLocalEvents_calls os catalog c vs st Hv Hc Hop) as Hwp.
  apply wp_run in Hwp as (r & st' & Hrun & new & H).
  exists r, st', new. split; [done|]. destruct r.
  - destruct H as (-> & _ & (level & cap & Hat) & Htg & _). split_conj; try done.
    + rewrite Hat. unfold keys. by rewrite <- list_fmap_compose.
    + cbn. apply lookup_insert_eq.
  - by destruct H as (-> & Hfd & _).
Qed.

Lemma open_all_fills_holder_witness :
  ∃ r st' new,
    run os_seeded (initializeThreadLocalEvents raw_events_info 7%nat) fresh
    = Some (r, st') ∧
    trace st'.2 = trace fresh.2 ++ new ∧
    if r then
      descriptors st'.1 = opened_fds new ∧
      (λ a, (pe_type a, pe_config a)) <$> opened_attrs new = keys raw_events_info ∧
      open_targets new =
        replicate (NUMBER_OF_RAW_EVENTS raw_events_info) (0, -1, -1, 0) ∧
      raw_event_values st'.2 !! 7%nat =
        Some (replicate (NUMBER_OF_RAW_EVENTS raw_events_info) 0)
    else opened_fds new = [].
Proof.
  apply (open_all_fills_holder os_seeded raw_events_info 7%nat zeros fresh).
  - valid_zero.
  - reflexivity.
  - reflexivity.
Defined.

(** X4: the same call, when it succeeds, leaves
    [particular_events_unavailability_logged] set.  If the flag was clear
    it logs one line per handle the kernel refused, in catalog order, with
    the type and the configuration of the event; if the flag was already
    set it logs no such line.  It logs nothing else, and when it fails it
    logs no such line. *)
Theorem unsupported_events_logged_by_first_thread os catalog c vs st :
  valid catalog st →
  raw_event_values st.2 !! c = Some vs →
  thread_events_descriptors_opened st.1 = false →
  ∃ r st' new,
    run os (initializeThreadLocalEvents catalog c) st = Some (r, st') ∧
    trace st'.2 = trace st.2 ++ new ∧
    if r then
      particular_events_unavailability_logged st'.2 = true ∧
      unsupported_events new =
        (if particular_events_unavailability_logged st.2 then []
         else failed_opens new) ∧
      length (log_lines new) = length (unsupported_events new)
    else unsupported_events new = [].
Proof.
  intros Hv Hc Hop.
  pose proof (initializeThreadLocalEvents_calls os catalog c vs st Hv Hc Hop) as Hwp.
  apply wp_run in Hwp as (r & st' & Hrun & new & H).
  exists r, st', new. split; [done|]. destruct r.
  - by destruct H as (-> & _ & _ & _ & Hun & Hlog & _).
  - by destruct H as (-> & _ & Hun & _).
Qed.

Lemma unsupported_events_logged_by_first_thread_witness :
  ∃ r st' new,
    run os_seeded (initializeThreadLocalEvents raw_events_info 7%nat) fresh
    = Some (r, st') ∧
    trace st'.2 = trace fresh.2 ++ new ∧
    if r then
      particular_events_unavailability_logged st'.2 = true ∧
      unsupported_events new =
        (if particular_events_unavailability_logged fresh.2 then []
         else failed_opens new) ∧
      length (log_lines new) = length (unsupported_events new)
    else unsupported_events new = [].
Proof.
  apply (unsupported_events_logged_by_first_thread os_seeded raw_events_info 7%nat
           zeros fresh).
  - valid_zero.
  - reflexivity.
  - reflexivity.
Defined.

(** X5: threads that have just started call [initializeProfileEvents]
    concurrently, in a process that has just started, in any environment.
    Whatever the interleaving of their atomic steps, the process logs at
    most one line about an unsupported event per catalog entry, and none
    while [particular_events_unavailability_logged] is clear: only the
    thread that wins the flag reports the events the kernel refused. *)
Theorem unsupported_events_logged_by_one_thread os catalog objects cs schedule m' :
  sched os schedule (first_use catalog cs, process_start objects) = Some m' →
  (length (unsupported_events (trace m'.2)) ≤ NUMBER_OF_RAW_EVENTS catalog)%nat ∧
  (particular_events_unavailability_logged m'.2 = false →
   unsupported_events (trace m'.2) = []).
Proof.
  intros Hs.
  apply (sched_reports_within os (NUMBER_OF_RAW_EVENTS catalog)) in Hs.
  - destruct Hs as [(Hf & Hl & _)|(Hf & i & t & b & _ & _ & Hb & _)].
    + rewrite Hl. split; [simpl; lia|done].
    + split; [lia|congruence].
  - left. split_conj; [done|done|].
    cbn [fst]. unfold first_use. apply Forall_fmap, Forall_forall. intros c _.
    apply permitted_initializeProfileEvents.
Qed.

Lemma unsupported_events_logged_by_one_thread_witness :
  ∃ m',
    sched os_seeded overtaking_schedule two_threads = Some m' ∧
    (length (unsupported_events (trace m'.2)) ≤ NUMBER_OF_RAW_EVENTS raw_events_info)%nat ∧
    (particular_events_unavailability_logged m'.2 = false →
     unsupported_events (trace m'.2) = []).
Proof.
  assert (∃ m', sched os_seeded overtaking_schedule two_threads = Some m')
    as [m' Hs].
  { eexists. vm_compute. reflexivity. }
  exists m'. split; [exact Hs|].
  apply (unsupported_events_logged_by_one_thread os_seeded raw_events_info
           {[ 7%nat := zeros; 8%nat := zeros ]} [7%nat; 8%nat] overtaking_schedule m').
  exact Hs.
Defined.

(** ** The system calls of a session *)

(** X6: [finalizeProfileEvents] on the active session of a thread whose
    handles are open first reads every valid descriptor of the holder once,
    in order, and only then disables and resets each of them, in order:
    the calls it makes on handles, in the order it makes them, are these
    reads followed by these [ioctl]s, and no other.  It opens and closes
    nothing and leaves the holder as it is, so the handles serve the next
    session; the reads, disables and resets that fail are those it warns
    of, in the same order. *)
Theorem finalize_system_calls os catalog c vs sink st :
  valid catalog st →
  raw_event_values st.2 !! c = Some vs →
  current_thread_counters st.1 = Some c →
  thread_events_descriptors_opened st.1 = true →
  ∃ st' new,
    run os (finalizeProfileEvents catalog c sink) st = Some (tt, st') ∧
    trace st'.2 = trace st.2 ++ new ∧
    descriptors st'.1 = descriptors st.1 ∧
    thread_events_descriptors_opened st'.1 = true ∧
    handle_calls new =
      (ReadCall <$> filter is_valid_fd (descriptors st.1)) ++
      (filter is_valid_fd (descriptors st.1) ≫= stop_calls) ∧
    (read_values new).*1 = filter is_valid_fd (descriptors st.1) ∧
    ioctls new = filter is_valid_fd (descriptors st.1) ≫= stop_requests ∧
    opened_fds new = [] ∧ closed_fds new = [] ∧
    failed_calls new = warned_failures new.
Proof.
  intros Hv Hc Hcur Hop.
  pose proof (finalize_calls os catalog c vs sink st Hv Hc Hcur Hop) as Hwp.
  apply wp_run in Hwp
    as ([] & st' & Hrun & vs' & new & -> & Hlen & _ & Hrd & _ & Hio & Hfail & Hcl & Hfd &
        _ & Hcalls).
  exists (set_current None st.1,
          set_raw_event_values (<[c:=vs']> (raw_event_values st.2)) (emits new st.2)),
         new.
  split_conj; try done.
  rewrite Hrd. apply valid_slots_fst. destruct Hv as [Hd _]. congruence.
Qed.

Lemma finalize_system_calls_witness :
  ∃ st' new,
    run os_failing_close (finalizeProfileEvents raw_events_info 7%nat 99%nat) measuring
    = Some (tt, st') ∧
    trace st'.2 = trace measuring.2 ++ new ∧
    descriptors st'.1 = descriptors measuring.1 ∧
    thread_events_descriptors_opened st'.1 = true ∧
    handle_calls new =
      (ReadCall <$> filter is_valid_fd (descriptors measuring.1)) ++
      (filter is_valid_fd (descriptors measuring.1) ≫= stop_calls) ∧
    (read_values new).*1 = filter is_valid_fd (descriptors measuring.1) ∧
    ioctls new = filter is_valid_fd (descriptors measuring.1) ≫= stop_requests ∧
    opened_fds new = [] ∧ closed_fds new = [] ∧
    failed_calls new = warned_failures new.
Proof.
  apply (finalize_system_calls os_failing_close raw_events_info 7%nat zeros 99%nat
           measuring).
  - valid_zero.
  - reflexivity.
  - reflexivity.
  - reflexivity.
Defined.

(** X7: the same call leaves in the counters object, for every valid
    descriptor, the value that its read returned, and 0 when the read
    failed; the values at the other indices, and all other objects, are
    left as they were.  What the sink receives is computed from the values
    so stored. *)
Theorem finalize_keeps_what_it_read os catalog c vs sink st :
  valid catalog st →
  raw_event_values st.2 !! c = Some vs →
  current_thread_counters st.1 = Some c →
  thread_events_descriptors_opened st.1 = true →
  ∃ st' vs' new,
    run os (finalizeProfileEvents catalog c sink) st = Some (tt, st') ∧
    trace st'.2 = trace st.2 ++ new ∧
    raw_event_values st'.2 = <[c:=vs']> (raw_event_values st.2) ∧
    valid_slots (descriptors st.1) vs' = read_values new ∧
    (∀ i, descriptors st.1 !! i = Some (-1) → vs' !! i = vs !! i) ∧
    increments sink new = reported catalog (descriptors st.1) vs' ++ derived catalog vs'.
Proof.
  intros Hv Hc Hcur Hop.
  pose proof (finalize_calls os catalog c vs sink st Hv Hc Hcur Hop) as Hwp.
  apply wp_run in Hwp
    as ([] & st' & Hrun & vs' & new & -> & _ & _ & Hrd & Hkeep & _ & _ & _ & _ & Hinc & _).
  exists (set_current None st.1,
          set_raw_event_values (<[c:=vs']> (raw_event_values st.2)) (emits new st.2)),
         vs', new.
  split_conj; try done. by rewrite Hinc, bool_decide_eq_true_2.
Qed.

Lemma finalize_keeps_what_it_read_witness :
  ∃ st' vs' new,
    run os_seeded (finalizeProfileEvents raw_events_info 7%nat 99%nat) measuring
    = Some (tt, st') ∧
    trace st'.2 = trace measuring.2 ++ new ∧
    raw_event_values st'.2 = <[7%nat:=vs']> (raw_event_values measuring.2) ∧
    valid_slots (descriptors measuring.1) vs' = read_values new ∧
    (∀ i, descriptors measuring.1 !! i = Some (-1) → vs' !! i = zeros !! i) ∧
    increments 99%nat new =
      reported raw_events_info (descriptors measuring.1) vs' ++
      derived raw_events_info vs'.
Proof.
  apply (finalize_keeps_what_it_read os_seeded raw_events_info 7%nat zeros 99%nat
           measuring).
  - valid_zero.
  - reflexivity.
  - reflexivity.
  - reflexivity.
Defined.

(** X8: [initializeProfileEvents] on an idle thread whose handles are
    already open asks for no handle again: it sets every value of the
    counters object to 0, enables each valid descriptor of the holder, in
    order, with one [ioctl], makes the session the active one, and does
    nothing else. *)
Theorem initialize_enables_open_handles os catalog c vs st :
  valid catalog st →
  raw_event_values st.2 !! c = Some vs →
  current_thread_counters st.1 = None →
  thread_events_descriptors_opened st.1 = true →
  ∃ new,
    run os (initializeProfileEvents catalog c) st =
      Some (tt, (set_current (Some c) st.1,
                 set_raw_event_values
                   (<[c:=replicate (NUMBER_OF_RAW_EVENTS catalog) 0]>
                      (raw_event_values st.2))
                   (emits new st.2))) ∧
    ioctls new = (λ fd, (fd, PERF_EVENT_IOC_ENABLE)) <$>
                   filter is_valid_fd (descriptors st.1) ∧
    length new = length (ioctls new).
Proof.
  intros Hv Hc Hcur Hop.
  pose proof (initializeProfileEvents_reuse os catalog c vs st Hv Hc Hcur Hop) as Hwp.
  apply wp_run in Hwp as ([] & st' & Hrun & new & -> & Hio & Hn).
  by exists new.
Qed.

Lemma initialize_enables_open_handles_witness :
  ∃ new,
    run os_seeded (initializeProfileEvents raw_events_info 8%nat) resting =
      Some (tt, (set_current (Some 8%nat) resting.1,
                 set_raw_event_values
                   (<[8%nat:=replicate (NUMBER_OF_RAW_EVENTS raw_events_info) 0]>
                      (raw_event_values resting.2))
                   (emits new resting.2))) ∧
    ioctls new = (λ fd, (fd, PERF_EVENT_IOC_ENABLE)) <$>
                   filter is_valid_fd (descriptors resting.1) ∧
    length new = length (ioctls new).
Proof.
  apply (initialize_enables_open_handles os_seeded raw_events_info 8%nat zeros resting).
  - split; [reflexivity|]. intros c vs H. unfold resting in H.
    cbn [snd raw_event_values process_start] in H.
    repeat (apply lookup_insert_Some in H as [[? ?]|[_ H]];
            [subst; split; [reflexivity|small_values]|]).
    apply lookup_singleton_Some in H as [? ?].
    subst; split; [reflexivity|small_values].
  - reflexivity.
  - reflexivity.
  - reflexivity.
Defined.

(** X9: calling [finalizeProfileEvents] a second time for the same session
    does nothing: whatever the first call did, a later call for that
    session, with any sink, leaves the state and the trace as they are, so
    nothing is reported twice. *)
Theorem finalize_twice os catalog c vs sink st :
  valid catalog st →
  raw_event_values st.2 !! c = Some vs →
  ∃ st',
    run os (finalizeProfileEvents catalog c sink) st = Some (tt, st') ∧
    ∀ sink', run os (finalizeProfileEvents catalog c sink') st' = Some (tt, st').
Proof.
  intros Hv Hc.
  destruct (decide (current_thread_counters st.1 = Some c)) as [Hcur|Hcur].
  - destruct (thread_events_descriptors_opened st.1) eqn:Hop.
    + pose proof (finalize_wp os catalog c vs sink st Hv Hc Hcur Hop) as Hwp.
      apply wp_run in Hwp as ([] & st' & Hrun & vs' & new & -> & _).
      eexists. split; [done|]. intros sink'.
      by apply finalizeProfileEvents_inactive.
    + assert (∀ sink', run os (finalizeProfileEvents catalog c sink') st = Some (tt, st))
        as Hrun.
      { intros sink'. unfold finalizeProfileEvents. simpl.
        rewrite Hcur, bool_decide_eq_false_2 by (intros H; by apply H).
        simpl. by rewrite Hop. }
      exists st. by split.
  - exists st. split; [|intros sink']; by apply finalizeProfileEvents_inactive.
Qed.

Lemma finalize_twice_witness :
  ∃ st',
    run os_seeded (finalizeProfileEvents raw_events_info 7%nat 99%nat) measuring
    = Some (tt, st') ∧
    ∀ sink', run os_seeded (finalizeProfileEvents raw_events_info 7%nat sink') st'
             = Some (tt, st').
Proof.
  apply (finalize_twice os_seeded raw_events_info 7%nat zeros 99%nat measuring).
  - valid_zero.
  - reflexivity.
Defined.

(** ** Reading the level *)

(** X10: [getPerfEventParanoid] changes nothing but the trace, and closes
    the level file exactly when it could open it: either [fopen] fails and
    nothing else is called, or [fopen] is followed by one [fgets] of at most
    two characters and by [fclose], and then by at most one [strtol].  When
    it answers [false] it leaves [result] as it was. *)
Theorem paranoid_file_is_closed os result st :
  ∃ ok p new,
    run os (getPerfEventParanoid result) st = Some ((ok, p), (st.1, emits new st.2)) ∧
    (new = [EvFopen false] ∨
     ∃ res rest,
       new = EvFopen true :: EvFgets 3 res :: EvFclose :: rest ∧
       (rest = [] ∨ ∃ str value, rest = [EvStrtol str value])) ∧
    (ok = false → p = result).
Proof.
  pose proof (getPerfEventParanoid_calls os result st) as Hwp.
  apply wp_run in Hwp as ([ok p] & st' & Hrun & new & -> & H).
  exists ok, p, new. split; [done|].
  destruct (os_fopen os _); [destruct (os_fgets os _ _) as [line|]|]; cbn zeta in H.
  - destruct H as [-> H]. split.
    + right. eexists _, [_]. split; [done|]. right. by eexists _, _.
    + intros ->. destruct (_ && _); by injection H.
  - destruct H as [-> [= -> ->]]. split; [|done].
    right. eexists _, []. split; [done|]. by left.
  - destruct H as [-> [= -> ->]]. split; [by left|done].
Qed.

(** X11: when the level file can be opened and a line of it read, the
    level is what [strtol] makes of the first two characters of the line,
    narrowed to [Int32].  The call succeeds whenever that number is not 0;
    when it is 0 the call succeeds exactly if [errno] is 0, and otherwise
    answers [false] and leaves [result] as it was. *)
Theorem paranoid_level_is_parsed os result st line :
  os_fopen os (trace st.2) = true →
  os_fgets os (trace st.2 ++ [EvFopen true]) 3 = Some line →
  let str := substring 0 2 line in
  let tr := trace st.2 ++ [EvFopen true; EvFgets 3 (Some line); EvFclose] in
  let value := to_Int64 (os_strtol os tr str) in
  let errno := to_int (os_errno os (tr ++ [EvStrtol str value])) in
  ∃ ok p st',
    run os (getPerfEventParanoid result) st = Some ((ok, p), st') ∧
    (value ≠ 0 → ok = true ∧ p = to_Int32 value) ∧
    (value = 0 → errno = 0 → ok = true ∧ p = 0) ∧
    (value = 0 → errno ≠ 0 → ok = false ∧ p = result).
Proof.
  intros Hfopen Hfgets str tr value errno.
  pose proof (getPerfEventParanoid_calls os result st) as Hwp.
  apply wp_run in Hwp as ([ok p] & st' & Hrun & new & -> & H).
  rewrite Hfopen, Hfgets in H. cbn zeta in H. fold str tr value errno in H.
  destruct H as [_ H]. exists ok, p, (st.1, emits new st.2). split; [done|].
  split_conj.
  - intros Hv. apply Z.eqb_neq in Hv. rewrite Hv in H. by injection H.
  - intros Hv He. rewrite Hv, He in H. by injection H.
  - intros Hv He. apply Z.eqb_neq in He. rewrite Hv, He in H. by injection H.
Qed.

Lemma paranoid_level_is_parsed_witness :
  ∃ ok p st',
    run os_level2 (getPerfEventParanoid 0) fresh = Some ((ok, p), st') ∧
    (2 ≠ 0 → ok = true ∧ p = 2).
Proof.
  destruct (paranoid_level_is_parsed os_level2 0 fresh ("2" ++ LF)%string)
    as (ok & p & st' & Hrun & H & _); [reflexivity|reflexivity|].
  by exists ok, p, st'.
Defined.

(** ** Looking up the value of a catalog entry *)

(** X12: in a catalog whose entries have pairwise distinct types and
    configurations, as those of [raw_events_info] are, [getRawValue] asked
    for the type and the configuration of the entry at index [i] answers
    the value stored at index [i], logs nothing and changes nothing: the
    search never stops at another entry. *)
Theorem getRawValue_of_entry os catalog c vs st i info v :
  NoDup (keys catalog) →
  raw_event_values st.2 !! c = Some vs →
  length vs = NUMBER_OF_RAW_EVENTS catalog →
  catalog !! i = Some info →
  vs !! i = Some v →
  run os (getRawValue catalog c (event_type info) (event_config info)) st = Some (v, st).
Proof.
  intros Hnd Hc Hlen Hi Hv.
  pose proof (getRawValue_wp os catalog c vs (event_type info) (event_config info)
                st Hc Hlen) as Hwp.
  apply wp_run in Hwp as (v' & st' & Hrun & -> & ->).
  assert (list_find (λ info', event_type info' = event_type info ∧
                              event_config info' = event_config info) catalog
          = Some (i, info)) as Hfind.
  { apply list_find_Some. split_conj; try done.
    intros j y Hj Hlt [Hty Hcfg].
    assert (keys catalog !! j = Some (event_type info, event_config info)) as Hkj.
    { unfold keys. rewrite list_lookup_fmap, Hj. simpl. by rewrite Hty, Hcfg. }
    assert (keys catalog !! i = Some (event_type info, event_config info)) as Hki.
    { unfold keys. by rewrite list_lookup_fmap, Hi. }
    pose proof (NoDup_lookup _ _ _ _ Hnd Hkj Hki). lia. }
  unfold find_raw_value, missing_line in Hrun. rewrite Hfind, Hv, emits_nil in Hrun.
  by destruct st.
Qed.

Lemma getRawValue_of_entry_witness :
  run os_seeded
    (getRawValue raw_events_info 7%nat PERF_TYPE_SOFTWARE PERF_COUNT_SW_CONTEXT_SWITCHES)
    measuring
  = Some (0, measuring).
Proof.
  apply (getRawValue_of_entry os_seeded raw_events_info 7%nat zeros measuring 12%nat
           (softwareEvent PERF_COUNT_SW_CONTEXT_SWITCHES
              ProfileEvents.PERF_COUNT_SW_CONTEXT_SWITCHES) 0).
  - apply (bool_decide_unpack _). vm_compute. exact I.
  - reflexivity.
  - reflexivity.
  - reflexivity.
  - reflexivity.
Defined.

(** ** The increments of a session *)

(** X13: when the metrics of the catalog are pairwise distinct and none of
    them is one of the two derived metrics, as in [raw_events_info],
    [finalizeProfileEvents] on the active session increments every metric
    of the sink at most once. *)
Theorem finalize_increments_each_metric_once os catalog c vs sink st :
  NoDup (profile_event <$> catalog) →
  ProfileEvents.PERF_CUSTOM_INSTRUCTIONS_PER_CPU_CYCLE_SCALED
    ∉ profile_event <$> catalog →
  ProfileEvents.PERF_CUSTOM_INSTRUCTIONS_PER_CPU_CYCLE ∉ profile_event <$> catalog →
  valid catalog st →
  raw_event_values st.2 !! c = Some vs →
  current_thread_counters st.1 = Some c →
  thread_events_descriptors_opened st.1 = true →
  ∃ st' new,
    run os (finalizeProfileEvents catalog c sink) st = Some (tt, st') ∧
    trace st'.2 = trace st.2 ++ new ∧
    NoDup (increments sink new).*1.
Proof.
  intros Hnd Hs Hp Hv Hc Hcur Hop.
  pose proof (finalize_wp os catalog c vs sink st Hv Hc Hcur Hop) as Hwp.
  apply wp_run in Hwp as ([] & st' & Hrun & vs' & new & -> & _ & _ & _ & Hinc).
  eexists _, new. split_conj; [done|done|].
  rewrite Hinc, bool_decide_eq_true_2 by done. rewrite fmap_app.
  pose proof (reported_sublist catalog (descriptors st.1) vs') as Hsub.
  apply NoDup_app. split_conj.
  - by apply (sublist_NoDup _ _ Hnd).
  - intros ev Hev Hd. apply (elem_of_sublist _ _ _ Hev) in Hsub.
    cbn in Hd. apply elem_of_cons in Hd as [->|Hd]; [done|].
    apply elem_of_cons in Hd as [->|Hd]; [done|]. by apply elem_of_nil in Hd.
  - cbn. apply NoDup_cons. split; [|apply NoDup_singleton].
    intros Hd. by apply list_elem_of_singleton in Hd.
Qed.

Lemma finalize_increments_each_metric_once_witness :
  ∃ st' new,
    run os_seeded (finalizeProfileEvents raw_events_info 7%nat 99%nat) measuring
    = Some (tt, st') ∧
    trace st'.2 = trace measuring.2 ++ new ∧
    NoDup (increments 99%nat new).*1.
Proof.
  apply (finalize_increments_each_metric_once os_seeded raw_events_info 7%nat zeros
           99%nat measuring).
  - apply (bool_decide_unpack _). vm_compute. exact I.
  - apply (bool_decide_unpack _). vm_compute. exact I.
  - apply (bool_decide_unpack _). vm_compute. exact I.
  - valid_zero.
  - reflexivity.
  - reflexivity.
  - reflexivity.
Defined.

(** X14: on the active session of a thread whose handles are open, what
    [finalizeProfileEvents] sends to the sink is one amount per valid handle
    followed by the two derived metrics, in this order and nothing else;
    every amount sent fits an unsigned 64-bit integer, and the amount sent
    for each derived metric is at most the number of instructions it is
    derived from, the one stored for the session. *)
Theorem finalize_amounts_fit os catalog c vs sink st :
  valid catalog st →
  raw_event_values st.2 !! c = Some vs →
  current_thread_counters st.1 = Some c →
  thread_events_descriptors_opened st.1 = true →
  ∃ st' vs' new scaled per_cycle,
    run os (finalizeProfileEvents catalog c sink) st = Some (tt, st') ∧
    trace st'.2 = trace st.2 ++ new ∧
    raw_event_values st'.2 !! c = Some vs' ∧
    increments sink new =
      reported catalog (descriptors st.1) vs' ++
      [ (ProfileEvents.PERF_CUSTOM_INSTRUCTIONS_PER_CPU_CYCLE_SCALED, scaled);
        (ProfileEvents.PERF_CUSTOM_INSTRUCTIONS_PER_CPU_CYCLE, per_cycle) ] ∧
    Forall (λ x, 0 ≤ x.2 < 2 ^ 64) (increments sink new) ∧
    scaled ≤ find_raw_value catalog vs' PERF_TYPE_HARDWARE PERF_COUNT_HW_INSTRUCTIONS ∧
    per_cycle ≤ find_raw_value catalog vs' PERF_TYPE_HARDWARE PERF_COUNT_HW_INSTRUCTIONS.
Proof.
  intros Hv Hc Hcur Hop.
  pose proof (finalize_wp os catalog c vs sink st Hv Hc Hcur Hop) as Hwp.
  apply wp_run in Hwp as ([] & st' & Hrun & vs' & new & -> & _ & Hr & _ & Hinc).
  assert (∀ cfg d, 0 ≤ ratio (find_raw_value catalog vs' PERF_TYPE_HARDWARE cfg)
                           (find_raw_value catalog vs' PERF_TYPE_HARDWARE d)
                   ≤ find_raw_value catalog vs' PERF_TYPE_HARDWARE cfg) as Hratio.
  { intros cfg d. apply ratio_range; by apply find_raw_value_range. }
  assert (∀ cfg, find_raw_value catalog vs' PERF_TYPE_HARDWARE cfg < 2 ^ 64) as Hraw.
  { intros cfg. by apply find_raw_value_range. }
  specialize (Hinc sink). rewrite bool_decide_eq_true_2 in Hinc by done.
  unfold derived in Hinc.
  eexists _, vs', new, _, _.
  split_conj; [done|done|cbn; apply lookup_insert_eq|exact Hinc| | |].
  - rewrite Hinc. apply Forall_app. split.
    + by apply reported_range.
    + repeat (apply Forall_cons; split); [| |by apply Forall_nil].
      * cbn [snd]. specialize (Hratio PERF_COUNT_HW_INSTRUCTIONS PERF_COUNT_HW_CPU_CYCLES).
        specialize (Hraw PERF_COUNT_HW_INSTRUCTIONS). lia.
      * cbn [snd].
        specialize (Hratio PERF_COUNT_HW_INSTRUCTIONS PERF_COUNT_HW_REF_CPU_CYCLES).
        specialize (Hraw PERF_COUNT_HW_INSTRUCTIONS). lia.
  - apply Hratio.
  - apply Hratio.
Qed.

Lemma finalize_amounts_fit_witness :
  ∃ st' vs' new scaled per_cycle,
    run os_seeded (finalizeProfileEvents raw_events_info 7%nat 99%nat) measuring
    = Some (tt, st') ∧
    trace st'.2 = trace measuring.2 ++ new ∧
    raw_event_values st'.2 !! 7%nat = Some vs' ∧
    increments 99%nat new =
      reported raw_events_info (descriptors measuring.1) vs' ++
      [ (ProfileEvents.PERF_CUSTOM_INSTRUCTIONS_PER_CPU_CYCLE_SCALED, scaled);
        (ProfileEvents.PERF_CUSTOM_INSTRUCTIONS_PER_CPU_CYCLE, per_cycle) ] ∧
    Forall (λ x, 0 ≤ x.2 < 2 ^ 64) (increments 99%nat new) ∧
    scaled ≤ find_raw_value raw_events_info vs' PERF_TYPE_HARDWARE
               PERF_COUNT_HW_INSTRUCTIONS ∧
    per_cycle ≤ find_raw_value raw_events_info vs' PERF_TYPE_HARDWARE
                  PERF_COUNT_HW_INSTRUCTIONS.
Proof.
  apply (finalize_amounts_fit os_seeded raw_events_info 7%nat zeros 99%nat measuring).
  - valid_zero.
  - reflexivity.
  - reflexivity.
  - reflexivity.
Defined.

(** ** The first session of a thread *)

(** X15: the first [initializeProfileEvents] of a thread does all or
    nothing.  Either it opens the handles, and then the session is the
    active one, the holder has the descriptors the kernel returned, the
    valid ones among them are enabled, in order, and every value of the
    counters object is 0; or collection is unavailable, and then the
    thread-local variables and every counters object are as they were, no
    handle is asked for or enabled, [perf_unavailability_logged] is set,
    and the line that says so is logged exactly if the flag was clear. *)
Theorem first_initialize_all_or_nothing os catalog c vs st :
  valid catalog st →
  raw_event_values st.2 !! c = Some vs →
  current_thread_counters st.1 = None →
  thread_events_descriptors_opened st.1 = false →
  ∃ st' new,
    run os (initializeProfileEvents catalog c) st = Some (tt, st') ∧
    trace st'.2 = trace st.2 ++ new ∧
    ((current_thread_counters st'.1 = Some c ∧
      thread_events_descriptors_opened st'.1 = true ∧
      descriptors st'.1 = opened_fds new ∧
      ioctls new = (λ fd, (fd, PERF_EVENT_IOC_ENABLE)) <$>
                     filter is_valid_fd (opened_fds new) ∧
      raw_event_values st'.2 !! c = Some (replicate (NUMBER_OF_RAW_EVENTS catalog) 0)) ∨
     (st'.1 = st.1 ∧
      raw_event_values st'.2 = raw_event_values st.2 ∧
      opened_fds new = [] ∧ ioctls new = [] ∧
      perf_unavailability_logged st'.2 = true ∧
      unavailability_lines new =
        (if perf_unavailability_logged st.2 then 0 else 1)%nat)).
Proof.
  intros Hv Hc Hcur Hop.
  pose proof (initializeProfileEvents_first os catalog c vs st Hv Hc Hcur Hop) as Hwp.
  apply wp_run in Hwp as ([] & st' & Hrun & new & H).
  by exists st', new.
Qed.

Lemma first_initialize_all_or_nothing_witness :
  ∃ st' new,
    run os_refusing (initializeProfileEvents raw_events_info 7%nat) fresh
    = Some (tt, st') ∧
    trace st'.2 = trace fresh.2 ++ new ∧
    ((current_thread_counters st'.1 = Some 7%nat ∧
      thread_events_descriptors_opened st'.1 = true ∧
      descriptors st'.1 = opened_fds new ∧
      ioctls new = (λ fd, (fd, PERF_EVENT_IOC_ENABLE)) <$>
                     filter is_valid_fd (opened_fds new) ∧
      raw_event_values st'.2 !! 7%nat =
        Some (replicate (NUMBER_OF_RAW_EVENTS raw_events_info) 0)) ∨
     (st'.1 = fresh.1 ∧
      raw_event_values st'.2 = raw_event_values fresh.2 ∧
      opened_fds new = [] ∧ ioctls new = [] ∧
      perf_unavailability_logged st'.2 = true ∧
      unavailability_lines new =
        (if perf_unavailability_logged fresh.2 then 0 else 1)%nat)).
Proof.
  apply (first_initialize_all_or_nothing os_refusing raw_events_info 7%nat zeros fresh).
  - valid_zero.
  - reflexivity.
  - reflexivity.
  - reflexivity.
Defined.

(** ** A whole session *)

(** X16: a session on an idle thread, [initializeProfileEvents] followed
    by [finalizeProfileEvents] for the same object, leaves the thread idle
    again, and the handles it enables are exactly those it then disables
    and resets: when the handles of the thread are open, the [ioctl] calls
    of the session are one enable per valid descriptor of the holder, in
    order, followed by a disable and a reset per valid descriptor, in order;
    when collection is unavailable there is no [ioctl] call at all. *)
Theorem session_stops_what_it_starts os catalog c vs sink st :
  valid catalog st →
  raw_event_values st.2 !! c = Some vs →
  current_thread_counters st.1 = None →
  ∃ st' new,
    run os (noop_region catalog c sink) st = Some (tt, st') ∧
    trace st'.2 = trace st.2 ++ new ∧
    current_thread_counters st'.1 = None ∧
    if thread_events_descriptors_opened st'.1
    then ioctls new =
           ((λ fd, (fd, PERF_EVENT_IOC_ENABLE)) <$> filter is_valid_fd (descriptors st'.1))
           ++ (filter is_valid_fd (descriptors st'.1) ≫= stop_requests)
    else ioctls new = [].
Proof.
  intros Hv Hc Hcur. unfold noop_region. setoid_rewrite run_bind.
  pose proof (initializeProfileEvents_enables os catalog c vs st Hv Hc Hcur) as Hwp.
  apply wp_run in Hwp as ([] & st1 & -> & Hv1 & new1 & Htr1 & Hcases).
  destruct Hcases as [(Hcur1 & Hop1 & [vs1 Hc1] & Hio1)|(Hcur1 & Hop1 & Hio1)].
  - pose proof (finalize_calls os catalog c vs1 sink st1 Hv1 Hc1 Hcur1 Hop1) as Hwp.
    apply wp_run in Hwp
      as ([] & st' & -> & vs' & new2 & -> & _ & _ & _ & _ & Hio2 & _).
    eexists _, (new1 ++ new2). split; [done|].
    cbn [fst snd trace emits set_raw_event_values set_current descriptors
         thread_events_descriptors_opened current_thread_counters].
    rewrite Htr1, <- app_assoc, Hop1, ioctls_app, Hio1, Hio2. done.
  - rewrite finalizeProfileEvents_inactive by (by rewrite Hcur1).
    exists st1, new1. by rewrite Hop1.
Qed.

Lemma session_stops_what_it_starts_witness :
  ∃ st' new,
    run os_seeded (noop_region raw_events_info 7%nat 99%nat) fresh = Some (tt, st') ∧
    trace st'.2 = trace fresh.2 ++ new ∧
    current_thread_counters st'.1 = None ∧
    if thread_events_descriptors_opened st'.1
    then ioctls new =
           ((λ fd, (fd, PERF_EVENT_IOC_ENABLE)) <$> filter is_valid_fd (descriptors st'.1))
           ++ (filter is_valid_fd (descriptors st'.1) ≫= stop_requests)
    else ioctls new = [].
Proof.
  apply (session_stops_what_it_starts os_seeded raw_events_info 7%nat zeros 99%nat fresh).
  - valid_zero.
  - reflexivity.
  - reflexivity.
Defined.

(** ** Threads to which collection is unavailable *)

(** X17: threads that have just started call [initializeProfileEvents]
    concurrently, in a process that has just started and to which
    collection is unavailable.  Whatever the interleaving of their atomic
    steps, no thread ever asks for a handle, issues an [ioctl] or reads a
    handle, and every thread keeps the thread-local variables it started
    with: its holder stays unfilled and no session becomes active. *)
Theorem unavailable_collection_stays_out os catalog objects cs schedule m' :
  collection_unavailable os →
  sched os schedule (first_use catalog cs, process_start objects) = Some m' →
  Forall (λ t, locals t = thread_start catalog) m'.1 ∧
  opened_fds (trace m'.2) = [] ∧
  ioctls (trace m'.2) = [] ∧
  read_values (trace m'.2) = [].
Proof.
  intros Hos Hs.
  apply (sched_stays_out os (thread_start catalog)) in Hs; [done|].
  cbn [fst]. unfold first_use. apply Forall_fmap, Forall_forall. intros c _.
  split; [done|]. by apply stays_out_first_use.
Qed.

Lemma unavailable_collection_stays_out_witness :
  ∃ m',
    sched os_strict strict_schedule three_threads = Some m' ∧
    Forall (λ t, locals t = thread_start raw_events_info) m'.1 ∧
    opened_fds (trace m'.2) = [] ∧
    ioctls (trace m'.2) = [] ∧
    read_values (trace m'.2) = [].
Proof.
  assert (∃ m', sched os_strict strict_schedule three_threads = Some m') as [m' Hs].
  { eexists. vm_compute. reflexivity. }
  exists m'. split; [exact Hs|].
  apply (unavailable_collection_stays_out os_strict raw_events_info
           {[ 7%nat := zeros; 8%nat := zeros; 9%nat := zeros ]}
           [7%nat; 8%nat; 9%nat] strict_schedule m').
  - right. split_conj.
    + reflexivity.
    + intros tr size. by eexists.
    + intros tr str. simpl. lia.
    + reflexivity.
  - exact Hs.
Defined.
